(** * Source composition for the TensorFlow Java API docs

    A shallow embedding of [tensorflow/tools/docs/build_comprehensive_java_api_docs.py]:
    the directory overlay engine ([overlay]), the full composition
    ([build_comprehensive_java_docs]), the degraded composition
    ([build_traditional_tensorflow_java_docs]) and the fallback in [main].

    The file system is a tree of directories and regular files; the order of
    the entries of a directory is the order in which [os.scandir] lists them.
    A Python function is a state transformer on a [world] (file system,
    standard output, the supply of temporary names) that either returns or
    raises.

    The second script of the directory,
    [tensorflow/tools/docs/update_java_version_docs.py], which rewrites the
    version numbers in documentation files, is embedded in the module
    [update_java_version_docs], over the part of Python's regular expressions
    that it uses (module [re]). *)

From Stdlib Require Import String List Bool Arith Lia.
From stdpp Require Import base tactics option list strings.

Open Scope string_scope.
Open Scope list_scope.

(** ** Paths and the file-system tree *)

(** A path is the list of its components below the root; [a / b] is [a ++ b]. *)
Definition path := list string.

Definition bytes := string.

#[warnings="-register-all"]
Inductive node : Type :=
| File (data : bytes)
| Dir (entries : list (string * node)).

Definition is_Dir (t : node) : bool :=
  match t with Dir _ => true | File _ => false end.

(** Induction on trees that reaches the entries of a directory. *)
Section node_induction.
Variable P : node -> Prop.
Hypothesis P_File : forall d, P (File d).
Hypothesis P_Dir : forall es, Forall (fun e => P (snd e)) es -> P (Dir es).

Fixpoint node_ind_entries (t : node) : P t :=
  match t with
  | File d => P_File d
  | Dir es =>
      P_Dir es
        ((fix go (l : list (string * node)) : Forall (fun e => P (snd e)) l :=
            match l with
            | [] => @List.Forall_nil _ _
            | e :: l' =>
                @List.Forall_cons _ _ e l'
                  (match e return P (snd e) with (_, c) => node_ind_entries c end)
                  (go l')
            end) es)
  end.
End node_induction.

(** Directory entries, looked up by name. *)
Fixpoint assoc (n : string) (es : list (string * node)) : option node :=
  match es with
  | [] => None
  | (m, c) :: es' => if decide (n = m) then Some c else assoc n es'
  end.

(** Replace the entry called [n], or add it at the end. *)
Fixpoint set_entry (n : string) (v : node) (es : list (string * node))
  : list (string * node) :=
  match es with
  | [] => [(n, v)]
  | (m, c) :: es' =>
      if decide (n = m) then (n, v) :: es' else (m, c) :: set_entry n v es'
  end.

(** Remove the entries called [n]. *)
Fixpoint del_entry (n : string) (es : list (string * node))
  : list (string * node) :=
  match es with
  | [] => []
  | (m, c) :: es' =>
      if decide (n = m) then del_entry n es' else (m, c) :: del_entry n es'
  end.

(** [stat t p]: the node that [p] resolves to; [None] when a component is
    missing or lies below a regular file. *)
Fixpoint stat (t : node) (p : path) : option node :=
  match p with
  | [] => Some t
  | n :: p' =>
      match t with
      | File _ => None
      | Dir es =>
          match assoc n es with
          | Some c => stat c p'
          | None => None
          end
      end
  end.

(** Names are unique inside every directory. *)
Fixpoint wf (t : node) : Prop :=
  match t with
  | File _ => True
  | Dir es =>
      NoDup (map fst es) /\
      (fix all (l : list (string * node)) : Prop :=
         match l with
         | [] => True
         | (_, c) :: l' => wf c /\ all l'
         end) es
  end.

(** ** Exceptions *)

Inductive exn : Type :=
| FileExistsError
| FileNotFoundError
| NotADirectoryError
| IsADirectoryError
| SameFileError
| ValueError
| CalledProcessError (cmd : string)
| GitCommandError (msg : string)
| OtherError (msg : string).

(** [except subprocess.CalledProcessError] *)
Definition is_CalledProcessError (e : exn) : bool :=
  match e with CalledProcessError _ => true | _ => false end.

(** ** Path resolution with an action at the end

    [walk parents leaf t p] resolves [p] in [t] and replaces what it finds
    there ([Some] node, or [None] when only the last component is missing) by
    the result of [leaf].  A regular file in the middle of the path is
    [NotADirectoryError]; a missing directory in the middle is
    [FileNotFoundError], unless [parents] asks for the missing directories to
    be made. *)
Fixpoint chain (p : path) (v : node) : node :=
  match p with
  | [] => v
  | n :: p' => Dir [(n, chain p' v)]
  end.

Section walk.
Variable parents : bool.
Variable leaf : option node -> exn + node.

Fixpoint walk (t : node) (p : path) : exn + node :=
  match p with
  | [] => leaf (Some t)
  | n :: p' =>
      match t with
      | File _ => inl NotADirectoryError
      | Dir es =>
          match assoc n es with
          | Some c =>
              match walk c p' with
              | inr c' => inr (Dir (set_entry n c' es))
              | inl e => inl e
              end
          | None =>
              if parents || bool_decide (p' = []) then
                match leaf None with
                | inr v => inr (Dir (set_entry n (chain p' v) es))
                | inl e => inl e
                end
              else inl FileNotFoundError
          end
      end
  end.
End walk.

(** [Path.mkdir(parents=..., exist_ok=...)]; [os.makedirs] is the case
    [parents = true]. *)
Definition mkdir_leaf (exist_ok : bool) (o : option node) : exn + node :=
  match o with
  | None => inr (Dir [])
  | Some (Dir es) => if exist_ok then inr (Dir es) else inl FileExistsError
  | Some (File _) => inl FileExistsError
  end.

Definition fs_mkdir (parents exist_ok : bool) (t : node) (p : path) : exn + node :=
  walk parents (mkdir_leaf exist_ok) t p.

(** [open(p, 'wb')] followed by writing [data]. *)
Definition write_leaf (data : bytes) (o : option node) : exn + node :=
  match o with
  | Some (Dir _) => inl IsADirectoryError
  | _ => inr (File data)
  end.

Definition fs_write (data : bytes) (t : node) (p : path) : exn + node :=
  walk false (write_leaf data) t p.

(** [shutil.copyfile(src, dst)]: the same file is refused, then the source
    is opened for reading, then the destination for writing. *)
Definition fs_copyfile (t : node) (src dst : path) : exn + node :=
  match stat t src with
  | None => inl FileNotFoundError
  | Some x =>
      if decide (src = dst) then inl SameFileError
      else match x with
           | Dir _ => inl IsADirectoryError
           | File data => fs_write data t dst
           end
  end.

(** [shutil.copytree(src, dst)] with [dirs_exist_ok=False]: the source is
    listed, then [os.makedirs(dst)] makes the destination and its missing
    parents and raises when the destination exists, then the content is
    copied.  The copy is the snapshot of the source tree, which is what
    [copytree] does when [dst] does not lie inside [src]. *)
Definition copytree_leaf (src_tree : node) (o : option node) : exn + node :=
  match o with
  | Some _ => inl FileExistsError
  | None => inr src_tree
  end.

Definition fs_copytree (t : node) (src dst : path) : exn + node :=
  match stat t src with
  | None => inl FileNotFoundError
  | Some (File _) => inl NotADirectoryError
  | Some (Dir es) => walk true (copytree_leaf (Dir es)) t dst
  end.

(** [shutil.rmtree(p)] *)
Fixpoint fs_rmtree (t : node) (p : path) : exn + node :=
  match p with
  | [] => inl (OtherError "cannot remove the root")
  | n :: p' =>
      match t with
      | File _ => inl NotADirectoryError
      | Dir es =>
          match assoc n es with
          | None => inl FileNotFoundError
          | Some c =>
              match p' with
              | [] =>
                  if is_Dir c then inr (Dir (del_entry n es))
                  else inl NotADirectoryError
              | _ =>
                  match fs_rmtree c p' with
                  | inr c' => inr (Dir (set_entry n c' es))
                  | inl e => inl e
                  end
              end
          end
      end
  end.

(** [Path.rglob('*')] on a directory: the children of the directory, then,
    for each child directory in listing order, its own [rglob]; that is, the
    children of every directory of the pre-order walk.  The root itself is
    not listed. *)
Fixpoint rglob_node (prefix : path) (t : node) : list path :=
  match t with
  | File _ => []
  | Dir es =>
      map (fun e => prefix ++ [fst e]) es ++
      flat_map (fun e => match e with (n, c) => rglob_node (prefix ++ [n]) c end) es
  end.

Definition fs_rglob (t : node) (root : path) : list path :=
  match stat t root with
  | Some (Dir es) => rglob_node root (Dir es)
  | _ => []
  end.

(** [p.relative_to(root)] *)
Fixpoint relative_to (p root : path) : option path :=
  match root, p with
  | [], _ => Some p
  | r :: root', x :: p' => if decide (r = x) then relative_to p' root' else None
  | _ :: _, [] => None
  end.

(** [p.parent] *)
Definition parent (p : path) : path := removelast p.

(** ** The world and the monad of Python functions *)

(** What the script prints. *)
Inductive message : Type :=
| Msg_cloning (repo_url : string) (local_path : path)
| Msg_checking_out (version_tag : string)
| Msg_using_existing (local_path : path)
| Warn_overwriting (to_path : path)
| Msg_building_traditional
| Msg_generating_ops
| Warn_ops_failed (e : exn)
| Msg_building_comprehensive
| Msg_generating_version (version : string)
| Msg_working_in (merged_source : path)
| Warn_comprehensive_failed (e : exn)
| Msg_falling_back
| Msg_generating_to (output_dir : path)
| Msg_completed.

Record world : Type := World {
  fs : node;                  (* the file system, from its root *)
  stdout : list message;      (* printed so far, oldest first *)
  temp_names : list string    (* the names [tempfile] will try, in order *)
}.

Definition with_fs (w : world) (t : node) : world :=
  {| fs := t; stdout := stdout w; temp_names := temp_names w |}.

Inductive result (A : Type) : Type :=
| Ok (a : A)
| Raise (e : exn).
Arguments Ok {A} a.
Arguments Raise {A} e.

Definition M (A : Type) : Type := world -> result A * world.

Definition ret {A} (a : A) : M A := fun w => (Ok a, w).

Definition bind {A B} (m : M A) (k : A -> M B) : M B :=
  fun w =>
    match m w with
    | (Ok a, w') => k a w'
    | (Raise e, w') => (Raise e, w')
    end.

Definition raise {A} (e : exn) : M A := fun w => (Raise e, w).

(** [try: body / except <catches> as e: handler e] *)
Definition try_except {A} (body : M A) (catches : exn -> bool)
    (handler : exn -> M A) : M A :=
  fun w =>
    match body w with
    | (Ok a, w') => (Ok a, w')
    | (Raise e, w') => if catches e then handler e w' else (Raise e, w')
    end.

Declare Scope prog_scope.
Delimit Scope prog_scope with prog.
Bind Scope prog_scope with M.
Notation "x <- c ;; k" := (bind c (fun x => k))
  (at level 100, c at next level, k at level 200, right associativity) : prog_scope.
Notation "c ;; k" := (bind c (fun _ => k))
  (at level 100, k at level 200, right associativity) : prog_scope.
Open Scope prog_scope.

Fixpoint for_each {A} (l : list A) (body : A -> M unit) : M unit :=
  match l with
  | [] => ret tt
  | x :: l' => body x ;; for_each l' body
  end.

Definition print (m : message) : M unit :=
  fun w => (Ok tt, {| fs := fs w; stdout := stdout w ++ [m];
                      temp_names := temp_names w |}).

(** A file-system call: it changes the tree or raises and leaves it. *)
Definition fs_op (f : node -> exn + node) : M unit :=
  fun w =>
    match f (fs w) with
    | inr t => (Ok tt, with_fs w t)
    | inl e => (Raise e, w)
    end.

Definition path_exists (p : path) : M bool :=
  fun w => (Ok (bool_decide (is_Some (stat (fs w) p))), w).

Definition is_file (p : path) : M bool :=
  fun w => (Ok (match stat (fs w) p with Some (File _) => true | _ => false end), w).

Definition mkdir (parents exist_ok : bool) (p : path) : M unit :=
  fs_op (fun t => fs_mkdir parents exist_ok t p).

Definition copyfile (src dst : path) : M unit :=
  fs_op (fun t => fs_copyfile t src dst).

Definition copytree (src dst : path) : M unit :=
  fs_op (fun t => fs_copytree t src dst).

Definition rmtree (p : path) : M unit :=
  fs_op (fun t => fs_rmtree t p).

Definition rglob (root : path) : M (list path) :=
  fun w => (Ok (fs_rglob (fs w) root), w).

(** [tempfile.mkdtemp()]: the candidate names are tried in turn, a name that
    exists is passed over, and the directory is made with [os.mkdir]. *)
Fixpoint mkdtemp_loop (dir : path) (names : list string) (t : node)
  : result (path * node) * list string :=
  match names with
  | [] => (Raise FileExistsError, [])
  | n :: rest =>
      match fs_mkdir false false t (dir ++ [n]) with
      | inr t' => (Ok (dir ++ [n], t'), rest)
      | inl FileExistsError => mkdtemp_loop dir rest t
      | inl e => (Raise e, rest)
      end
  end.

(** ** Collaborators outside the script *)

(** An external program or library call: it may change the file system, and
    it returns or raises. *)
Definition external : Type := node -> result unit * node.

Definition run (x : external) : M unit :=
  fun w => let (r, t) := x (fs w) in (r, with_fs w t).

Record externals : Type := Externals {
  git_clone : string -> path -> external;       (* url, local path *)
  git_fetch : path -> external;                 (* fetch origin *)
  git_checkout : path -> string -> external;    (* local path, revision *)
  run_configure : path -> external;             (* yes '' | ./configure *)
  bazel_build : path -> string -> external;     (* cwd, target *)
  gen_java_docs : string -> path -> path -> path -> external
}.

Record flags : Type := Flags {
  output_dir : path;
  site_path : path;
  gen_ops : bool;
  tensorflow_java_repo : option path   (* [None]: unset or empty *)
}.

Record config : Type := Config {
  REPO_ROOT : path;
  TEMP_DIR : path;            (* [tempfile.gettempdir()] *)
  HAS_GITPYTHON : bool;
  FLAGS : flags
}.

Definition TENSORFLOW_JAVA_VERSION : string := "v1.1.0".
Definition NDARRAY_VERSION : string := "v1.0.0".

Definition TF_JAVA_SOURCE_PATH (cfg : config) : path :=
  REPO_ROOT cfg ++ ["tensorflow"; "java"; "src"; "main"; "java"].

Definition mkdtemp (cfg : config) : M path :=
  fun w =>
    match mkdtemp_loop (TEMP_DIR cfg) (temp_names w) (fs w) with
    | (Ok (p, t), rest) =>
        (Ok p, {| fs := t; stdout := stdout w; temp_names := rest |})
    | (Raise e, rest) =>
        (Raise e, {| fs := fs w; stdout := stdout w; temp_names := rest |})
    end.

(** ** The script *)

(** [clone_or_update_repo]: clone or update a git repository to a specific
    version.  With GitPython or with the [git] command the calls are the
    same; only the GitPython branch prints the revision it checks out. *)
Definition clone_or_update_repo (cfg : config) (ext : externals)
    (repo_url : string) (local_path : path) (version_tag : string) : M path :=
  present <- path_exists local_path ;;
  (if negb present then
     print (Msg_cloning repo_url local_path) ;;
     if HAS_GITPYTHON cfg then
       run (git_clone ext repo_url local_path) ;;
       print (Msg_checking_out version_tag) ;;
       run (git_checkout ext local_path version_tag)
     else
       run (git_clone ext repo_url local_path) ;;
       run (git_checkout ext local_path version_tag)
   else
     print (Msg_using_existing local_path) ;;
     if HAS_GITPYTHON cfg then
       run (git_fetch ext local_path) ;;
       print (Msg_checking_out version_tag) ;;
       run (git_checkout ext local_path version_tag)
     else
       run (git_fetch ext local_path) ;;
       run (git_checkout ext local_path version_tag)) ;;
  ret local_path.

(** [checkout_tensorflow_java]: the local repository of the flag, or a
    clone at the pinned version. *)
Definition checkout_tensorflow_java (cfg : config) (ext : externals) : M path :=
  match tensorflow_java_repo (FLAGS cfg) with
  | Some p => ret p
  | None =>
      let repo_url := "https://github.com/tensorflow/java" in
      let local_repo_path := REPO_ROOT cfg ++ ["tensorflow-java"] in
      clone_or_update_repo cfg ext repo_url local_repo_path TENSORFLOW_JAVA_VERSION ;;
      ret local_repo_path
  end.

(** [checkout_ndarray] *)
Definition checkout_ndarray (cfg : config) (ext : externals) : M path :=
  let repo_url := "https://github.com/tensorflow/java-ndarray" in
  let local_repo_path := REPO_ROOT cfg ++ ["ndarray"] in
  clone_or_update_repo cfg ext repo_url local_repo_path NDARRAY_VERSION ;;
  ret local_repo_path.

(** The body of the loop of [overlay], for one path of the walk. *)
Definition overlay_entry (from_root to_root from_path : path) : M unit :=
  match relative_to from_path from_root with
  | None => raise ValueError
  | Some relpath =>
      let to_path := to_root ++ relpath in
      f <- is_file from_path ;;
      if f then
        present <- path_exists to_path ;;
        (if present then print (Warn_overwriting to_path)
         else mkdir true true (parent to_path)) ;;
        copyfile from_path to_path
      else mkdir false true to_path
  end.

(** [overlay]: overlay files from one directory to another, creating
    directories as needed.  The walk is taken when the loop starts; Python's
    [rglob] lists each directory when it reaches it, which comes to the same
    when the two roots lie apart, since the loop then writes nothing below
    the source root. *)
Definition overlay (from_root to_root : path) : M unit :=
  entries <- rglob from_root ;;
  for_each entries (overlay_entry from_root to_root).

(** The body of the [try] in [build_traditional_tensorflow_java_docs]:
    configure, build the op sources with the build tool, copy them if they
    were produced. *)
Definition generate_ops (cfg : config) (ext : externals) (merged_source : path)
  : M unit :=
  run (run_configure ext (REPO_ROOT cfg)) ;;
  run (bazel_build ext (REPO_ROOT cfg) "//tensorflow/java:java_op_gen_sources") ;;
  let op_source_path :=
    REPO_ROOT cfg ++
    ["bazel-bin"; "tensorflow"; "java"; "ops"; "src"; "main"; "java";
     "org"; "tensorflow"; "op"] in
  present <- path_exists op_source_path ;;
  if present then
    copytree op_source_path (merged_source ++ ["java"; "org"; "tensorflow"; "ops"])
  else ret tt.

(** [build_traditional_tensorflow_java_docs]: the degraded composition, from
    the Java sources of this repository. *)
Definition build_traditional_tensorflow_java_docs (cfg : config) (ext : externals)
    (merged_source : path) : M unit :=
  print Msg_building_traditional ;;
  present <- path_exists (TF_JAVA_SOURCE_PATH cfg) ;;
  if present then
    copytree (TF_JAVA_SOURCE_PATH cfg) (merged_source ++ ["java"]) ;;
    if gen_ops (FLAGS cfg) then
      print Msg_generating_ops ;;
      try_except (generate_ops cfg ext merged_source)
        is_CalledProcessError
        (fun e => print (Warn_ops_failed e))
    else ret tt
  else ret tt.

(** [build_comprehensive_java_docs]: the full composition, with the
    external repositories. *)
Definition build_comprehensive_java_docs (cfg : config) (ext : externals)
    (merged_source : path) : M unit :=
  print Msg_building_comprehensive ;;
  mkdir true true (merged_source ++ ["java"; "org"]) ;;
  tensorflow_java_repo <- checkout_tensorflow_java cfg ext ;;
  ndarray_repo <- checkout_ndarray cfg ext ;;
  let tf_java_core_api :=
    tensorflow_java_repo ++
    ["tensorflow-core"; "tensorflow-core-api"; "src"; "main"; "java"; "org"; "tensorflow"] in
  p1 <- path_exists tf_java_core_api ;;
  (if p1 then copytree tf_java_core_api (merged_source ++ ["java"; "org"; "tensorflow"])
   else ret tt) ;;
  let tf_java_gen_api :=
    tensorflow_java_repo ++
    ["tensorflow-core"; "tensorflow-core-api"; "src"; "gen"; "java"; "org"; "tensorflow"] in
  p2 <- path_exists tf_java_gen_api ;;
  (if p2 then overlay tf_java_gen_api (merged_source ++ ["java"; "org"; "tensorflow"])
   else ret tt) ;;
  let tf_java_native_proto :=
    tensorflow_java_repo ++
    ["tensorflow-core"; "tensorflow-core-native"; "src"; "gen"; "java"; "org"; "tensorflow"; "proto"] in
  p3 <- path_exists tf_java_native_proto ;;
  (if p3 then copytree tf_java_native_proto
                (merged_source ++ ["java"; "org"; "tensorflow"; "proto"])
   else ret tt) ;;
  let tf_java_exceptions :=
    tensorflow_java_repo ++
    ["tensorflow-core"; "tensorflow-core-native"; "src"; "main"; "java"; "org"; "tensorflow"; "exceptions"] in
  p4 <- path_exists tf_java_exceptions ;;
  (if p4 then copytree tf_java_exceptions
                (merged_source ++ ["java"; "org"; "tensorflow"; "exceptions"])
   else ret tt) ;;
  let tf_java_c_api :=
    tensorflow_java_repo ++
    ["tensorflow-core"; "tensorflow-core-native"; "src"; "gen"; "java"; "org"; "tensorflow"; "internal"; "c_api"] in
  p5 <- path_exists tf_java_c_api ;;
  (if p5 then copytree tf_java_c_api
                (merged_source ++ ["java"; "org"; "tensorflow"; "internal"; "c_api"])
   else ret tt) ;;
  let tf_java_framework :=
    tensorflow_java_repo ++
    ["tensorflow-framework"; "src"; "main"; "java"; "org"; "tensorflow"; "framework"] in
  p6 <- path_exists tf_java_framework ;;
  (if p6 then copytree tf_java_framework
                (merged_source ++ ["java"; "org"; "tensorflow"; "framework"])
   else ret tt) ;;
  let ndarray_source :=
    ndarray_repo ++ ["ndarray"; "src"; "main"; "java"; "org"; "tensorflow"; "ndarray"] in
  p7 <- path_exists ndarray_source ;;
  (if p7 then copytree ndarray_source
                (merged_source ++ ["java"; "org"; "tensorflow"; "ndarray"])
   else ret tt).

(** The [try] / [except Exception] of [main]: the tree that goes to the
    documentation generator is the one where the full composition returned,
    or the new one made for the degraded composition. *)
Definition compose_or_fall_back (cfg : config) (ext : externals)
    (merged_source : path) : M path :=
  try_except
    (build_comprehensive_java_docs cfg ext merged_source ;; ret merged_source)
    (fun _ => true)
    (fun e =>
       print (Warn_comprehensive_failed e) ;;
       print Msg_falling_back ;;
       rmtree merged_source ;;
       merged_source' <- mkdtemp cfg ;;
       build_traditional_tensorflow_java_docs cfg ext merged_source' ;;
       ret merged_source').

(** [main] *)
Definition main (cfg : config) (ext : externals) : M unit :=
  print (Msg_generating_version TENSORFLOW_JAVA_VERSION) ;;
  merged_source <- mkdtemp cfg ;;
  print (Msg_working_in merged_source) ;;
  merged_source <- compose_or_fall_back cfg ext merged_source ;;
  print (Msg_generating_to (output_dir (FLAGS cfg))) ;;
  run (gen_java_docs ext "org.tensorflow" (merged_source ++ ["java"])
         (output_dir (FLAGS cfg)) (site_path (FLAGS cfg))) ;;
  print Msg_completed.

(** ** The composition as a sequence of subtree mappings *)

Inductive copy_mode : Type := replace_tree | overlay_merge.

Record mapping : Type := Mapping {
  m_mode : copy_mode;
  m_source : path;
  m_dest : path
}.

(** One guarded step of the composition: [if src.exists(): copy(src, dst)]. *)
Definition apply_mapping (mp : mapping) : M unit :=
  present <- path_exists (m_source mp) ;;
  if present then
    match m_mode mp with
    | replace_tree => copytree (m_source mp) (m_dest mp)
    | overlay_merge => overlay (m_source mp) (m_dest mp)
    end
  else ret tt.

Definition run_mappings (mps : list mapping) : M unit :=
  for_each mps apply_mapping.

(** The seven steps of [build_comprehensive_java_docs], in order. *)
Definition configured_mappings (tensorflow_java_repo ndarray_repo merged_source : path)
  : list mapping :=
  [ Mapping replace_tree
      (tensorflow_java_repo ++
       ["tensorflow-core"; "tensorflow-core-api"; "src"; "main"; "java"; "org"; "tensorflow"])
      (merged_source ++ ["java"; "org"; "tensorflow"]);
    Mapping overlay_merge
      (tensorflow_java_repo ++
       ["tensorflow-core"; "tensorflow-core-api"; "src"; "gen"; "java"; "org"; "tensorflow"])
      (merged_source ++ ["java"; "org"; "tensorflow"]);
    Mapping replace_tree
      (tensorflow_java_repo ++
       ["tensorflow-core"; "tensorflow-core-native"; "src"; "gen"; "java"; "org"; "tensorflow"; "proto"])
      (merged_source ++ ["java"; "org"; "tensorflow"; "proto"]);
    Mapping replace_tree
      (tensorflow_java_repo ++
       ["tensorflow-core"; "tensorflow-core-native"; "src"; "main"; "java"; "org"; "tensorflow"; "exceptions"])
      (merged_source ++ ["java"; "org"; "tensorflow"; "exceptions"]);
    Mapping replace_tree
      (tensorflow_java_repo ++
       ["tensorflow-core"; "tensorflow-core-native"; "src"; "gen"; "java"; "org"; "tensorflow"; "internal"; "c_api"])
      (merged_source ++ ["java"; "org"; "tensorflow"; "internal"; "c_api"]);
    Mapping replace_tree
      (tensorflow_java_repo ++
       ["tensorflow-framework"; "src"; "main"; "java"; "org"; "tensorflow"; "framework"])
      (merged_source ++ ["java"; "org"; "tensorflow"; "framework"]);
    Mapping replace_tree
      (ndarray_repo ++ ["ndarray"; "src"; "main"; "java"; "org"; "tensorflow"; "ndarray"])
      (merged_source ++ ["java"; "org"; "tensorflow"; "ndarray"]) ].

(** * Vocabulary of the statements *)

(** Two paths neither of which lies inside the other. *)
Definition apart (p q : path) : Prop :=
  ~ p `prefix_of` q /\ ~ q `prefix_of` p.

(** The entries of the walk lie strictly below the source root. *)
Definition below (from : path) (l : list path) : Prop :=
  forall e, e ∈ l -> exists rel, rel <> [] /\ e = from ++ rel.

(** An action is modest when it keeps the directory it finds, leaves a
    regular file where it finds one, and makes a regular file or an empty
    directory where it finds nothing: [mkdir] and writing a file are modest,
    copying a tree is not. *)
Definition modest (leaf : option node -> exn + node) : Prop :=
  forall o v, leaf o = inr v ->
    match o with
    | Some (Dir es) => v = Dir es
    | Some (File _) => exists d, v = File d
    | None => forall r, r <> [] -> stat v r = None
    end.

(** An action keeps directories when it never replaces one. *)
Definition keeps_dirs (leaf : option node -> exn + node) : Prop :=
  forall es v, leaf (Some (Dir es)) = inr v -> v = Dir es.

(** A property of the tree is stable below [to] when no modest action at a
    path below [to] breaks it. *)
Definition stable (to : path) (J : node -> Prop) : Prop :=
  forall parents leaf x t t',
    modest leaf -> walk parents leaf t (to ++ x) = inr t' -> J t -> J t'.

(** A property that no tree operation of the script breaks, at whatever
    path: copying a tree, making a directory and writing a file all keep
    directories. *)
Definition sturdy (J : node -> Prop) : Prop :=
  forall parents leaf p t t',
    keeps_dirs leaf -> walk parents leaf t p = inr t' -> J t -> J t'.

(** What one entry of the walk prints. *)
Definition entry_notice (t : node) (from_root to_root rel : path) : list message :=
  match stat t (from_root ++ rel) with
  | Some (File _) =>
      if bool_decide (is_Some (stat t (to_root ++ rel)))
      then [Warn_overwriting (to_root ++ rel)] else []
  | _ => []
  end.



(** A type collision: a directory of the source where the destination has a
    regular file, or a regular file of the source where the destination has a
    directory. *)
Definition type_collision (t : node) (from_root to_root rel : path) : bool :=
  match stat t (from_root ++ rel), stat t (to_root ++ rel) with
  | Some (Dir _), Some (File _) => true
  | Some (File _), Some (Dir _) => true
  | _, _ => false
  end.

Global Instance exn_eq_dec : EqDecision exn.
Proof. solve_decision. Defined.

Global Instance message_eq_dec : EqDecision message.
Proof. solve_decision. Defined.

(** How many times the notice for [p] occurs in what was printed. *)
Definition notices_for (p : path) (out : list message) : nat :=
  length (filter (fun m => m = Warn_overwriting p) out).

(** [fs_inv J m]: whether it returns or raises, [m] keeps the property [J]
    of the file system. *)
Definition fs_inv {A} (J : node -> Prop) (m : M A) : Prop :=
  forall w r w', m w = (r, w') -> J (fs w) -> J (fs w').

(** An external program respects [J]. *)
Definition respects (J : node -> Prop) (x : external) : Prop :=
  forall t, J t -> J (snd (x t)).

(** The external programs that take part in the composition respect [J]. *)
Definition ext_respects (J : node -> Prop) (ext : externals) : Prop :=
  (forall url p, respects J (git_clone ext url p)) /\
  (forall p, respects J (git_fetch ext p)) /\
  (forall p rev, respects J (git_checkout ext p rev)) /\
  (forall cwd, respects J (run_configure ext cwd)) /\
  (forall cwd target, respects J (bazel_build ext cwd target)).



(** The kind of what a path resolves to: a directory, a regular file, or
    nothing. *)
Definition kind (o : option node) : option bool :=
  match o with
  | Some (Dir _) => Some true
  | Some (File _) => Some false
  | None => None
  end.

(** A listing is top-down when the parent of every entry is the root or an
    entry listed before it ([seen] holds what was listed so far). *)
Fixpoint topdown (root : path) (seen l : list path) : Prop :=
  match l with
  | [] => True
  | e :: l' => (parent e = root \/ parent e ∈ seen) /\ topdown root (e :: seen) l'
  end.

(** The state of the walk after the entries [seen]: nothing collides, the
    destination root is a directory, every directory listed so far has its
    directory, and what remains to be listed exists. *)
Definition walk_ready (from to : path) (seen l : list path) (t : node) : Prop :=
  (forall rel, type_collision t from to rel = false) /\
  kind (stat t to) = Some true /\
  (forall rel, from ++ rel ∈ seen ->
     kind (stat t (from ++ rel)) = Some true ->
     kind (stat t (to ++ rel)) = Some true) /\
  (forall e, e ∈ l -> is_Some (stat t e)).

(** What a path resolves to, up to the order of directory entries: the bytes
    of a regular file, a directory, or nothing. *)
Definition content (o : option node) : option (option bytes) :=
  match o with
  | Some (File d) => Some (Some d)
  | Some (Dir _) => Some None
  | None => None
  end.

(** What [m] prints, whether it returns or raises, satisfies [P]. *)
Definition prints {A} (P : message -> Prop) (m : M A) : Prop :=
  forall w r w', m w = (r, w') ->
    exists out, stdout w' = stdout w ++ out /\ Forall P out.

(** The part of [main] that makes the merged tree. *)
Definition merged_tree_of_main (cfg : config) (ext : externals) : M path :=
  print (Msg_generating_version TENSORFLOW_JAVA_VERSION) ;;
  merged_source <- mkdtemp cfg ;;
  print (Msg_working_in merged_source) ;;
  compose_or_fall_back cfg ext merged_source.

(** The external programs, the documentation generator among them, never
    remove a directory nor put a regular file in its place. *)
Definition externals_keep_directories (ext : externals) : Prop :=
  forall q,
    ext_respects (fun t => exists es, stat t q = Some (Dir es)) ext /\
    forall package source_path output_dir site_path,
      respects (fun t => exists es, stat t q = Some (Dir es))
        (gen_java_docs ext package source_path output_dir site_path).

(** * Regular expressions, as the version updater uses them

    The part of Python's [re] that [update_java_version_docs.py] needs:
    literal characters, [\s], [\b], concatenation, alternation, the greedy
    [?], [*] and [+], capturing groups, and [re.sub] with a replacement
    template.  A text is a sequence of characters, a character is its Unicode
    code point; what Unicode says about a character (is it white space, is it
    a word character, has it a case, does it match a letter when case is
    ignored) is a parameter.

    The matcher is the backtracking matcher: [match_at] lists the ways a
    pattern matches at a position in the order in which backtracking finds
    them, and the match is the first of the list. *)
Module re.

Definition char : Type := N.
Definition text : Type := list char.

(** The first character of a literal of the script. *)
Definition chr (s : string) : char :=
  match s with
  | String a _ => Ascii.N_of_ascii a
  | EmptyString => 0%N
  end.

(** The characters of a literal of the script. *)
Definition chars (s : string) : text :=
  map Ascii.N_of_ascii (list_ascii_of_string s).

Record unicode : Type := Unicode {
  isspace : char -> bool;        (* [\s] *)
  isword : char -> bool;         (* [\w]: alphanumeric, or the underscore *)
  iscased : char -> bool;        (* the character has an upper or lower case *)
  same_letter : char -> char -> bool  (* equal when case is ignored *)
}.

Record flags : Type := Flags {
  IGNORECASE : bool;
  MULTILINE : bool;     (* changes [^] and [$], which the script does not use *)
  DOTALL : bool         (* changes [.], which the script does not use *)
}.

Definition no_flags : flags := Flags false false false.

Inductive regex : Type :=
| Empty
| Chr (c : char)               (* a literal character *)
| Space                        (* [\s] *)
| Boundary                     (* [\b] *)
| Cat (r1 r2 : regex)
| Alt (r1 r2 : regex)          (* [r1|r2] *)
| Opt (r : regex)              (* [(?:r)?] *)
| Star (r : regex)             (* [(?:r)*] *)
| Group (n : nat) (r : regex). (* the capturing group number [n] *)

(** [(?:r)+] *)
Definition Plus (r : regex) : regex := Cat r (Star r).

(** A literal word, character by character. *)
Fixpoint lit (w : text) : regex :=
  match w with
  | [] => Empty
  | c :: w' => Cat (Chr c) (lit w')
  end.

(** The state of the matcher: the character before the position, the text
    from the position on, the groups captured so far. *)
Record mstate : Type := MState {
  m_before : option char;
  m_rest : text;
  m_groups : list (nat * text)
}.

(** A literal of the pattern against a character of the text; with
    [IGNORECASE] a cased literal matches whatever is the same letter. *)
Definition char_matches (U : unicode) (ignorecase : bool) (x c : char) : bool :=
  if ignorecase && iscased U c then same_letter U x c else bool_decide (x = c).

(** [\b]: a word character on one side and none on the other. *)
Definition at_boundary (U : unicode) (before : option char) (rest : text) : bool :=
  xorb (match before with Some c => isword U c | None => false end)
       (match rest with c :: _ => isword U c | [] => false end).

(** The greedy repetition of a step: one more iteration first, then none.
    It goes on only with an iteration that consumed something. *)
Fixpoint star (step : mstate -> list mstate) (fuel : nat) (st : mstate)
  : list mstate :=
  match fuel with
  | 0 => [st]
  | S fuel' =>
      flat_map
        (fun st1 =>
           if decide (length (m_rest st1) < length (m_rest st))
           then star step fuel' st1 else [])
        (step st) ++ [st]
  end.

(** The ways [r] matches at the position of [st], first the one that
    backtracking tries first. *)
Fixpoint match_at (U : unicode) (ignorecase : bool) (r : regex) (st : mstate)
  : list mstate :=
  match r with
  | Empty => [st]
  | Chr c =>
      match m_rest st with
      | x :: s =>
          if char_matches U ignorecase x c
          then [MState (Some x) s (m_groups st)] else []
      | [] => []
      end
  | Space =>
      match m_rest st with
      | x :: s => if isspace U x then [MState (Some x) s (m_groups st)] else []
      | [] => []
      end
  | Boundary => if at_boundary U (m_before st) (m_rest st) then [st] else []
  | Cat r1 r2 =>
      flat_map (match_at U ignorecase r2) (match_at U ignorecase r1 st)
  | Alt r1 r2 => match_at U ignorecase r1 st ++ match_at U ignorecase r2 st
  | Opt r1 => match_at U ignorecase r1 st ++ [st]
  | Star r1 => star (match_at U ignorecase r1) (length (m_rest st)) st
  | Group n r1 =>
      map (fun st1 =>
             MState (m_before st1) (m_rest st1)
               ((n, take (length (m_rest st) - length (m_rest st1)) (m_rest st))
                :: m_groups st1))
          (match_at U ignorecase r1 st)
  end.

(** A replacement template: [\g<n>] and [\n] are group references. *)
Inductive template_item : Type :=
| Literal (t : text)
| GroupRef (n : nat).

Definition template : Type := list template_item.

Fixpoint group (gs : list (nat * text)) (n : nat) : text :=
  match gs with
  | [] => []
  | (m, t) :: gs' => if decide (n = m) then t else group gs' n
  end.

Definition expand (tpl : template) (st : mstate) : text :=
  flat_map (fun i => match i with
                     | Literal t => t
                     | GroupRef n => group (m_groups st) n
                     end) tpl.

(** The loop of [re.sub]: at every position, from left to right, the first
    match is replaced and the scan goes on behind it; where nothing matches
    the character is copied.  No pattern of the script matches the empty
    string, and the rule of [re.sub] for empty matches is left out: an empty
    match is passed over. *)
Fixpoint sub_loop (U : unicode) (ignorecase : bool) (r : regex) (repl : template)
    (fuel : nat) (before : option char) (s : text) : text :=
  match fuel with
  | 0 => s
  | S fuel' =>
      let copy :=
        match s with
        | [] => []
        | c :: s' => c :: sub_loop U ignorecase r repl fuel' (Some c) s'
        end in
      match match_at U ignorecase r (MState before s []) with
      | st :: _ =>
          if decide (length (m_rest st) < length s)
          then expand repl st ++
               sub_loop U ignorecase r repl fuel' (m_before st) (m_rest st)
          else copy
      | [] => copy
      end
  end.

(** [re.sub(pattern, repl, string, flags=flags)] *)
Definition sub (U : unicode) (pattern : regex) (repl : template) (string : text)
    (fl : flags) : text :=
  sub_loop U (IGNORECASE fl) pattern repl (S (length string)) None string.

(** The texts a pattern can match, whatever lies around them. *)
Fixpoint lang (U : unicode) (ignorecase : bool) (r : regex) (u : text) : Prop :=
  match r with
  | Empty => u = []
  | Chr c => exists x, u = [x] /\ char_matches U ignorecase x c = true
  | Space => exists x, u = [x] /\ isspace U x = true
  | Boundary => u = []
  | Cat r1 r2 =>
      exists u1 u2, u = u1 ++ u2 /\ lang U ignorecase r1 u1 /\ lang U ignorecase r2 u2
  | Alt r1 r2 => lang U ignorecase r1 u \/ lang U ignorecase r2 u
  | Opt r1 => u = [] \/ lang U ignorecase r1 u
  | Star r1 => exists us, u = concat us /\ Forall (lang U ignorecase r1) us
  | Group _ r1 => lang U ignorecase r1 u
  end.

(** The first match at a position, if there is one and it is not empty. *)
Definition consuming (U : unicode) (ignorecase : bool) (r : regex)
    (before : option char) (s : text) : option mstate :=
  match match_at U ignorecase r (MState before s []) with
  | st :: _ => if decide (length (m_rest st) < length s) then Some st else None
  | [] => None
  end.

(** A pattern without capturing groups. *)
Fixpoint group_free (r : regex) : bool :=
  match r with
  | Empty | Chr _ | Space | Boundary => true
  | Cat r1 r2 | Alt r1 r2 => group_free r1 && group_free r2
  | Opt r1 | Star r1 => group_free r1
  | Group _ _ => false
  end.

(** [w] occurs in [s]. *)
Definition occurs (w s : text) : Prop := exists l1 l2, s = l1 ++ w ++ l2.

End re.

(** * The version updater

    A shallow embedding of [tensorflow/tools/docs/update_java_version_docs.py].
    A file is read and written as text: how bytes are decoded ([utf-8], with
    the translation of line ends) and encoded is a parameter. *)
Module update_java_version_docs.

Record text_io : Type := TextIO {
  decode : bytes -> exn + re.text;   (* [UnicodeDecodeError] is an exception *)
  encode : re.text -> bytes
}.

Definition OLD_VERSION : string := "0.3.3".
Definition NEW_VERSION : string := "1.1.0".
Definition OLD_SNAPSHOT : string := "0.4.0-SNAPSHOT".
Definition NEW_SNAPSHOT : string := "1.2.0-SNAPSHOT".

(** The double quote. *)
Definition dquote : string := String (Ascii.ascii_of_nat 34) "".

(** [re.escape] of a version is the version, character by character. *)
Definition VERSION_PATTERNS : list (re.regex * re.template) :=
  [ (* Maven dependency version *)
    (re.lit (re.chars ("<version>" ++ OLD_VERSION ++ "</version>")),
     [re.Literal (re.chars ("<version>" ++ NEW_VERSION ++ "</version>"))]);
    (* Gradle dependency version *)
    (re.lit (re.chars ("version: '" ++ OLD_VERSION ++ "'")),
     [re.Literal (re.chars ("version: '" ++ NEW_VERSION ++ "'"))]);
    (re.lit (re.chars ("version: " ++ dquote ++ OLD_VERSION ++ dquote)),
     [re.Literal (re.chars ("version: " ++ dquote ++ NEW_VERSION ++ dquote))]);
    (* Generic version references *)
    (re.Cat re.Boundary (re.Cat (re.lit (re.chars OLD_VERSION)) re.Boundary),
     [re.Literal (re.chars NEW_VERSION)]);
    (* Snapshot versions *)
    (re.Cat re.Boundary (re.Cat (re.lit (re.chars OLD_SNAPSHOT)) re.Boundary),
     [re.Literal (re.chars NEW_SNAPSHOT)]) ].

Definition DEPENDENCY_PATTERNS : list (re.regex * re.template) :=
  [ (* Maven dependencies *)
    (re.Cat
       (re.Group 1
          (re.Cat (re.lit (re.chars "<dependency>"))
          (re.Cat (re.Star re.Space)
          (re.Cat (re.lit (re.chars "<groupId>org.tensorflow</groupId>"))
          (re.Cat (re.Star re.Space)
          (re.Cat (re.lit (re.chars "<artifactId>tensorflow-core-platform</artifactId>"))
          (re.Cat (re.Star re.Space)
                  (re.lit (re.chars "<version>")))))))))
       (re.Cat (re.lit (re.chars "0.3.3"))
               (re.Group 2 (re.lit (re.chars "</version>")))),
     [re.GroupRef 1; re.Literal (re.chars "1.1.0"); re.GroupRef 2]);
    (* Gradle dependencies *)
    (re.Cat
       (re.Group 1
          (re.lit (re.chars
             "compile group: 'org.tensorflow', name: 'tensorflow-core-platform', version: '")))
       (re.Cat (re.lit (re.chars "0.3.3"))
               (re.Group 2 (re.lit (re.chars "'")))),
     [re.GroupRef 1; re.Literal (re.chars "1.1.0"); re.GroupRef 2]) ].

(** An entry of [changes_made]. *)
Inductive change : Type :=
| Updated_version_reference (pattern : re.regex) (replacement : re.template)
| Updated_dependency
| Updated_java_requirement.

(** One turn of the loops of [update_file_content]. *)
Definition apply_pattern (U : re.unicode) (fl : re.flags)
    (describe : re.regex -> re.template -> change)
    (acc : re.text * list change) (p : re.regex * re.template)
  : re.text * list change :=
  let '(updated_content, changes_made) := acc in
  let '(pattern, replacement) := p in
  let new_content := re.sub U pattern replacement updated_content fl in
  if decide (new_content <> updated_content)
  then (new_content, changes_made ++ [describe pattern replacement])
  else (updated_content, changes_made).

(** [update_file_content]: update version references in file content. *)
Definition update_file_content (U : re.unicode) (content : re.text) (dry_run : bool)
  : re.text * list change :=
  let acc :=
    fold_left (apply_pattern U re.no_flags Updated_version_reference)
      VERSION_PATTERNS (content, []) in
  fold_left
    (apply_pattern U (re.Flags false true true) (fun _ _ => Updated_dependency))
    DEPENDENCY_PATTERNS acc.

(** [(Java\s+)8(\s+(?:and\s+)?above|(?:\s+or\s+)?higher|\+)] *)
Definition java_req_pattern : re.regex :=
  re.Cat (re.Group 1 (re.Cat (re.lit (re.chars "Java")) (re.Plus re.Space)))
  (re.Cat (re.Chr (re.chr "8"))
     (re.Group 2
        (re.Alt
           (re.Cat (re.Plus re.Space)
              (re.Cat (re.Opt (re.Cat (re.lit (re.chars "and")) (re.Plus re.Space)))
                      (re.lit (re.chars "above"))))
           (re.Alt
              (re.Cat
                 (re.Opt (re.Cat (re.Plus re.Space)
                            (re.Cat (re.lit (re.chars "or")) (re.Plus re.Space))))
                 (re.lit (re.chars "higher")))
              (re.Chr (re.chr "+")))))).

(** [update_java_requirements_section]: update the Java version requirement
    from 8 to 11, if found. *)
Definition update_java_requirements_section (U : re.unicode) (content : re.text)
  : re.text * list change :=
  let replacement := [re.GroupRef 1; re.Literal (re.chars "11"); re.GroupRef 2] in
  let updated := re.sub U java_req_pattern replacement content (re.Flags true false false) in
  if decide (updated <> content) then (updated, [Updated_java_requirement])
  else (content, []).

(** What the script prints. *)
Inductive line : Type :=
| Updated (file_path : path)
| Would_update (file_path : path)
| Change (c : change)
| No_changes_needed (file_path : path)
| Error_processing (file_path : path) (e : exn)
| Title
| Updating_version
| Updating_snapshot
| Blank
| Dry_run_mode
| File_not_found (file_path : path)
| Summary (files_updated total : nat)
| Changes_made
| Updated_java_version
| Updated_snapshot_version
| Updated_java_requirements
| Addresses_issue.

Record world : Type := World {
  fs : node;
  stdout : list line
}.

Definition print (l : line) (w : world) : world :=
  {| fs := fs w; stdout := stdout w ++ [l] |}.

(** [open(file_path, 'r')]: the regular file at the path. *)
Fixpoint open_read (t : node) (p : path) : exn + bytes :=
  match p with
  | [] =>
      match t with
      | File b => inr b
      | Dir _ => inl IsADirectoryError
      end
  | n :: p' =>
      match t with
      | File _ => inl NotADirectoryError
      | Dir es =>
          match assoc n es with
          | Some c => open_read c p'
          | None => inl FileNotFoundError
          end
      end
  end.

(** The body of the [try] of [process_file]. *)
Definition process_file_body (io : text_io) (U : re.unicode)
    (file_path : path) (dry_run : bool) (w : world) : (exn + bool) * world :=
  match open_read (fs w) file_path with
  | inl e => (inl e, w)
  | inr b =>
      match decode io b with
      | inl e => (inl e, w)
      | inr original_content =>
          let '(updated_content, version_changes) :=
            update_file_content U original_content dry_run in
          let '(updated_content, req_changes) :=
            update_java_requirements_section U updated_content in
          let all_changes := version_changes ++ req_changes in
          if decide (updated_content <> original_content) then
            let written :=
              if negb dry_run then
                match fs_write (encode io updated_content) (fs w) file_path with
                | inl e => inl e
                | inr t => inr (print (Updated file_path)
                                  {| fs := t; stdout := stdout w |})
                end
              else inr (print (Would_update file_path) w) in
            match written with
            | inl e => (inl e, w)
            | inr w1 =>
                (inr true, fold_left (fun w c => print (Change c) w) all_changes w1)
            end
          else (inr false, print (No_changes_needed file_path) w)
      end
  end.

(** [process_file]: process a single file for version updates. *)
Definition process_file (io : text_io) (U : re.unicode)
    (file_path : path) (dry_run : bool) (w : world) : bool * world :=
  match process_file_body io U file_path dry_run w with
  | (inr updated, w') => (updated, w')
  | (inl e, w') => (false, print (Error_processing file_path e) w')
  end.

(** The arguments, as [argparse] hands them over. *)
Record args : Type := Args {
  files : list path;
  dry_run : bool
}.

(** The loop of [main] over the files. *)
Definition main_loop (io : text_io) (U : re.unicode) (a : args)
    (acc : nat * world) (file_path : path) : nat * world :=
  let '(files_updated, w) := acc in
  if negb (bool_decide (is_Some (stat (fs w) file_path))) then
    (files_updated, print (File_not_found file_path) w)
  else
    let '(updated, w') := process_file io U file_path (dry_run a) w in
    (if updated then files_updated + 1 else files_updated, w').

(** [main], after the arguments were parsed. *)
Definition main (io : text_io) (U : re.unicode) (a : args) (w : world) : world :=
  let w := print Title w in
  let w := print Updating_version w in
  let w := print Updating_snapshot w in
  let w := print Blank w in
  let w := if dry_run a then print Blank (print Dry_run_mode w) else w in
  let '(files_updated, w) := fold_left (main_loop io U a) (files a) (0, w) in
  let w := print Blank w in
  let w := print (Summary files_updated (length (files a))) w in
  if bool_decide (0 < files_updated) then
    print Addresses_issue
      (print Blank
         (print Updated_java_requirements
            (print Updated_snapshot_version
               (print Updated_java_version
                  (print Changes_made (print Blank w))))))
  else w.

End update_java_version_docs.

(** Unicode, as far as ASCII goes: white space, word characters and letters
    are the ASCII ones. *)
Definition ascii_lower (c : re.char) : re.char :=
  if bool_decide (65 <= c <= 90)%N then (c + 32)%N else c.

Definition U_ascii : re.unicode :=
  {| re.isspace := fun c =>
       bool_decide (9 <= c <= 13)%N || bool_decide (28 <= c <= 32)%N;
     re.isword := fun c =>
       bool_decide (48 <= c <= 57)%N || bool_decide (65 <= c <= 90)%N ||
       bool_decide (97 <= c <= 122)%N || bool_decide (c = 95)%N;
     re.iscased := fun c =>
       bool_decide (65 <= c <= 90)%N || bool_decide (97 <= c <= 122)%N;
     re.same_letter := fun x c => bool_decide (ascii_lower x = ascii_lower c) |}.

(** Unicode extends ASCII: on the ASCII characters the classes are the ASCII
    ones. *)
Definition extends_ascii (U : re.unicode) : Prop :=
  forall c, (c < 128)%N ->
    re.isspace U c = re.isspace U_ascii c /\
    re.isword U c = re.isword U_ascii c /\
    re.iscased U c = re.iscased U_ascii c.

(** [edits rules s o]: [o] is [s] after some replacements, one after the
    other, of an occurrence of a word by the word that [rules] gives for
    it. *)
Inductive edits (rules : list (re.text * re.text)) : re.text -> re.text -> Prop :=
| edits_done s : edits rules s s
| edits_step l1 old new l2 o :
    (old, new) ∈ rules ->
    edits rules (l1 ++ new ++ l2) o ->
    edits rules (l1 ++ old ++ l2) o.

(** The replacements of the versions, and of the Java requirement. *)
Definition version_rules : list (re.text * re.text) :=
  [(re.chars update_java_version_docs.OLD_VERSION,
    re.chars update_java_version_docs.NEW_VERSION);
   (re.chars update_java_version_docs.OLD_SNAPSHOT,
    re.chars update_java_version_docs.NEW_SNAPSHOT)].

Definition java_rules : list (re.text * re.text) :=
  [(re.chars "8", re.chars "11")].

(** A white space and the digit 8 behind it. *)
Definition space_then_8 (U : re.unicode) (s : re.text) : Prop :=
  exists l1 c l2, s = l1 ++ c :: re.chr "8" :: l2 /\ re.isspace U c = true.

(** The text of a file after both updates. *)
Definition updated_text (U : re.unicode) (content : re.text) : re.text :=
  fst (update_java_version_docs.update_java_requirements_section U
         (fst (update_java_version_docs.update_file_content U content false))).


(** * Example worlds *)

(** External programs that do nothing, or fail at once. *)
Definition quiet : external := fun t => (Ok tt, t).

Definition failing (e : exn) : external := fun t => (Raise e, t).

(** Everything succeeds and leaves the file system alone. *)
Definition ext_quiet : externals :=
  {| git_clone := fun _ _ => quiet;
     git_fetch := fun _ => quiet;
     git_checkout := fun _ _ => quiet;
     run_configure := fun _ => quiet;
     bazel_build := fun _ _ => quiet;
     gen_java_docs := fun _ _ _ _ => quiet |}.

(** No network: cloning and fetching fail. *)
Definition ext_offline : externals :=
  {| git_clone := fun _ _ => failing (GitCommandError "unable to access the remote");
     git_fetch := fun _ => failing (GitCommandError "unable to access the remote");
     git_checkout := fun _ _ => quiet;
     run_configure := fun _ => quiet;
     bazel_build := fun _ _ => quiet;
     gen_java_docs := fun _ _ _ _ => quiet |}.




Definition demo_flags (repo : option path) : flags :=
  {| output_dir := ["out"]; site_path := ["site"]; gen_ops := true;
     tensorflow_java_repo := repo |}.

Definition demo_cfg (repo : option path) : config :=
  {| REPO_ROOT := ["repo"]; TEMP_DIR := ["tmp"]; HAS_GITPYTHON := true;
     FLAGS := demo_flags repo |}.

(** A source tree and a destination that has one of its files already. *)
Definition overlay_world : world :=
  {| fs := Dir [("src", Dir [("a.txt", File "A");
                            ("d", Dir [("b.txt", File "B"); ("e", Dir [])]);
                            ("z", File "Z")]);
                ("dst", Dir [("a.txt", File "old"); ("keep", File "K")])];
     stdout := []; temp_names := [] |}.

(** The destination has a regular file where the source has a directory. *)
Definition collision_world : world :=
  {| fs := Dir [("src", Dir [("a.txt", File "A");
                            ("d", Dir [("b.txt", File "B")])]);
                ("dst", Dir [("d", File "not a directory")])];
     stdout := []; temp_names := [] |}.

(** Three sources for the sequence replace, overlay, overlay. *)
Definition layers_world : world :=
  {| fs := Dir [("A", Dir [("core.txt", File "core")]);
                ("B", Dir [("x.txt", File "from B")]);
                ("C", Dir [("x.txt", File "from C"); ("y.txt", File "more")])];
     stdout := []; temp_names := [] |}.

(** A regular file where a parent of the destination should be. *)
Definition blocked_world : world :=
  {| fs := Dir [("src", Dir [("a.txt", File "A")]); ("f", File "F")];
     stdout := []; temp_names := [] |}.

(** A checkout of the Java repository whose hand-written core API has a
    [proto] package of its own, beside the generated one of the native
    bindings. *)
Definition tfj_checkout : node :=
  chain ["tensorflow-core"]
    (Dir [("tensorflow-core-api",
           chain ["src"; "main"; "java"; "org"; "tensorflow"]
             (Dir [("Tensor.java", File "class Tensor");
                   ("proto", Dir [("Legacy.java", File "class Legacy")])]));
          ("tensorflow-core-native",
           chain ["src"; "gen"; "java"; "org"; "tensorflow"; "proto"]
             (Dir [("GraphDef.java", File "class GraphDef")]))]).

Definition proto_world : world :=
  {| fs := Dir [("tmp", Dir [("m1", Dir [])]);
                ("repo", Dir [("ndarray", Dir [])]);
                ("tfj", tfj_checkout)];
     stdout := []; temp_names := ["m2"] |}.

(** This repository with its primary Java sources, and the merged tree of a
    composition under way. *)
Definition primary_sources : node :=
  chain ["org"; "tensorflow"] (Dir [("Tensor.java", File "class Tensor")]).

Definition primary_world : world :=
  {| fs := Dir [("tmp", Dir [("m1", Dir [])]);
                ("repo", Dir [("tensorflow",
                               chain ["java"; "src"; "main"; "java"] primary_sources)])];
     stdout := []; temp_names := ["m1"; "m2"] |}.



(** No primary sources at all. *)
Definition bare_world : world :=
  {| fs := Dir [("tmp", Dir [("m2", Dir [])]); ("repo", Dir [])];
     stdout := []; temp_names := [] |}.

(** A checkout of the Java repository with generated sources only, a
    package directory first in their listing. *)
Definition gen_only_checkout : node :=
  chain ["tensorflow-core"; "tensorflow-core-api"; "src"; "gen"; "java"; "org"; "tensorflow"]
    (Dir [("op", Dir [("Ops.java", File "class Ops")]);
          ("Version.java", File "class Version")]).

Definition gen_only_world : world :=
  {| fs := Dir [("tmp", Dir [("m1", Dir [])]);
                ("repo", Dir [("ndarray", Dir [])]);
                ("tfj", gen_only_checkout)];
     stdout := []; temp_names := ["m2"] |}.

(** A checkout with the hand-written core API, the generated protocol
    definitions of the native bindings and the framework, and a checkout of
    the array library. *)
Definition side_by_side_checkout : node :=
  Dir [("tensorflow-core",
        Dir [("tensorflow-core-api",
              chain ["src"; "main"; "java"; "org"; "tensorflow"]
                (Dir [("Tensor.java", File "class Tensor")]));
             ("tensorflow-core-native",
              chain ["src"; "gen"; "java"; "org"; "tensorflow"; "proto"]
                (Dir [("GraphDef.java", File "class GraphDef")]))]);
       ("tensorflow-framework",
        chain ["src"; "main"; "java"; "org"; "tensorflow"; "framework"]
          (Dir [("Optimizer.java", File "class Optimizer")]))].

Definition side_by_side_world : world :=
  {| fs := Dir [("tmp", Dir [("m1", Dir [])]);
                ("repo",
                 Dir [("ndarray",
                       chain ["ndarray"; "src"; "main"; "java"; "org"; "tensorflow"; "ndarray"]
                         (Dir [("NdArray.java", File "interface NdArray")]))]);
                ("tfj", side_by_side_checkout)];
     stdout := []; temp_names := ["m2"] |}.

(** The primary sources, and op sources generated by an earlier build. *)
Definition ops_ready_world : world :=
  {| fs := Dir [("tmp", Dir [("m2", Dir [])]);
                ("repo",
                 Dir [("tensorflow",
                       chain ["java"; "src"; "main"; "java"] primary_sources);
                      ("bazel-bin",
                       chain ["tensorflow"; "java"; "ops"; "src"; "main"; "java";
                              "org"; "tensorflow"; "op"]
                         (Dir [("Add.java", File "class Add")]))])];
     stdout := []; temp_names := [] |}.

(** This repository before a run of [main]: the primary sources, an empty
    temporary directory. *)
Definition start_world : world :=
  {| fs := Dir [("tmp", Dir []);
                ("repo", Dir [("tensorflow",
                               chain ["java"; "src"; "main"; "java"] primary_sources)])];
     stdout := []; temp_names := ["m1"; "m2"] |}.

(** A text layer that takes every byte for a character. *)
Definition byte_io : update_java_version_docs.text_io :=
  {| update_java_version_docs.decode := fun b => inr (re.chars b);
     update_java_version_docs.encode := fun t =>
       string_of_list_ascii (map Ascii.ascii_of_N t) |}.

(** Two pages of documentation, one with the old version. *)
Definition docs_world : update_java_version_docs.world :=
  {| update_java_version_docs.fs :=
       Dir [("docs",
             Dir [("install.md", File "<version>0.3.3</version> needs Java 8+");
                  ("index.md", File "TensorFlow Java")])];
     update_java_version_docs.stdout := [] |}.

(** * Tactics *)

(** Unfold the monad and the calls of the script down to the tree. *)
Ltac prog_unfold :=
  unfold bind, ret, raise, print, mkdir, copyfile, copytree, rmtree, fs_op,
    path_exists, is_file, rglob, run, try_except, with_fs in *; simpl in *.

(** One case for every way a run can go. *)
Ltac run_cases :=
  prog_unfold; repeat case_match; simplify_eq; simpl in *.

(** Two concrete paths lie apart. *)
Ltac apart_paths := split; intros [? ?]; simplify_eq.

(** A concrete tree is well formed. *)
Ltac wf_tree := cbn; repeat split; apply (bool_decide_unpack _); by vm_compute.

(** * Verification *)

(** ** Directory entries *)

Lemma assoc_set_entry n m v es :
  assoc m (set_entry n v es) = if decide (m = n) then Some v else assoc m es.
Proof.
  induction es as [|[k c] es IH]; simpl.
  - repeat case_decide; congruence.
  - repeat (case_decide; simpl); subst; try congruence.
Qed.

Lemma assoc_set_entry_eq n v es : assoc n (set_entry n v es) = Some v.
Proof. rewrite assoc_set_entry. by case_decide. Qed.

Lemma assoc_set_entry_ne n m v es :
  m <> n -> assoc m (set_entry n v es) = assoc m es.
Proof. intros. rewrite assoc_set_entry. by case_decide. Qed.

Lemma set_entry_same n v es : assoc n es = Some v -> set_entry n v es = es.
Proof.
  induction es as [|[k c] es IH]; simpl; [done|].
  case_decide; intros; simplify_eq; [done|]. by rewrite IH.
Qed.

Lemma assoc_None_names n es : assoc n es = None <-> n ∉ map fst es.
Proof.
  induction es as [|[k c] es IH]; simpl.
  - split; [intros _; apply not_elem_of_nil | done].
  - rewrite not_elem_of_cons. case_decide; subst.
    + split; [done | intros [? _]; done].
    + rewrite IH. tauto.
Qed.

Lemma assoc_Some_In n c es : assoc n es = Some c -> (n, c) ∈ es.
Proof.
  induction es as [|[k c'] es IH]; simpl; [done|].
  case_decide; intros; simplify_eq; [left | right; auto].
Qed.


(** ** Resolution *)

Lemma stat_app t p q :
  stat t (p ++ q) = match stat t p with Some c => stat c q | None => None end.
Proof.
  revert t. induction p as [|n p IH]; intros t; simpl; [done|].
  destruct t as [|es]; [done|]. destruct (assoc n es); [apply IH | done].
Qed.

Lemma stat_File_below d p : p <> [] -> stat (File d) p = None.
Proof. by destruct p. Qed.

Lemma stat_Dir_nil_below p : p <> [] -> stat (Dir []) p = None.
Proof. by destruct p. Qed.

(** What lies above something that exists is a directory. *)
Lemma stat_above_is_Dir t p q x :
  stat t (p ++ q) = Some x -> q <> [] -> exists es, stat t p = Some (Dir es).
Proof.
  rewrite stat_app. destruct (stat t p) as [[d|es]|]; try done.
  - intros H Hq. by rewrite stat_File_below in H.
  - eauto.
Qed.

Lemma stat_chain_self p v : stat (chain p v) p = Some v.
Proof.
  induction p as [|n p IH]; simpl; [done|]. by rewrite decide_True.
Qed.

Lemma stat_chain_other p v q :
  ~ p `prefix_of` q -> ~ q `prefix_of` p -> stat (chain p v) q = None.
Proof.
  revert q. induction p as [|n p IH]; intros q Hpq Hqp.
  - destruct Hpq. apply prefix_nil.
  - destruct q as [|m q]; [destruct Hqp; apply prefix_nil|].
    simpl. case_decide; [subst|done].
    apply IH; intros H; [apply Hpq | apply Hqp]; by apply prefix_cons.
Qed.

Lemma apart_sym p q : apart p q -> apart q p.
Proof. unfold apart; tauto. Qed.

Lemma apart_app_r p q r : apart p q -> apart p (q ++ r).
Proof.
  intros [Hpq Hqp]. split.
  - intros H. destruct (prefix_weak_total p q (q ++ r)) as [?|?]; auto.
    by apply prefix_app_r.
  - intros H. apply Hqp. by eapply prefix_app_l.
Qed.

Lemma apart_app_l p q r : apart p q -> apart (p ++ r) q.
Proof. intros. by apply apart_sym, apart_app_r, apart_sym. Qed.

Lemma apart_cons n p q : apart (n :: p) (n :: q) -> apart p q.
Proof.
  intros [H1 H2]. split; intros H; [apply H1 | apply H2]; by apply prefix_cons.
Qed.

(** ** Path resolution with an action: what changes and what does not *)

Section walk_facts.
Variable parents : bool.
Variable leaf : option node -> exn + node.

(** At the path itself, the result of the action. *)
Lemma walk_stat_target t p t' :
  walk parents leaf t p = inr t' ->
  exists v, leaf (stat t p) = inr v /\ stat t' p = Some v.
Proof.
  revert t t'. induction p as [|n p IH]; intros t t' H; simpl in *.
  - eauto.
  - destruct t as [|es]; [done|].
    destruct (assoc n es) as [c|] eqn:Hn.
    + destruct (walk parents leaf c p) as [|c'] eqn:Hw; [done|].
      simplify_eq. apply IH in Hw as (v & ? & ?).
      exists v. by rewrite assoc_set_entry_eq.
    + destruct (parents || bool_decide (p = [])); [|done].
      destruct (leaf None) as [|v] eqn:Hl; [done|]. simplify_eq.
      exists v. rewrite assoc_set_entry_eq. split; [done|apply stat_chain_self].
Qed.

(** Away from the path, nothing. *)
Lemma walk_frame t p t' q :
  walk parents leaf t p = inr t' -> apart p q -> stat t' q = stat t q.
Proof.
  revert t t' q. induction p as [|n p IH]; intros t t' q H Hpq.
  - destruct Hpq as [[] _]. apply prefix_nil.
  - destruct q as [|m q]; [destruct Hpq as [_ []]; apply prefix_nil|].
    simpl in *. destruct t as [|es]; [done|].
    destruct (assoc n es) as [c|] eqn:Hn.
    + destruct (walk parents leaf c p) as [|c'] eqn:Hw; [done|].
      simplify_eq. rewrite assoc_set_entry. case_decide; [subst|done].
      rewrite Hn. apply (IH _ _ _ Hw). by eapply apart_cons.
    + destruct (parents || bool_decide (p = [])); [|done].
      destruct (leaf None) as [|v] eqn:Hl; [done|]. simplify_eq.
      rewrite assoc_set_entry. case_decide; [subst|done].
      rewrite Hn. apply apart_cons in Hpq as [? ?]. by apply stat_chain_other.
Qed.

(** Above the path there are directories afterwards. *)
Lemma walk_above t p r t' :
  walk parents leaf t (p ++ r) = inr t' -> r <> [] ->
  exists es, stat t' p = Some (Dir es).
Proof.
  revert t t'. induction p as [|n p IH]; intros t t' H Hr.
  - destruct r as [|m r]; [done|]. simpl in *.
    destruct t as [|es]; [done|].
    destruct (assoc m es); [destruct (walk parents leaf n r)|
      destruct (parents || bool_decide (r = [])); [destruct (leaf None)|]];
      simplify_eq; eauto.
  - simpl in *. destruct t as [|es]; [done|].
    destruct (assoc n es) as [c|] eqn:Hn.
    + destruct (walk parents leaf c (p ++ r)) as [|c'] eqn:Hw; [done|].
      simplify_eq. rewrite assoc_set_entry_eq. eauto.
    + destruct (parents || bool_decide (p ++ r = [])); [|done].
      destruct (leaf None) as [|v] eqn:Hl; [done|]. simplify_eq.
      rewrite assoc_set_entry_eq.
      clear -Hr. induction p as [|k p IHp]; simpl.
      * destruct r; [done|]. simpl. eauto.
      * rewrite decide_True by done. apply IHp.
Qed.

(** An action that gives back what it finds changes nothing. *)
Lemma walk_same t p x :
  stat t p = Some x -> leaf (Some x) = inr x -> walk parents leaf t p = inr t.
Proof.
  revert t. induction p as [|n p IH]; intros t Hs Hl; simpl in *.
  - by simplify_eq.
  - destruct t as [|es]; [done|]. destruct (assoc n es) as [c|] eqn:Hn; [|done].
    rewrite (IH c) by done. by rewrite set_entry_same.
Qed.

(** An action that refuses what it finds makes the call fail. *)
Lemma walk_refused t p x e :
  stat t p = Some x -> leaf (Some x) = inl e -> walk parents leaf t p = inl e.
Proof.
  revert t. induction p as [|n p IH]; intros t Hs Hl; simpl in *.
  - by simplify_eq.
  - destruct t as [|es]; [done|]. destruct (assoc n es) as [c|] eqn:Hn; [|done].
    by rewrite (IH c).
Qed.

(** A regular file in the middle of the path makes the call fail. *)
Lemma walk_through_file t p r d :
  stat t p = Some (File d) -> r <> [] ->
  walk parents leaf t (p ++ r) = inl NotADirectoryError.
Proof.
  revert t. induction p as [|n p IH]; intros t Hs Hr; simpl in *.
  - simplify_eq. by destruct r.
  - destruct t as [|es]; [done|]. destruct (assoc n es) as [c|] eqn:Hn; [|done].
    by rewrite (IH c).
Qed.
End walk_facts.

Lemma path_cases (p q : path) :
  apart p q \/ (exists r, q = p ++ r) \/ (exists r, r <> [] /\ p = q ++ r).
Proof.
  destruct (decide (p `prefix_of` q)) as [[r ->]|Hpq]; [right; left; eauto|].
  destruct (decide (q `prefix_of` p)) as [[r ->]|Hqp]; [|by left].
  right; right. exists r. split; [|done]. intros ->. apply Hpq.
  rewrite app_nil_r. done.
Qed.

Lemma modest_keeps_dirs leaf : modest leaf -> keeps_dirs leaf.
Proof. intros H es v Hl. apply (H _ _ Hl). Qed.

Lemma mkdir_leaf_modest ok : modest (mkdir_leaf ok).
Proof.
  intros [[d|es]|] v H; simpl in *; try done.
  - destruct ok; by simplify_eq.
  - simplify_eq. apply stat_Dir_nil_below.
Qed.

Lemma write_leaf_modest data : modest (write_leaf data).
Proof.
  intros [[d|es]|] v H; simpl in *; simplify_eq; eauto using stat_File_below.
Qed.

Lemma copytree_leaf_keeps_dirs s : keeps_dirs (copytree_leaf s).
Proof. by intros es v H. Qed.

Section walk_kept.
Variable parents : bool.
Variable leaf : option node -> exn + node.
Hypothesis Hleaf : keeps_dirs leaf.

(** What exists strictly below the path is not touched. *)
Lemma walk_below_kept t p t' r x :
  walk parents leaf t p = inr t' -> r <> [] ->
  stat t (p ++ r) = Some x -> stat t' (p ++ r) = Some x.
Proof.
  intros Hw Hr Hx.
  destruct (stat_above_is_Dir _ _ _ _ Hx Hr) as [es Hp].
  destruct (walk_stat_target _ _ _ _ _ Hw) as (v & Hv & Hp').
  rewrite Hp in Hv. apply Hleaf in Hv as ->.
  rewrite stat_app, Hp in Hx. by rewrite stat_app, Hp'.
Qed.

(** A regular file elsewhere is not touched. *)
Lemma walk_other_file t p t' q d :
  walk parents leaf t p = inr t' -> q <> p ->
  stat t q = Some (File d) -> stat t' q = Some (File d).
Proof.
  intros Hw Hne Hq.
  destruct (path_cases p q) as [Hap|[[r ->]|(r & Hr & ->)]].
  - by rewrite (walk_frame _ _ _ _ _ _ Hw Hap).
  - apply (walk_below_kept t); [done| |done]. intros ->. by rewrite app_nil_r in Hne.
  - by rewrite (walk_through_file _ _ _ _ _ d Hq Hr) in Hw.
Qed.

(** A directory stays a directory. *)
Lemma walk_dir_stays t p t' q es :
  walk parents leaf t p = inr t' ->
  stat t q = Some (Dir es) -> exists es', stat t' q = Some (Dir es').
Proof.
  intros Hw Hq.
  destruct (path_cases p q) as [Hap|[[r ->]|(r & Hr & ->)]].
  - rewrite (walk_frame _ _ _ _ _ _ Hw Hap). eauto.
  - destruct (decide (r = [])) as [->|Hr].
    + rewrite app_nil_r in *.
      destruct (walk_stat_target _ _ _ _ _ Hw) as (v & Hv & Hp').
      rewrite Hq in Hv. apply Hleaf in Hv as ->. eauto.
    + erewrite walk_below_kept; eauto.
  - by eapply walk_above.
Qed.
End walk_kept.

Section walk_modest.
Variable parents : bool.
Variable leaf : option node -> exn + node.
Hypothesis Hleaf : modest leaf.

(** A modest action brings into existence only the path it is given and
    the directories above it. *)
Lemma walk_other_none t p t' q :
  walk parents leaf t p = inr t' -> ~ q `prefix_of` p ->
  stat t q = None -> stat t' q = None.
Proof.
  intros Hw Hqp Hq.
  destruct (path_cases p q) as [Hap|[[r ->]|(r & Hr & ->)]].
  - by rewrite (walk_frame _ _ _ _ _ _ Hw Hap).
  - assert (r <> []) as Hr.
    { intros ->. apply Hqp. by rewrite app_nil_r. }
    destruct (walk_stat_target _ _ _ _ _ Hw) as (v & Hv & Hp').
    rewrite stat_app, Hp'. apply Hleaf in Hv.
    rewrite stat_app in Hq. destruct (stat t p) as [[d|es]|]; auto.
    * destruct Hv as [d' ->]. by apply stat_File_below.
    * by subst.
  - destruct Hqp. by apply prefix_app_r.
Qed.
End walk_modest.


(** With [parents], the call succeeds on a path that does not exist unless a
    regular file lies on the way. *)
Lemma walk_parents_succeeds leaf t p v :
  leaf None = inr v -> stat t p = None ->
  (forall q r d, p = q ++ r -> stat t q <> Some (File d)) ->
  exists t', walk true leaf t p = inr t'.
Proof.
  intros Hl. revert t. induction p as [|n p IH]; intros t Hp Hfiles; simpl in *.
  - done.
  - destruct t as [d|es]; [by destruct (Hfiles [] (n :: p) d)|].
    destruct (assoc n es) as [c|] eqn:Hn.
    + destruct (IH c) as [c' ->]; eauto.
      intros q r d -> Hq. apply (Hfiles (n :: q) r d); [done|].
      simpl. by rewrite Hn.
    + rewrite Hl. eauto.
Qed.

(** ** Well-formed trees and the recursive listing *)

Lemma wf_Dir es :
  wf (Dir es) <-> NoDup (map fst es) /\ Forall (fun e => wf (snd e)) es.
Proof.
  simpl. apply and_iff_compat_l.
  induction es as [|[n c] es IH]; simpl.
  - split; [constructor | done].
  - rewrite Forall_cons, IH. done.
Qed.

Lemma assoc_In_NoDup n c es :
  NoDup (map fst es) -> (n, c) ∈ es -> assoc n es = Some c.
Proof.
  induction es as [|[m c'] es IH]; simpl; intros Hnd Hin.
  - by apply elem_of_nil in Hin.
  - apply NoDup_cons in Hnd as [Hm Hnd].
    apply elem_of_cons in Hin as [?|Hin]; simplify_eq.
    + by rewrite decide_True.
    + case_decide; [subst|by apply IH].
      destruct Hm. apply list_elem_of_fmap. by exists (m, c).
Qed.

Lemma wf_stat t p c : wf t -> stat t p = Some c -> wf c.
Proof.
  revert t. induction p as [|n p IH]; intros t Hwf Hs; simpl in *.
  - by simplify_eq.
  - destruct t as [|es]; [done|].
    destruct (assoc n es) as [c'|] eqn:Hn; [|done].
    apply (IH c'); [|done].
    apply wf_Dir in Hwf as [_ Hall]. apply assoc_Some_In in Hn.
    rewrite Forall_forall in Hall. by apply (Hall (n, c')).
Qed.

(** Every listed path lies strictly below the root of the listing. *)
Lemma rglob_node_below t : forall root p,
  p ∈ rglob_node root t -> exists rel, rel <> [] /\ p = root ++ rel.
Proof.
  induction t as [d|es IH] using node_ind_entries; intros root p Hp; simpl in *.
  - by apply elem_of_nil in Hp.
  - apply elem_of_app in Hp as [Hp|Hp].
    + apply list_elem_of_fmap in Hp as (e & -> & _). by exists [e.1].
    + apply list_elem_of_In, in_flat_map in Hp as ([n c] & He & Hp).
      rewrite Forall_forall in IH. apply list_elem_of_In in He, Hp.
      destruct (IH _ He _ _ Hp) as (rel & Hrel & ->).
      exists (n :: rel). split; [done|]. by rewrite <- app_assoc.
Qed.

(** Everything that exists strictly below the root is listed. *)
Lemma rglob_node_complete rel : forall t root x,
  stat t rel = Some x -> rel <> [] -> root ++ rel ∈ rglob_node root t.
Proof.
  induction rel as [|n rel IH]; intros t root x Hs Hne; [done|].
  simpl in Hs. destruct t as [|es]; [done|].
  destruct (assoc n es) as [c|] eqn:Hn; [|done].
  apply assoc_Some_In in Hn. simpl. apply elem_of_app.
  destruct (decide (rel = [])) as [->|Hrel].
  - left. apply list_elem_of_fmap. by exists (n, c).
  - right. apply list_elem_of_In, in_flat_map. exists (n, c).
    split; [by apply list_elem_of_In|]. apply list_elem_of_In.
    replace (root ++ n :: rel) with ((root ++ [n]) ++ rel)
      by (by rewrite <- app_assoc).
    by eapply IH.
Qed.

(** In a well-formed tree, what is listed exists. *)
Lemma rglob_node_exists t : forall root rel,
  wf t -> root ++ rel ∈ rglob_node root t -> is_Some (stat t rel).
Proof.
  induction t as [d|es IH] using node_ind_entries; intros root rel Hwf Hp; simpl in *.
  - by apply elem_of_nil in Hp.
  - apply wf_Dir in Hwf as [Hnd Hall].
    apply elem_of_app in Hp as [Hp|Hp].
    + apply list_elem_of_fmap in Hp as ([n c] & Heq & He).
      apply app_inv_head in Heq as ->. simpl.
      by rewrite (assoc_In_NoDup _ _ _ Hnd He).
    + apply list_elem_of_In, in_flat_map in Hp as ([n c] & He & Hp).
      apply list_elem_of_In in He, Hp.
      destruct (rglob_node_below _ _ _ Hp) as (rel' & Hrel' & Heq).
      rewrite <- app_assoc in Heq. apply app_inv_head in Heq as ->.
      simpl. rewrite (assoc_In_NoDup _ _ _ Hnd He).
      rewrite Forall_forall in IH, Hall.
      apply (IH _ He (root ++ [n])); [by apply (Hall _ He)|].
      by rewrite <- app_assoc.
Qed.

(** In a well-formed tree, nothing is listed twice. *)
Lemma rglob_node_NoDup t : forall root, wf t -> NoDup (rglob_node root t).
Proof.
  induction t as [d|es IH] using node_ind_entries; intros root Hwf; simpl.
  - constructor.
  - apply wf_Dir in Hwf as [Hnd Hall].
    apply NoDup_app. split_and!.
    + clear IH Hall. induction es as [|[n c] es IHes]; simpl; [constructor|].
      simpl in Hnd. apply NoDup_cons in Hnd as [Hn Hnd].
      apply NoDup_cons. split; [|by apply IHes].
      intros Hin. apply list_elem_of_fmap in Hin as ([m c'] & Heq & He).
      apply app_inv_head in Heq. simplify_eq. apply Hn.
      apply list_elem_of_fmap. by exists (m, c').
    + intros p Hp1 Hp2.
      apply list_elem_of_fmap in Hp1 as (e & -> & _).
      apply list_elem_of_In, in_flat_map in Hp2 as ([n c] & _ & Hp).
      apply list_elem_of_In, rglob_node_below in Hp as (rel & Hrel & Heq).
      rewrite <- app_assoc in Heq. apply app_inv_head in Heq. simpl in Heq.
      simplify_eq.
    + induction es as [|[n c] es IHes]; simpl; [constructor|].
      simpl in Hnd. apply NoDup_cons in Hnd as [Hn Hnd].
      apply Forall_cons in IH as [IHc IH]. apply Forall_cons in Hall as [Hc Hall].
      apply NoDup_app. split_and!; [by apply IHc| |by apply IHes].
      intros p Hp1 Hp2.
      apply rglob_node_below in Hp1 as (rel & Hrel & ->).
      apply list_elem_of_In, in_flat_map in Hp2 as ([m c'] & He & Hp).
      apply list_elem_of_In, rglob_node_below in Hp as (rel' & Hrel' & Heq).
      rewrite <- !app_assoc in Heq. apply app_inv_head in Heq. simpl in Heq.
      simplify_eq. apply Hn. apply list_elem_of_fmap. exists (m, c').
      split; [done|]. by apply list_elem_of_In.
Qed.

Lemma relative_to_app root rel : relative_to (root ++ rel) root = Some rel.
Proof.
  induction root as [|r root IH]; simpl; [by destruct rel|].
  by rewrite decide_True.
Qed.

Lemma parent_app p rel : rel <> [] -> parent (p ++ rel) = p ++ parent rel.
Proof. intros. unfold parent. by apply removelast_app. Qed.

Lemma fs_rglob_below t root p :
  p ∈ fs_rglob t root -> exists rel, rel <> [] /\ p = root ++ rel.
Proof.
  unfold fs_rglob. destruct (stat t root) as [[d|es]|].
  - intros H. by apply elem_of_nil in H.
  - apply rglob_node_below.
  - intros H. by apply elem_of_nil in H.
Qed.

Lemma fs_rglob_complete t root rel x :
  stat t (root ++ rel) = Some x -> rel <> [] -> root ++ rel ∈ fs_rglob t root.
Proof.
  intros Hs Hrel. unfold fs_rglob.
  destruct (stat_above_is_Dir _ _ _ _ Hs Hrel) as [es Hroot].
  rewrite Hroot. rewrite stat_app, Hroot in Hs.
  by eapply rglob_node_complete.
Qed.

Lemma fs_rglob_NoDup t root : wf t -> NoDup (fs_rglob t root).
Proof.
  intros Hwf. unfold fs_rglob.
  destruct (stat t root) as [[d|es]|] eqn:Hroot; try constructor.
  apply rglob_node_NoDup. by eapply wf_stat.
Qed.

Lemma fs_rglob_exists t root rel :
  wf t -> root ++ rel ∈ fs_rglob t root -> is_Some (stat t (root ++ rel)).
Proof.
  intros Hwf. unfold fs_rglob.
  destruct (stat t root) as [[d|es]|] eqn:Hroot;
    try (intros H; by apply elem_of_nil in H).
  intros H. rewrite stat_app, Hroot.
  eapply rglob_node_exists; [|done]. by eapply wf_stat.
Qed.

(** The listing of a root depends on the tree below the root only. *)
Lemma fs_rglob_ext t t' root :
  stat t' root = stat t root -> fs_rglob t' root = fs_rglob t root.
Proof. unfold fs_rglob. by intros ->. Qed.

(** ** Reasoning about programs *)

Lemma fs_copyfile_inv t src dst t' :
  fs_copyfile t src dst = inr t' ->
  exists data, stat t src = Some (File data) /\ src <> dst /\
               fs_write data t dst = inr t'.
Proof.
  unfold fs_copyfile. destruct (stat t src) as [[d|es]|]; try done;
    case_decide; try done. eauto.
Qed.

Lemma fs_write_target data t p t' :
  fs_write data t p = inr t' -> stat t' p = Some (File data).
Proof.
  intros H. apply walk_stat_target in H as (v & Hv & ->).
  destruct (stat t p) as [[d|es]|]; simpl in Hv; by simplify_eq.
Qed.

Lemma fs_mkdir_target parents ok t p t' :
  fs_mkdir parents ok t p = inr t' -> exists es, stat t' p = Some (Dir es).
Proof.
  intros H. apply walk_stat_target in H as (v & Hv & ->).
  destruct (stat t p) as [[d|es]|]; simpl in Hv; try destruct ok;
    simplify_eq; eauto.
Qed.

Lemma fs_mkdir_keeps_file parents ok t p t' q d :
  fs_mkdir parents ok t p = inr t' ->
  stat t q = Some (File d) -> stat t' q = Some (File d).
Proof.
  intros H Hq. destruct (decide (q = p)) as [->|Hne].
  - unfold fs_mkdir in H. by erewrite walk_refused in H.
  - eapply walk_other_file; eauto using modest_keeps_dirs, mkdir_leaf_modest.
Qed.

Lemma fs_copyfile_other_file t src dst t' q d :
  fs_copyfile t src dst = inr t' -> q <> dst ->
  stat t q = Some (File d) -> stat t' q = Some (File d).
Proof.
  intros (data & _ & _ & H)%fs_copyfile_inv Hne Hq.
  eapply walk_other_file; eauto using modest_keeps_dirs, write_leaf_modest.
Qed.

Lemma stable_mkdir to J parents ok t x t' :
  stable to J -> fs_mkdir parents ok t (to ++ x) = inr t' -> J t -> J t'.
Proof. intros HJ H. eapply HJ; eauto using mkdir_leaf_modest. Qed.

Lemma stable_copyfile to J t src x t' :
  stable to J -> fs_copyfile t src (to ++ x) = inr t' -> J t -> J t'.
Proof.
  intros HJ (data & _ & _ & H)%fs_copyfile_inv.
  eapply HJ; eauto using write_leaf_modest.
Qed.

(** What lies apart from [to] is stable below [to]. *)
Lemma stable_apart to q o : apart to q -> stable to (fun t => stat t q = o).
Proof.
  intros Hap parents leaf x t t' _ Hw <-.
  eapply walk_frame; [done|]. by apply apart_app_l.
Qed.

Lemma stable_is_file to q : stable to (fun t => exists d, stat t q = Some (File d)).
Proof.
  intros parents leaf x t t' Hl Hw [d Hq].
  destruct (decide (q = to ++ x)) as [->|Hne].
  - apply walk_stat_target in Hw as (v & Hv & ->). rewrite Hq in Hv.
    apply Hl in Hv as [d' ->]. eauto.
  - exists d. eapply walk_other_file; eauto using modest_keeps_dirs.
Qed.

Lemma stable_is_dir to q : stable to (fun t => exists es, stat t q = Some (Dir es)).
Proof.
  intros parents leaf x t t' Hl Hw [es Hq].
  eapply walk_dir_stays; eauto using modest_keeps_dirs.
Qed.

Section overlay_entry_facts.
Variables from to rel : path.
Hypothesis Hrel : rel <> [].

(** The body of the loop at an entry of the walk. *)
Lemma overlay_entry_unfold w :
  overlay_entry from to (from ++ rel) w =
  (f <- is_file (from ++ rel) ;;
   if f then
     present <- path_exists (to ++ rel) ;;
     (if present then print (Warn_overwriting (to ++ rel))
      else mkdir true true (to ++ parent rel)) ;;
     copyfile (from ++ rel) (to ++ rel)
   else mkdir false true (to ++ rel)) w.
Proof.
  unfold overlay_entry. rewrite relative_to_app. by rewrite parent_app.
Qed.

Lemma overlay_entry_stable J w r w' :
  stable to J ->
  overlay_entry from to (from ++ rel) w = (r, w') -> J (fs w) -> J (fs w').
Proof.
  intros HJ H HJw. rewrite overlay_entry_unfold in H; run_cases;
    repeat first
      [ done
      | eapply (stable_copyfile to J); [done|eassumption|]
      | eapply (stable_mkdir to J); [done|eassumption|] ].
Qed.

Lemma overlay_entry_stdout w r w' :
  overlay_entry from to (from ++ rel) w = (r, w') ->
  stdout w' = stdout w ++ entry_notice (fs w) from to rel.
Proof.
  intros H. unfold entry_notice. rewrite overlay_entry_unfold in H; run_cases; by rewrite ?app_nil_r.
Qed.

Lemma overlay_entry_temp_names w r w' :
  overlay_entry from to (from ++ rel) w = (r, w') ->
  temp_names w' = temp_names w.
Proof. intros H. rewrite overlay_entry_unfold in H; run_cases; done. Qed.

(** A source file has its copy after its entry. *)
Lemma overlay_entry_file w w' d :
  apart from to ->
  overlay_entry from to (from ++ rel) w = (Ok tt, w') ->
  stat (fs w) (from ++ rel) = Some (File d) ->
  stat (fs w') (to ++ rel) = Some (File d).
Proof.
  intros Hap H Hsrc. rewrite overlay_entry_unfold in H; run_cases.
  - apply fs_copyfile_inv in H3 as (data & ? & _ & Hw). simplify_eq.
    by eapply fs_write_target.
  - apply fs_copyfile_inv in H3 as (data & Hd & _ & Hw).
    eapply (stable_mkdir to (fun t => stat t (from ++ rel) = Some (File d)))
      in H5; [| |done].
    + simplify_eq. by eapply fs_write_target.
    + apply stable_apart. by apply apart_sym, apart_app_l.
Qed.

(** A source directory has its directory after its entry. *)
Lemma overlay_entry_dir w w' :
  overlay_entry from to (from ++ rel) w = (Ok tt, w') ->
  (forall d, stat (fs w) (from ++ rel) <> Some (File d)) ->
  exists es, stat (fs w') (to ++ rel) = Some (Dir es).
Proof.
  intros H Hsrc. rewrite overlay_entry_unfold in H; run_cases; try (by edestruct Hsrc);
    by eapply fs_mkdir_target.
Qed.

(** A regular file of the destination that this entry does not write keeps
    its content. *)
Lemma overlay_entry_other_file w r w' q d :
  overlay_entry from to (from ++ rel) w = (r, w') ->
  q <> to ++ rel \/ (forall d', stat (fs w) (from ++ rel) <> Some (File d')) ->
  stat (fs w) q = Some (File d) -> stat (fs w') q = Some (File d).
Proof.
  intros H Hq Hd. rewrite overlay_entry_unfold in H; run_cases; try done;
    try (destruct Hq as [Hq|Hq]; [|by edestruct Hq]);
    eauto using fs_mkdir_keeps_file, fs_copyfile_other_file.
Qed.

(** What does not exist and is not on the way to the destination of this
    entry does not come to exist. *)
Lemma overlay_entry_other_none w r w' q :
  overlay_entry from to (from ++ rel) w = (r, w') ->
  ~ q `prefix_of` to ++ rel ->
  stat (fs w) q = None -> stat (fs w') q = None.
Proof.
  intros H Hq Hn.
  assert (~ q `prefix_of` to ++ parent rel) as Hq'.
  { intros Hp. apply Hq. etrans; [done|]. rewrite <- parent_app by done.
    unfold parent. rewrite (app_removelast_last "" (l:=to ++ rel)) at 2.
    - by apply prefix_app_r.
    - by destruct to, rel. }
  rewrite overlay_entry_unfold in H; run_cases; try done.
  all: repeat match goal with
    | H : fs_copyfile _ _ _ = inr _ |- _ =>
        apply fs_copyfile_inv in H as (? & _ & _ & H)
    end.
  all: unfold fs_write, fs_mkdir in *.
  all: eauto 6 using walk_other_none, write_leaf_modest, mkdir_leaf_modest.
Qed.



(** A directory of the source over a regular file of the destination. *)
Lemma overlay_entry_dir_over_file w d :
  (forall d', stat (fs w) (from ++ rel) <> Some (File d')) ->
  stat (fs w) (to ++ rel) = Some (File d) ->
  overlay_entry from to (from ++ rel) w = (Raise FileExistsError, w).
Proof.
  intros Hsrc Hdst. unfold overlay_entry. rewrite relative_to_app.
  prog_unfold. unfold fs_mkdir.
  destruct (stat (fs w) (from ++ rel)) as [[d'|es']|] eqn:Hs;
    [by edestruct Hsrc| |]; by erewrite walk_refused.
Qed.

(** A regular file of the source over a directory of the destination. *)
Lemma overlay_entry_file_over_dir w d es :
  from ++ rel <> to ++ rel ->
  stat (fs w) (from ++ rel) = Some (File d) ->
  stat (fs w) (to ++ rel) = Some (Dir es) ->
  overlay_entry from to (from ++ rel) w =
  (Raise IsADirectoryError,
   {| fs := fs w; stdout := stdout w ++ [Warn_overwriting (to ++ rel)];
      temp_names := temp_names w |}).
Proof.
  intros Hne Hsrc Hdst. unfold overlay_entry. rewrite relative_to_app.
  prog_unfold. rewrite Hsrc, Hdst. rewrite bool_decide_true by eauto.
  simpl. unfold fs_copyfile. rewrite Hsrc. rewrite decide_False by done.
  unfold fs_write. by erewrite walk_refused.
Qed.
End overlay_entry_facts.

(** ** The loop of [overlay] *)

Lemma for_each_cons_Ok {A} (body : A -> M unit) x l w w' :
  for_each (x :: l) body w = (Ok tt, w') ->
  exists w1, body x w = (Ok tt, w1) /\ for_each l body w1 = (Ok tt, w').
Proof.
  simpl. unfold bind. destruct (body x w) as [[[]|e] w1]; [eauto|done].
Qed.

Lemma for_each_cons_inv {A} (body : A -> M unit) x l w r w' :
  for_each (x :: l) body w = (r, w') ->
  (exists e, body x w = (Raise e, w') /\ r = Raise e) \/
  (exists w1, body x w = (Ok tt, w1) /\ for_each l body w1 = (r, w')).
Proof.
  simpl. unfold bind. destruct (body x w) as [[[]|e] w1]; intros; simplify_eq; eauto.
Qed.

Lemma below_cons from x l :
  below from (x :: l) -> (exists rel, rel <> [] /\ x = from ++ rel) /\ below from l.
Proof.
  intros H. split; [apply H; left|]. intros e He. apply H. by right.
Qed.

Lemma below_rglob t from : below from (fs_rglob t from).
Proof. intros e. apply fs_rglob_below. Qed.

Lemma apart_ne from to rel rel' : apart from to -> from ++ rel <> to ++ rel'.
Proof.
  intros [H1 H2] Heq.
  destruct (prefix_weak_total from to (from ++ rel)) as [?|?]; auto.
  - by apply prefix_app_r.
  - rewrite Heq. by apply prefix_app_r.
Qed.

Section overlay_loop.
Variables from to : path.
Hypothesis Hap : apart from to.

Local Abbreviation loop l := (for_each l (overlay_entry from to)).

Lemma stable_source q o : stable to (fun t => stat t (from ++ q) = o).
Proof. apply stable_apart. by apply apart_sym, apart_app_l. Qed.

Lemma loop_stable J l : forall w r w',
  stable to J -> below from l ->
  loop l w = (r, w') -> J (fs w) -> J (fs w').
Proof.
  induction l as [|x l IH]; intros w r w' HJ Hl H HJw.
  - simpl in H. unfold ret in H. by simplify_eq.
  - apply below_cons in Hl as [(rel & Hrel & ->) Hl].
    apply for_each_cons_inv in H as [(e & H & _)|(w1 & H & Hrest)].
    + by eapply overlay_entry_stable.
    + eapply IH; eauto. by eapply overlay_entry_stable.
Qed.

Lemma loop_temp_names l : forall w r w',
  below from l -> loop l w = (r, w') -> temp_names w' = temp_names w.
Proof.
  induction l as [|x l IH]; intros w r w' Hl H.
  - simpl in H. unfold ret in H. by simplify_eq.
  - apply below_cons in Hl as [(rel & Hrel & ->) Hl].
    apply for_each_cons_inv in H as [(e & H & _)|(w1 & H & Hrest)].
    + by eapply overlay_entry_temp_names.
    + erewrite IH by eauto. by eapply overlay_entry_temp_names.
Qed.

(** A copy that is in place stays in place. *)
Lemma loop_keeps_copy rel d l : forall w w',
  below from l -> loop l w = (Ok tt, w') ->
  stat (fs w) (from ++ rel) = Some (File d) ->
  stat (fs w) (to ++ rel) = Some (File d) ->
  stat (fs w') (to ++ rel) = Some (File d).
Proof.
  induction l as [|x l IH]; intros w w' Hl H Hsrc Hdst.
  - simpl in H. unfold ret in H. by simplify_eq.
  - apply below_cons in Hl as [(rel' & Hrel' & ->) Hl].
    apply for_each_cons_Ok in H as (w1 & H & Hrest).
    apply (IH w1); [done|done| |].
    + by eapply (overlay_entry_stable _ _ _ Hrel' _ _ _ _ (stable_source rel _)).
    + destruct (decide (rel' = rel)) as [->|Hne].
      * by eapply overlay_entry_file.
      * eapply overlay_entry_other_file; eauto. left. intros Heq.
        by apply app_inv_head in Heq.
Qed.

(** After the loop every file of the walk has its copy. *)
Lemma loop_copies_file rel d l : forall w w',
  below from l -> loop l w = (Ok tt, w') ->
  from ++ rel ∈ l ->
  stat (fs w) (from ++ rel) = Some (File d) ->
  stat (fs w') (to ++ rel) = Some (File d).
Proof.
  induction l as [|x l IH]; intros w w' Hl H Hin Hsrc.
  - by apply elem_of_nil in Hin.
  - apply below_cons in Hl as [(rel' & Hrel' & ->) Hl].
    apply for_each_cons_Ok in H as (w1 & H & Hrest).
    assert (stat (fs w1) (from ++ rel) = Some (File d)) as Hsrc1.
    { by eapply (overlay_entry_stable _ _ _ Hrel' _ _ _ _ (stable_source rel _)). }
    destruct (decide (rel' = rel)) as [->|Hne].
    + eapply loop_keeps_copy; eauto. by eapply overlay_entry_file.
    + apply elem_of_cons in Hin as [Heq|Hin]; [|by eapply IH].
      by apply app_inv_head in Heq.
Qed.

(** After the loop every directory of the walk has its directory. *)
Lemma loop_makes_dir rel l : forall w w',
  below from l -> loop l w = (Ok tt, w') ->
  from ++ rel ∈ l ->
  (forall d, stat (fs w) (from ++ rel) <> Some (File d)) ->
  exists es, stat (fs w') (to ++ rel) = Some (Dir es).
Proof.
  induction l as [|x l IH]; intros w w' Hl H Hin Hsrc.
  - by apply elem_of_nil in Hin.
  - apply below_cons in Hl as [(rel' & Hrel' & ->) Hl].
    apply for_each_cons_Ok in H as (w1 & H & Hrest).
    assert (stat (fs w1) (from ++ rel) = stat (fs w) (from ++ rel)) as Hsrc1.
    { by eapply (overlay_entry_stable _ _ _ Hrel' _ _ _ _ (stable_source rel _)). }
    destruct (decide (rel' = rel)) as [->|Hne].
    + destruct (overlay_entry_dir _ _ _ Hrel' _ _ H Hsrc) as [es Hes].
      eapply (loop_stable (fun t => exists es, stat t (to ++ rel) = Some (Dir es)) l w1);
        eauto using stable_is_dir.
    + apply elem_of_cons in Hin as [Heq|Hin].
      * by apply app_inv_head in Heq.
      * eapply IH; eauto. intros d. rewrite Hsrc1. apply Hsrc.
Qed.

(** What the loop prints are notices for entries of the walk. *)
Lemma loop_stdout l : forall w r w',
  below from l -> loop l w = (r, w') ->
  exists out, stdout w' = stdout w ++ out /\
    forall m, m ∈ out ->
      exists rel, from ++ rel ∈ l /\ m = Warn_overwriting (to ++ rel).
Proof.
  induction l as [|x l IH]; intros w r w' Hl H.
  - simpl in H. unfold ret in H. simplify_eq. exists [].
    split; [by rewrite app_nil_r|]. intros m Hm. by apply elem_of_nil in Hm.
  - apply below_cons in Hl as [(rel & Hrel & ->) Hl].
    assert (forall m, m ∈ entry_notice (fs w) from to rel ->
              exists rel0, from ++ rel0 ∈ (from ++ rel) :: l /\
                           m = Warn_overwriting (to ++ rel0)) as Hfirst.
    { intros m. unfold entry_notice. repeat case_match;
        rewrite ?elem_of_nil, ?list_elem_of_singleton; try done.
      intros ->. exists rel. split; [left|done]. }
    apply for_each_cons_inv in H as [(e & H & _)|(w1 & H & Hrest)].
    + apply (overlay_entry_stdout _ _ _ Hrel) in H. eauto.
    + apply (overlay_entry_stdout _ _ _ Hrel) in H.
      destruct (IH _ _ _ Hl Hrest) as (out & Hout & Hms).
      exists (entry_notice (fs w) from to rel ++ out).
      split; [by rewrite Hout, H, app_assoc|].
      intros m [Hm|Hm]%elem_of_app; [by apply Hfirst|].
      destruct (Hms _ Hm) as (rel0 & ? & ?). exists rel0. split; [by right|done].
Qed.

End overlay_loop.

(** What exists and is not on the way to the path is not touched. *)
Lemma walk_keeps_existing parents leaf t p t' q x :
  keeps_dirs leaf ->
  walk parents leaf t p = inr t' -> ~ q `prefix_of` p ->
  stat t q = Some x -> stat t' q = Some x.
Proof.
  intros Hl Hw Hqp Hq.
  destruct (path_cases p q) as [Hap|[[r ->]|(r & Hr & ->)]].
  - by rewrite (walk_frame _ _ _ _ _ _ Hw Hap).
  - eapply walk_below_kept; eauto. intros ->. apply Hqp. by rewrite app_nil_r.
  - destruct Hqp. by apply prefix_app_r.
Qed.

Lemma prefix_parent (q p : path) : q `prefix_of` parent p -> q `prefix_of` p.
Proof.
  intros H. destruct (decide (p = [])) as [->|Hp]; [done|].
  etrans; [done|]. unfold parent.
  rewrite (app_removelast_last "" (l:=p)) at 2 by done. by apply prefix_app_r.
Qed.

Section overlay_entry_more.
Variables from to rel : path.
Hypothesis Hrel : rel <> [].

(** What exists in the destination and is not on the way to the
    destination of this entry is not touched. *)
Lemma overlay_entry_keeps_existing w r w' q x :
  overlay_entry from to (from ++ rel) w = (r, w') ->
  ~ q `prefix_of` to ++ rel ->
  stat (fs w) q = Some x -> stat (fs w') q = Some x.
Proof.
  intros H Hq Hx.
  assert (~ q `prefix_of` to ++ parent rel) as Hq'.
  { rewrite <- parent_app by done. intros Hp. by apply Hq, prefix_parent. }
  unfold overlay_entry in H; rewrite relative_to_app in H; prog_unfold.
  rewrite ?parent_app in * by done.
  repeat case_match; simplify_eq; simpl in *; try done.
  all: repeat match goal with
    | H : fs_copyfile _ _ _ = inr _ |- _ =>
        apply fs_copyfile_inv in H as (? & _ & _ & H)
    end.
  all: unfold fs_write, fs_mkdir in *.
  all: eauto 6 using walk_keeps_existing, modest_keeps_dirs,
         write_leaf_modest, mkdir_leaf_modest.
Qed.
End overlay_entry_more.

Section overlay_collisions.
Variables from to : path.
Hypothesis Hap : apart from to.

Local Abbreviation loop l := (for_each l (overlay_entry from to)).

(** A directory of the source over a regular file of the destination: the
    loop raises and the file is as it was. *)
Lemma loop_dir_over_file rel d l : forall w,
  below from l -> from ++ rel ∈ l ->
  (forall d', stat (fs w) (from ++ rel) <> Some (File d')) ->
  stat (fs w) (to ++ rel) = Some (File d) ->
  exists e w', loop l w = (Raise e, w') /\
               stat (fs w') (to ++ rel) = Some (File d).
Proof.
  induction l as [|x l IH]; intros w Hl Hin Hsrc Hdst.
  - by apply elem_of_nil in Hin.
  - apply below_cons in Hl as [(rel' & Hrel' & ->) Hl].
    destruct (decide (rel' = rel)) as [->|Hne].
    + exists FileExistsError, w. split; [|done]. simpl. unfold bind.
      by erewrite overlay_entry_dir_over_file.
    + apply elem_of_cons in Hin as [Heq|Hin]; [by apply app_inv_head in Heq|].
      destruct (overlay_entry from to (from ++ rel') w) as [r1 w1] eqn:H.
      assert (stat (fs w1) (to ++ rel) = Some (File d)) as Hdst1.
      { eapply overlay_entry_other_file; eauto. left. intros Heq.
        by apply app_inv_head in Heq. }
      assert (stat (fs w1) (from ++ rel) = stat (fs w) (from ++ rel)) as Hsrc1.
      { by eapply (overlay_entry_stable _ _ _ Hrel' _ _ _ _
                     (stable_source from to Hap rel _)). }
      destruct r1 as [[]|e].
      * destruct (IH w1) as (e & w' & Hloop & ?); auto.
        { intros d'. rewrite Hsrc1. apply Hsrc. }
        exists e, w'. split; [|done]. simpl. unfold bind. by rewrite H.
      * exists e, w1. split; [|done]. simpl. unfold bind. by rewrite H.
Qed.

(** A regular file of the source over a directory of the destination: the
    loop raises and the directory is as it was. *)
Lemma loop_file_over_dir rel d x l : forall w,
  below from l -> from ++ rel ∈ l ->
  (forall rel', from ++ rel' ∈ l -> rel `prefix_of` rel' -> rel' = rel) ->
  stat (fs w) (from ++ rel) = Some (File d) ->
  stat (fs w) (to ++ rel) = Some x -> is_Dir x = true ->
  exists e w', loop l w = (Raise e, w') /\ stat (fs w') (to ++ rel) = Some x.
Proof.
  induction l as [|y l IH]; intros w Hl Hin Hleaf Hsrc Hdst Hx.
  - by apply elem_of_nil in Hin.
  - apply below_cons in Hl as [(rel' & Hrel' & ->) Hl].
    destruct (decide (rel' = rel)) as [->|Hne].
    + destruct x as [|es]; [done|].
      eexists _, _. split.
      * simpl. unfold bind.
        by erewrite overlay_entry_file_over_dir by eauto using apart_ne.
      * done.
    + apply elem_of_cons in Hin as [Heq|Hin]; [by apply app_inv_head in Heq|].
      destruct (overlay_entry from to (from ++ rel') w) as [r1 w1] eqn:H.
      assert (stat (fs w1) (to ++ rel) = Some x) as Hdst1.
      { eapply overlay_entry_keeps_existing; eauto.
        intros Hp. apply prefix_app_inv in Hp. apply Hne, Hleaf; [left|done]. }
      assert (stat (fs w1) (from ++ rel) = Some (File d)) as Hsrc1.
      { by eapply (overlay_entry_stable _ _ _ Hrel' _ _ _ _
                     (stable_source from to Hap rel _)). }
      destruct r1 as [[]|e].
      * destruct (IH w1) as (e & w' & Hloop & ?); auto.
        { intros r' ?. apply Hleaf. by right. }
        exists e, w'. split; [|done]. simpl. unfold bind. by rewrite H.
      * exists e, w1. split; [|done]. simpl. unfold bind. by rewrite H.
Qed.
End overlay_collisions.

(** ** Counting notices *)

Lemma notices_for_app p out1 out2 :
  notices_for p (out1 ++ out2) = notices_for p out1 + notices_for p out2.
Proof. unfold notices_for. by rewrite filter_app, length_app. Qed.

Lemma notices_for_absent p out :
  Warn_overwriting p ∉ out -> notices_for p out = 0.
Proof.
  unfold notices_for. induction out as [|m out IH]; [done|].
  rewrite not_elem_of_cons. intros [Hne Hout].
  rewrite filter_cons_False by done. auto.
Qed.

Section overlay_notices.
Variables from to : path.
Hypothesis Hap : apart from to.

Local Abbreviation loop l := (for_each l (overlay_entry from to)).

(** No notice for a destination whose entry is not in the walk. *)
Lemma loop_notices_others rel l w r w' out :
  below from l -> loop l w = (r, w') ->
  from ++ rel ∉ l -> stdout w' = stdout w ++ out ->
  notices_for (to ++ rel) out = 0.
Proof.
  intros Hl H Hnotin Hout.
  destruct (loop_stdout from to l w r w' Hl H) as (out' & Hout' & Hms).
  rewrite Hout' in Hout. apply app_inv_head in Hout as <-.
  apply notices_for_absent. intros Hm.
  destruct (Hms _ Hm) as (rel0 & Hin & Heq).
  injection Heq as Heq. apply app_inv_head in Heq as <-. done.
Qed.

(** A file written over nothing: no notice for it. *)
Lemma loop_no_notice rel l : forall w r w' out,
  below from l -> NoDup l ->
  (forall rel', from ++ rel' ∈ l -> rel `prefix_of` rel' -> rel' = rel) ->
  loop l w = (r, w') ->
  stat (fs w) (to ++ rel) = None ->
  stdout w' = stdout w ++ out ->
  notices_for (to ++ rel) out = 0.
Proof.
  induction l as [|x l IH]; intros w r w' out Hl Hnd Hleaf H Hdst Hout.
  - simpl in H. unfold ret in H. simplify_eq.
    rewrite <- (app_nil_r (stdout w')) in Hout at 1.
    by apply app_inv_head in Hout as <-.
  - apply below_cons in Hl as [(rel' & Hrel' & ->) Hl].
    apply NoDup_cons in Hnd as [Hx Hnd].
    assert (notices_for (to ++ rel) (entry_notice (fs w) from to rel') = 0)
      as Hfirst.
    { unfold entry_notice. repeat case_match; try done.
      destruct (decide (rel' = rel)) as [->|Hne].
      - rewrite Hdst in *. by rewrite bool_decide_false in * by (by intros []).
      - apply notices_for_absent. rewrite list_elem_of_singleton.
        intros Heq. injection Heq as Heq. by apply app_inv_head in Heq. }
    apply for_each_cons_inv in H as [(e & H & _)|(w1 & H & Hrest)].
    + apply (overlay_entry_stdout _ _ _ Hrel') in H. rewrite H in Hout.
      by apply app_inv_head in Hout as <-.
    + pose proof (overlay_entry_stdout _ _ _ Hrel' _ _ _ H) as Hout1.
      destruct (loop_stdout from to l w1 r w' Hl Hrest) as (out' & Hout' & _).
      rewrite Hout', Hout1, <- app_assoc in Hout.
      apply app_inv_head in Hout as <-.
      rewrite notices_for_app, Hfirst. simpl.
      destruct (decide (rel' = rel)) as [->|Hne].
      * by eapply loop_notices_others.
      * eapply (IH w1); eauto.
        { intros r' ?. apply Hleaf. by right. }
        eapply overlay_entry_other_none; eauto.
        intros Hp. apply prefix_app_inv in Hp. apply Hne, Hleaf; [left|done].
Qed.

(** A file written over something: one notice for it. *)
Lemma loop_one_notice rel d l : forall w w' out,
  below from l -> NoDup l ->
  (forall rel', from ++ rel' ∈ l -> rel `prefix_of` rel' -> rel' = rel) ->
  loop l w = (Ok tt, w') ->
  from ++ rel ∈ l ->
  stat (fs w) (from ++ rel) = Some (File d) ->
  is_Some (stat (fs w) (to ++ rel)) ->
  stdout w' = stdout w ++ out ->
  notices_for (to ++ rel) out = 1.
Proof.
  induction l as [|x l IH]; intros w w' out Hl Hnd Hleaf H Hin Hsrc Hdst Hout.
  - by apply elem_of_nil in Hin.
  - apply below_cons in Hl as [(rel' & Hrel' & ->) Hl].
    apply NoDup_cons in Hnd as [Hx Hnd].
    apply for_each_cons_Ok in H as (w1 & H & Hrest).
    pose proof (overlay_entry_stdout _ _ _ Hrel' _ _ _ H) as Hout1.
    destruct (loop_stdout from to l w1 _ w' Hl Hrest) as (out' & Hout' & _).
    rewrite Hout', Hout1, <- app_assoc in Hout.
    apply app_inv_head in Hout as <-. rewrite notices_for_app.
    destruct (decide (rel' = rel)) as [->|Hne].
    + rewrite (loop_notices_others rel l w1 _ w' out') by done.
      unfold entry_notice. rewrite Hsrc, bool_decide_true by done.
      unfold notices_for. by rewrite filter_cons_True.
    + apply elem_of_cons in Hin as [Heq|Hin]; [by apply app_inv_head in Heq|].
      rewrite (IH w1 w' out'); eauto.
      * rewrite notices_for_absent; [done|].
        unfold entry_notice. repeat case_match;
          rewrite ?elem_of_nil, ?list_elem_of_singleton; try tauto.
        intros Heq. injection Heq as Heq. by apply app_inv_head in Heq.
      * intros r' ?. apply Hleaf. by right.
      * by eapply (overlay_entry_stable _ _ _ Hrel' _ _ _ _
                     (stable_source from to Hap rel _)).
      * destruct Hdst as [x Hx']. exists x.
        eapply overlay_entry_keeps_existing; eauto.
        intros Hp. apply prefix_app_inv in Hp. apply Hne, Hleaf; [left|done].
Qed.
End overlay_notices.

(** ** The overlay engine *)

Lemma overlay_unfold from to w :
  overlay from to w = for_each (fs_rglob (fs w) from) (overlay_entry from to) w.
Proof. reflexivity. Qed.


Lemma overlay_file_copied from to w w' rel d :
  apart from to -> overlay from to w = (Ok tt, w') -> rel <> [] ->
  stat (fs w) (from ++ rel) = Some (File d) ->
  stat (fs w') (to ++ rel) = Some (File d).
Proof.
  intros Hap H Hrel Hsrc. rewrite overlay_unfold in H.
  eapply loop_copies_file; eauto using below_rglob, fs_rglob_complete.
Qed.

Lemma overlay_keeps_files from to w r w' q d :
  overlay from to w = (r, w') ->
  stat (fs w) q = Some (File d) -> exists d', stat (fs w') q = Some (File d').
Proof.
  intros H Hq. rewrite overlay_unfold in H.
  eapply (loop_stable from to (fun t => exists d', stat t q = Some (File d')));
    eauto using below_rglob, stable_is_file.
Qed.





(** C9: when an entry below the source root collides in type with what the
    destination has at the same relative path, [overlay] raises, and the
    destination entry is as it was. *)
Theorem overlay_type_collision from_root to_root w rel :
  wf (fs w) -> apart from_root to_root -> rel <> [] ->
  type_collision (fs w) from_root to_root rel = true ->
  exists e w',
    overlay from_root to_root w = (Raise e, w') /\
    stat (fs w') (to_root ++ rel) = stat (fs w) (to_root ++ rel).
Proof.
  intros Hwf Hap Hrel Hc. unfold type_collision in Hc. rewrite overlay_unfold.
  destruct (stat (fs w) (from_root ++ rel)) as [[d|es]|] eqn:Hs; [| |done];
    destruct (stat (fs w) (to_root ++ rel)) as [[d'|es']|] eqn:Hd; try done.
  - eapply loop_file_over_dir; eauto using below_rglob, fs_rglob_complete.
    intros rel' Hin [r ->]. apply fs_rglob_exists in Hin as [x Hx]; [|done].
    rewrite app_assoc, stat_app, Hs in Hx.
    destruct r; [by rewrite app_nil_r|done].
  - eapply loop_dir_over_file; eauto using below_rglob, fs_rglob_complete.
    intros d. by rewrite Hs.
Qed.

(** ** Copying a tree *)

Lemma copytree_exists src dst w es :
  stat (fs w) src = Some (Dir es) -> is_Some (stat (fs w) dst) ->
  copytree src dst w = (Raise FileExistsError, w).
Proof.
  intros Hsrc [x Hdst]. prog_unfold. unfold fs_copytree. rewrite Hsrc.
  by erewrite walk_refused.
Qed.

Lemma copytree_Ok_inv src dst w w' :
  copytree src dst w = (Ok tt, w') ->
  exists es,
    stat (fs w) src = Some (Dir es) /\
    walk true (copytree_leaf (Dir es)) (fs w) dst = inr (fs w') /\
    stat (fs w) dst = None /\
    stat (fs w') dst = Some (Dir es) /\
    stdout w' = stdout w /\ temp_names w' = temp_names w.
Proof.
  intros H. prog_unfold. unfold fs_copytree in H.
  destruct (stat (fs w) src) as [[d|es]|] eqn:Hsrc; try done.
  destruct (walk true (copytree_leaf (Dir es)) (fs w) dst) as [|t'] eqn:Hw;
    [done|]. simplify_eq. simpl. exists es.
  destruct (walk_stat_target _ _ _ _ _ Hw) as (v & Hv & Ht').
  destruct (stat (fs w) dst); simpl in Hv; simplify_eq. done.
Qed.

Lemma copytree_frame src dst w r w' q :
  copytree src dst w = (r, w') -> apart dst q ->
  stat (fs w') q = stat (fs w) q.
Proof.
  intros H Hap. prog_unfold. unfold fs_copytree in H.
  repeat case_match; simplify_eq; simpl; try done.
  by eapply walk_frame.
Qed.

Lemma copytree_succeeds src dst w es :
  stat (fs w) src = Some (Dir es) -> stat (fs w) dst = None ->
  (forall q r d, dst = q ++ r -> stat (fs w) q <> Some (File d)) ->
  exists w', copytree src dst w = (Ok tt, w').
Proof.
  intros Hsrc Hdst Hfiles. prog_unfold. unfold fs_copytree. rewrite Hsrc.
  destruct (walk_parents_succeeds (copytree_leaf (Dir es)) (fs w) dst (Dir es))
    as [t' ->]; eauto.
Qed.

(** C5 (as amended): [replace_tree], that is [shutil.copytree], into a
    destination that exists raises [FileExistsError] and changes nothing;
    into a destination that does not exist, lies outside the source tree and
    has no regular file among its ancestors, it returns, and the destination
    is then the same tree as the source. *)
Theorem replace_tree_spec src dst w es :
  stat (fs w) src = Some (Dir es) ->
  (is_Some (stat (fs w) dst) ->
   copytree src dst w = (Raise FileExistsError, w)) /\
  (stat (fs w) dst = None ->
   ~ src `prefix_of` dst ->
   (forall q r d, dst = q ++ r -> stat (fs w) q <> Some (File d)) ->
   exists w', copytree src dst w = (Ok tt, w') /\
              stat (fs w') dst = Some (Dir es) /\
              stat (fs w') src = Some (Dir es)).
Proof.
  intros Hsrc. split.
  - by apply (copytree_exists _ _ _ es).
  - intros Hdst Hout Hfiles.
    destruct (copytree_succeeds src dst w es) as [w' Hw']; try done.
    exists w'. split; [done|].
    destruct (copytree_Ok_inv _ _ _ _ Hw') as (es' & ? & _ & _ & ? & _).
    simplify_eq. split; [done|].
    rewrite <- Hsrc. eapply copytree_frame; [done|]. split; [|done].
    intros [r ->]. rewrite stat_app, Hdst in Hsrc. done.
Qed.

(** ** Last writer wins *)

Lemma overlay_frame from to w r w' q :
  overlay from to w = (r, w') -> apart to q ->
  stat (fs w') q = stat (fs w) q.
Proof.
  intros H Hap. rewrite overlay_unfold in H.
  eapply (loop_stable from to (fun t => stat t q = stat (fs w) q));
    [by apply stable_apart | apply below_rglob | done | done].
Qed.

Lemma overlay_stdout from to w r w' :
  overlay from to w = (r, w') -> exists out, stdout w' = stdout w ++ out.
Proof.
  intros H. rewrite overlay_unfold in H.
  destruct (loop_stdout from to _ _ _ _ (below_rglob _ _) H) as (out & ? & _).
  eauto.
Qed.

(** In a well-formed tree nothing is listed below a regular file. *)
Lemma fs_rglob_file_leaf t root rel d rel' :
  wf t -> stat t (root ++ rel) = Some (File d) ->
  root ++ rel' ∈ fs_rglob t root -> rel `prefix_of` rel' -> rel' = rel.
Proof.
  intros Hwf Hs Hin [r ->]. apply fs_rglob_exists in Hin as [x Hx]; [|done].
  rewrite app_assoc, stat_app, Hs in Hx.
  destruct r; [by rewrite app_nil_r|done].
Qed.

(** C6: in the sequence [replace_tree(A -> ns)], [overlay(B -> ns/sub)],
    [overlay(C -> ns/sub)], where [B] and [C] both have a file [x] and [A]
    has no [sub/x], the content of [ns/sub/x] at the end is that of [C], the
    overlay of [B] prints no notice for [ns/sub/x] (it writes over nothing)
    and the overlay of [C] prints exactly one (it writes over the copy from
    [B]). *)
Theorem last_writer_wins A B C ns sub x cB cC w w1 w2 w3 :
  wf (fs w) ->
  apart B ns -> apart C ns ->
  copytree A ns w = (Ok tt, w1) ->
  overlay B (ns ++ [sub]) w1 = (Ok tt, w2) ->
  overlay C (ns ++ [sub]) w2 = (Ok tt, w3) ->
  stat (fs w) (B ++ [x]) = Some (File cB) ->
  stat (fs w) (C ++ [x]) = Some (File cC) ->
  stat (fs w) (A ++ [sub; x]) = None ->
  stat (fs w3) (ns ++ [sub; x]) = Some (File cC) /\
  exists outB outC,
    stdout w1 = stdout w /\
    stdout w2 = stdout w1 ++ outB /\
    stdout w3 = stdout w2 ++ outC /\
    notices_for (ns ++ [sub; x]) outB = 0 /\
    notices_for (ns ++ [sub; x]) outC = 1.
Proof.
  intros Hwf HB HC H1 H2 H3 HxB HxC HxA.
  assert (apart B (ns ++ [sub])) as HB' by by apply apart_app_r.
  assert (apart C (ns ++ [sub])) as HC' by by apply apart_app_r.
  replace (ns ++ [sub; x]) with ((ns ++ [sub]) ++ [x])
    by (by rewrite <- app_assoc).
  destruct (copytree_Ok_inv _ _ _ _ H1) as (esA & HA & _ & _ & Hns & Hout1 & _).
  (* the sources are as they were, all along *)
  assert (forall q, stat (fs w1) (B ++ q) = stat (fs w) (B ++ q)) as HB1.
  { intros q. eapply copytree_frame; [done|]. by apply apart_app_r, apart_sym. }
  assert (forall q, stat (fs w1) (C ++ q) = stat (fs w) (C ++ q)) as HC1.
  { intros q. eapply copytree_frame; [done|]. by apply apart_app_r, apart_sym. }
  assert (forall q, stat (fs w2) (C ++ q) = stat (fs w) (C ++ q)) as HC2.
  { intros q. rewrite <- HC1. eapply overlay_frame; [done|].
    by apply apart_app_r, apart_sym. }
  (* nothing at ns/sub/x after the copy of A *)
  assert (stat (fs w1) ((ns ++ [sub]) ++ [x]) = None) as Hnone.
  { rewrite <- app_assoc. simpl. rewrite stat_app, Hns.
    by rewrite stat_app, HA in HxA. }
  (* the copy from B is there after the overlay of B *)
  assert (stat (fs w2) ((ns ++ [sub]) ++ [x]) = Some (File cB)) as HcB.
  { apply (overlay_file_copied B (ns ++ [sub]) w1 w2 [x] cB HB' H2); [done|].
    by rewrite HB1. }
  destruct (overlay_stdout _ _ _ _ _ H2) as [outB HoutB].
  destruct (overlay_stdout _ _ _ _ _ H3) as [outC HoutC].
  split.
  - apply (overlay_file_copied C (ns ++ [sub]) w2 w3 [x] cC HC' H3); [done|].
    by rewrite HC2.
  - exists outB, outC. split_and!; try done.
    + rewrite overlay_unfold in H2.
      assert (fs_rglob (fs w1) B = fs_rglob (fs w) B) as Hl.
      { apply fs_rglob_ext. rewrite <- (app_nil_r B). apply HB1. }
      rewrite Hl in H2.
      eapply (loop_no_notice B (ns ++ [sub]) [x] (fs_rglob (fs w) B) w1 _ w2 outB);
        [apply below_rglob | by apply fs_rglob_NoDup | | done | done | done].
      intros rel' Hin Hp. by eapply (fs_rglob_file_leaf (fs w) B [x] cB rel').
    + rewrite overlay_unfold in H3.
      assert (fs_rglob (fs w2) C = fs_rglob (fs w) C) as Hl.
      { apply fs_rglob_ext. rewrite <- (app_nil_r C). apply HC2. }
      rewrite Hl in H3.
      eapply (loop_one_notice C (ns ++ [sub]) HC' [x] cC (fs_rglob (fs w) C)
                w2 w3 outC);
        [apply below_rglob | by apply fs_rglob_NoDup | | done | | | | done].
      * intros rel' Hin Hp. by eapply (fs_rglob_file_leaf (fs w) C [x] cC rel').
      * by eapply fs_rglob_complete.
      * by rewrite HC2.
      * by rewrite HcB.
Qed.

(** ** The composition as a sequence of guarded steps *)

Lemma bind_ret_r (m : M unit) w : (m ;; ret tt) w = m w.
Proof. unfold bind, ret. by destruct (m w) as [[[]|e] w']. Qed.

Lemma bind_cong {A B} (m : M A) (k k' : A -> M B) w :
  (forall a w', k a w' = k' a w') -> bind m k w = bind m k' w.
Proof. intros H. unfold bind. destruct (m w) as [[a|e] w']; [apply H|done]. Qed.

Lemma bind_assoc {A B C} (m : M A) (k : A -> M B) (h : B -> M C) w :
  bind (bind m k) h w = bind m (fun a => bind (k a) h) w.
Proof. unfold bind. by destruct (m w) as [[a|e] w']. Qed.

Lemma build_comprehensive_as_mappings cfg ext merged_source w :
  build_comprehensive_java_docs cfg ext merged_source w =
  (print Msg_building_comprehensive ;;
   mkdir true true (merged_source ++ ["java"; "org"]) ;;
   tensorflow_java_repo <- checkout_tensorflow_java cfg ext ;;
   ndarray_repo <- checkout_ndarray cfg ext ;;
   run_mappings
     (configured_mappings tensorflow_java_repo ndarray_repo merged_source)) w.
Proof.
  unfold build_comprehensive_java_docs.
  apply bind_cong; intros _ w0. apply bind_cong; intros _ w1.
  apply bind_cong; intros tf w2. apply bind_cong; intros nd w3.
  unfold run_mappings, configured_mappings. cbn [for_each].
  unfold apply_mapping. cbn [m_mode m_source m_dest].
  do 6 (rewrite bind_assoc; apply bind_cong; intros ? ?;
        apply bind_cong; intros ? ?).
  rewrite bind_assoc. apply bind_cong; intros ? ?.
  symmetry. apply bind_ret_r.
Qed.

Lemma apply_mapping_absent mp w :
  stat (fs w) (m_source mp) = None -> apply_mapping mp w = (Ok tt, w).
Proof.
  intros H. unfold apply_mapping, bind, path_exists, ret. rewrite H.
  by rewrite bool_decide_false by (by intros []).
Qed.

Lemma apply_mapping_present mp w :
  is_Some (stat (fs w) (m_source mp)) ->
  apply_mapping mp w =
  match m_mode mp with
  | replace_tree => copytree (m_source mp) (m_dest mp) w
  | overlay_merge => overlay (m_source mp) (m_dest mp) w
  end.
Proof.
  intros H. unfold apply_mapping, bind, path_exists.
  rewrite bool_decide_true by done. by destruct (m_mode mp).
Qed.

(** C8: every step of the full composition is guarded by the existence of its
    source: a mapping whose source subtree is absent is skipped, without an
    error and without any effect, and the composition goes on with the
    mappings that follow; a mapping whose source exists is applied in its
    mode. *)
Theorem absent_source_is_skipped cfg ext merged_source
    tensorflow_java_repo ndarray_repo mp :
  mp ∈ configured_mappings tensorflow_java_repo ndarray_repo merged_source ->
  (forall w,
     build_comprehensive_java_docs cfg ext merged_source w =
     (print Msg_building_comprehensive ;;
      mkdir true true (merged_source ++ ["java"; "org"]) ;;
      tf <- checkout_tensorflow_java cfg ext ;;
      nd <- checkout_ndarray cfg ext ;;
      run_mappings (configured_mappings tf nd merged_source)) w) /\
  (forall w rest,
     stat (fs w) (m_source mp) = None ->
     apply_mapping mp w = (Ok tt, w) /\
     run_mappings (mp :: rest) w = run_mappings rest w) /\
  (forall w,
     is_Some (stat (fs w) (m_source mp)) ->
     apply_mapping mp w =
     match m_mode mp with
     | replace_tree => copytree (m_source mp) (m_dest mp) w
     | overlay_merge => overlay (m_source mp) (m_dest mp) w
     end).
Proof.
  intros _. split_and!.
  - apply build_comprehensive_as_mappings.
  - intros w rest Habs. split; [by apply apply_mapping_absent|].
    unfold run_mappings. cbn [for_each]. unfold bind.
    by rewrite apply_mapping_absent.
  - apply apply_mapping_present.
Qed.

(** ** The degraded composition *)

Lemma build_traditional_absent cfg ext merged_source w :
  stat (fs w) (TF_JAVA_SOURCE_PATH cfg) = None ->
  build_traditional_tensorflow_java_docs cfg ext merged_source w =
  (Ok tt, {| fs := fs w; stdout := stdout w ++ [Msg_building_traditional];
             temp_names := temp_names w |}).
Proof.
  intros H. unfold build_traditional_tensorflow_java_docs.
  unfold bind, print, path_exists, ret. simpl. rewrite H.
  by rewrite bool_decide_false by (by intros []).
Qed.


(** ** Invariants of programs *)

Section fs_inv_rules.
Variable J : node -> Prop.

Lemma fs_inv_ret {A} (a : A) : fs_inv J (ret a).
Proof. intros w r w' H. unfold ret in H. by simplify_eq. Qed.

Lemma fs_inv_raise {A} e : fs_inv J (@raise A e).
Proof. intros w r w' H. unfold raise in H. by simplify_eq. Qed.

Lemma fs_inv_bind {A B} (m : M A) (k : A -> M B) :
  fs_inv J m -> (forall a, fs_inv J (k a)) -> fs_inv J (bind m k).
Proof.
  intros Hm Hk w r w' H HJ. unfold bind in H.
  destruct (m w) as [[a|e] w1] eqn:Hmw.
  - eapply Hk; eauto.
  - simplify_eq. eauto.
Qed.

Lemma fs_inv_try_except {A} (body : M A) catches handler :
  fs_inv J body -> (forall e, fs_inv J (handler e)) ->
  fs_inv J (try_except body catches handler).
Proof.
  intros Hb Hh w r w' H HJ. unfold try_except in H.
  destruct (body w) as [[a|e] w1] eqn:Hbw.
  - simplify_eq. eauto.
  - destruct (catches e); [eapply Hh; eauto|]. simplify_eq. eauto.
Qed.

Lemma fs_inv_print m : fs_inv J (print m).
Proof. intros w r w' H. unfold print in H. by simplify_eq. Qed.

Lemma fs_inv_path_exists p : fs_inv J (path_exists p).
Proof. intros w r w' H. unfold path_exists in H. by simplify_eq. Qed.

Lemma fs_inv_if {A} (b : bool) (m1 m2 : M A) :
  fs_inv J m1 -> fs_inv J m2 -> fs_inv J (if b then m1 else m2).
Proof. by destruct b. Qed.

Lemma fs_inv_run x : respects J x -> fs_inv J (run x).
Proof.
  intros Hx w r w' H HJ. unfold run in H.
  specialize (Hx (fs w) HJ). destruct (x (fs w)) as [r1 t]. by simplify_eq.
Qed.

Lemma fs_inv_fs_op f :
  (forall t t', f t = inr t' -> J t -> J t') -> fs_inv J (fs_op f).
Proof.
  intros Hf w r w' H HJ. unfold fs_op in H.
  destruct (f (fs w)) as [e|t] eqn:Hft; simplify_eq; eauto.
Qed.

Lemma fs_inv_for_each {A} (l : list A) body :
  (forall x, fs_inv J (body x)) -> fs_inv J (for_each l body).
Proof.
  intros Hb. induction l as [|x l IH]; simpl.
  - apply fs_inv_ret.
  - apply fs_inv_bind; auto.
Qed.

Lemma fs_inv_clone_or_update_repo cfg ext url p rev :
  ext_respects J ext -> fs_inv J (clone_or_update_repo cfg ext url p rev).
Proof.
  intros (Hc & Hf & Hco & _). unfold clone_or_update_repo.
  repeat first
    [ apply fs_inv_bind; [|intros ?] | apply fs_inv_path_exists
    | apply fs_inv_ret | apply fs_inv_print | apply fs_inv_if
    | apply fs_inv_run; auto ].
Qed.

Lemma fs_inv_checkout_tensorflow_java cfg ext :
  ext_respects J ext -> fs_inv J (checkout_tensorflow_java cfg ext).
Proof.
  intros. unfold checkout_tensorflow_java.
  destruct (tensorflow_java_repo (FLAGS cfg)); [apply fs_inv_ret|].
  apply fs_inv_bind; [by apply fs_inv_clone_or_update_repo|].
  intros ?. apply fs_inv_ret.
Qed.

Lemma fs_inv_checkout_ndarray cfg ext :
  ext_respects J ext -> fs_inv J (checkout_ndarray cfg ext).
Proof.
  intros. unfold checkout_ndarray.
  apply fs_inv_bind; [by apply fs_inv_clone_or_update_repo|].
  intros ?. apply fs_inv_ret.
Qed.
End fs_inv_rules.

Lemma sturdy_stable to J : sturdy J -> stable to J.
Proof. intros H parents leaf x t t' Hl. apply H. by apply modest_keeps_dirs. Qed.

Lemma sturdy_is_dir q : sturdy (fun t => exists es, stat t q = Some (Dir es)).
Proof. intros parents leaf p t t' Hl Hw [es Hq]. by eapply walk_dir_stays. Qed.

Section fs_inv_sturdy.
Variable J : node -> Prop.
Hypothesis HJ : sturdy J.

Lemma fs_inv_mkdir parents ok p : fs_inv J (mkdir parents ok p).
Proof.
  apply fs_inv_fs_op. intros t t'. apply HJ.
  apply modest_keeps_dirs, mkdir_leaf_modest.
Qed.

Lemma fs_inv_copytree src dst : fs_inv J (copytree src dst).
Proof.
  apply fs_inv_fs_op. intros t t'. unfold fs_copytree.
  destruct (stat t src) as [[d|es]|]; try done.
  apply HJ, copytree_leaf_keeps_dirs.
Qed.

Lemma fs_inv_overlay from to : fs_inv J (overlay from to).
Proof.
  intros w r w' H HJw. rewrite overlay_unfold in H.
  eapply (loop_stable from to J); eauto using below_rglob, sturdy_stable.
Qed.

Lemma fs_inv_build_comprehensive cfg ext merged_source :
  ext_respects J ext ->
  fs_inv J (build_comprehensive_java_docs cfg ext merged_source).
Proof.
  intros Hext. unfold build_comprehensive_java_docs.
  repeat first
    [ by apply fs_inv_checkout_tensorflow_java
    | by apply fs_inv_checkout_ndarray
    | apply fs_inv_mkdir | apply fs_inv_copytree | apply fs_inv_overlay
    | apply fs_inv_path_exists | apply fs_inv_ret | apply fs_inv_print
    | apply fs_inv_if
    | apply fs_inv_bind; [|intros ?] ].
Qed.
End fs_inv_sturdy.

(** ** Removing a tree, making a temporary directory *)



Lemma mkdtemp_loop_Ok dir names t p t' rest :
  mkdtemp_loop dir names t = (Ok (p, t'), rest) ->
  (exists n, p = dir ++ [n]) /\ fs_mkdir false false t p = inr t'.
Proof.
  revert rest. induction names as [|n names IH]; intros rest H; [done|].
  simpl in H. destruct (fs_mkdir false false t (dir ++ [n])) as [e|t1] eqn:Hm.
  - destruct e; try done. by apply (IH rest).
  - simplify_eq. eauto.
Qed.

Lemma mkdtemp_Ok cfg w p w' :
  mkdtemp cfg w = (Ok p, w') ->
  (exists n, p = TEMP_DIR cfg ++ [n]) /\
  stat (fs w) p = None /\ stat (fs w') p = Some (Dir []) /\
  stdout w' = stdout w.
Proof.
  unfold mkdtemp. intros H.
  destruct (mkdtemp_loop (TEMP_DIR cfg) (temp_names w) (fs w))
    as [[[p0 t0]|e] rest] eqn:Hl; [|done].
  simplify_eq. simpl. apply mkdtemp_loop_Ok in Hl as [Hn Hm].
  split; [done|]. apply walk_stat_target in Hm as (v & Hv & Hp).
  destruct (stat (fs w) p) as [[d|es]|]; simpl in Hv; try done.
  by simplify_eq.
Qed.

(** ** Where the files of the degraded tree come from *)



Lemma copytree_keeps_file src dst w r w' q d :
  copytree src dst w = (r, w') ->
  stat (fs w) q = Some (File d) -> stat (fs w') q = Some (File d).
Proof.
  intros H Hq. prog_unfold. unfold fs_copytree in H.
  destruct (stat (fs w) src) as [[d'|es]|]; simplify_eq; try done.
  destruct (walk true (copytree_leaf (Dir es)) (fs w) dst) as [e'|t'] eqn:Hw;
    simplify_eq; [done|]. simpl.
  destruct (decide (q = dst)) as [->|Hne].
  - by erewrite walk_refused in Hw.
  - eapply walk_other_file; eauto using copytree_leaf_keeps_dirs.
Qed.




Lemma fs_inv_generate_ops J cfg ext merged_source :
  ext_respects J ext ->
  fs_inv J (copytree
              (REPO_ROOT cfg ++
               ["bazel-bin"; "tensorflow"; "java"; "ops"; "src"; "main"; "java";
                "org"; "tensorflow"; "op"])
              (merged_source ++ ["java"; "org"; "tensorflow"; "ops"])) ->
  fs_inv J (generate_ops cfg ext merged_source).
Proof.
  intros (_ & _ & _ & Hc & Hb) Hcopy. unfold generate_ops.
  repeat first
    [ apply fs_inv_run; auto | apply fs_inv_path_exists | apply fs_inv_ret
    | apply fs_inv_if | done | apply fs_inv_bind; [|intros ?] ].
Qed.

Lemma fs_inv_build_traditional_after_copy J cfg ext merged_source :
  ext_respects J ext ->
  fs_inv J (copytree
              (REPO_ROOT cfg ++
               ["bazel-bin"; "tensorflow"; "java"; "ops"; "src"; "main"; "java";
                "org"; "tensorflow"; "op"])
              (merged_source ++ ["java"; "org"; "tensorflow"; "ops"])) ->
  fs_inv J (if gen_ops (FLAGS cfg) then
              print Msg_generating_ops ;;
              try_except (generate_ops cfg ext merged_source)
                is_CalledProcessError (fun e => print (Warn_ops_failed e))
            else ret tt).
Proof.
  intros Hext Hcopy.
  apply fs_inv_if; [|apply fs_inv_ret].
  apply fs_inv_bind; [apply fs_inv_print|intros _].
  apply fs_inv_try_except; [by apply fs_inv_generate_ops|].
  intros e. apply fs_inv_print.
Qed.

(** ** The augmentation step of the degraded composition *)

Lemma path_snoc (p : path) n rel : p ++ n :: rel = (p ++ [n]) ++ rel.
Proof. by rewrite <- app_assoc. Qed.








(** ** The fallback *)


Lemma compose_or_fall_back_failed cfg ext m1 w e w1 :
  build_comprehensive_java_docs cfg ext m1 w = (Raise e, w1) ->
  compose_or_fall_back cfg ext m1 w =
  (print (Warn_comprehensive_failed e) ;;
   print Msg_falling_back ;;
   rmtree m1 ;;
   m2 <- mkdtemp cfg ;;
   build_traditional_tensorflow_java_docs cfg ext m2 ;;
   ret m2) w1.
Proof.
  intros H. unfold compose_or_fall_back, try_except. unfold bind at 1.
  by rewrite H.
Qed.


(** C10: when the primary source directory does not exist, the degraded
    composition returns without raising; it copies nothing (the file system
    is as it was), it does not start the augmentation (whatever the external
    tools are, they are not run and nothing about them is printed), and it
    prints nothing but its opening line.  In the fallback of [main], where
    the merged tree was just made, the tree that is handed on to the
    documentation generator is that empty directory. *)
Theorem degraded_without_primary_source cfg ext merged_source w :
  stat (fs w) (TF_JAVA_SOURCE_PATH cfg) = None ->
  build_traditional_tensorflow_java_docs cfg ext merged_source w =
  (Ok tt, {| fs := fs w; stdout := stdout w ++ [Msg_building_traditional];
             temp_names := temp_names w |}) /\
  (forall m1 w0 e w1,
     build_comprehensive_java_docs cfg ext m1 w0 = (Raise e, w1) ->
     (print (Warn_comprehensive_failed e) ;; print Msg_falling_back ;;
      rmtree m1 ;; mkdtemp cfg) w1 = (Ok merged_source, w) ->
     compose_or_fall_back cfg ext m1 w0 =
     (Ok merged_source,
      {| fs := fs w; stdout := stdout w ++ [Msg_building_traditional];
         temp_names := temp_names w |}) /\
     stat (fs w) merged_source = Some (Dir [])).
Proof.
  intros H. split; [by apply build_traditional_absent|].
  intros m1 w0 e w1 Hraise Hfresh.
  rewrite (compose_or_fall_back_failed _ _ _ _ _ _ Hraise).
  unfold bind at 1 2 3 in Hfresh. unfold bind at 1 2 3 4.
  destruct (print (Warn_comprehensive_failed e) w1) as [[[]|e1] wa]; [|done].
  destruct (print Msg_falling_back wa) as [[[]|e2] wb]; [|done].
  destruct (rmtree m1 wb) as [[[]|e3] wc]; [|done].
  rewrite Hfresh. unfold bind, ret.
  rewrite build_traditional_absent by done. split; [done|].
  by apply mkdtemp_Ok in Hfresh as (_ & _ & ? & _).
Qed.

(** ** When the overlay returns *)

Lemma topdown_mono root seen seen' l :
  (forall p, p ∈ seen -> p ∈ seen') -> topdown root seen l -> topdown root seen' l.
Proof.
  revert seen seen'. induction l as [|e l IH]; intros seen seen' Hsub; [done|].
  simpl. intros [Hp Hl]. split; [destruct Hp; auto|].
  eapply IH; [|done]. intros p [->|?]%elem_of_cons; [left|right; auto].
Qed.

Lemma topdown_app root seen l1 l2 :
  topdown root seen l1 -> topdown root (l1 ++ seen) l2 ->
  topdown root seen (l1 ++ l2).
Proof.
  revert seen. induction l1 as [|e l1 IH]; intros seen H1 H2; [done|].
  simpl in *. destruct H1 as [Hp H1]. split; [done|].
  apply IH; [done|]. eapply topdown_mono; [|done].
  intros p. rewrite !elem_of_app, !elem_of_cons, elem_of_app. tauto.
Qed.

(** A listing below a root that was listed is top-down from the root above. *)
Lemma topdown_sub root n seen0 seen l :
  root ++ [n] ∈ seen -> (forall p, p ∈ seen0 -> p ∈ seen) ->
  topdown (root ++ [n]) seen0 l -> topdown root seen l.
Proof.
  revert seen0 seen. induction l as [|e l IH]; intros seen0 seen Hn Hsub; [done|].
  simpl. intros [Hp Hl]. split.
  - right. destruct Hp as [->|?]; auto.
  - eapply IH; [by right| |done].
    intros p [->|?]%elem_of_cons; [left|right; auto].
Qed.

Lemma parent_snoc (p : path) n : parent (p ++ [n]) = p.
Proof. unfold parent. by rewrite removelast_last. Qed.

Lemma rglob_node_topdown t : forall root, topdown root [] (rglob_node root t).
Proof.
  induction t as [d|es IH] using node_ind_entries; intros root; [done|].
  simpl. apply topdown_app.
  - generalize (@nil path). clear IH.
    induction es as [|[n c] es IHes]; intros seen; [done|].
    simpl. split; [left; apply parent_snoc|]. apply IHes.
  - rewrite app_nil_r.
    assert (forall seen,
      (forall e, e ∈ es -> root ++ [e.1] ∈ seen) ->
      topdown root seen
        (flat_map (fun e => match e with (n, c) => rglob_node (root ++ [n]) c end) es))
      as Hgen.
    { induction es as [|[n c] es IHes]; intros seen Hseen; [done|].
      simpl. apply Forall_cons in IH as [IHc IH].
      apply topdown_app.
      - eapply (topdown_sub root n []); [|by intros ? ?%elem_of_nil|apply IHc].
        apply (Hseen (n, c)). left.
      - apply IHes; [done|]. intros e He. apply elem_of_app. right.
        apply Hseen. by right. }
    apply Hgen. intros e He. apply list_elem_of_fmap. by exists e.
Qed.

Lemma fs_rglob_topdown t root : topdown root [] (fs_rglob t root).
Proof.
  unfold fs_rglob. destruct (stat t root) as [[d|es]|]; try done.
  apply rglob_node_topdown.
Qed.

Lemma walk_existing_ok parents leaf t p x v :
  stat t p = Some x -> leaf (Some x) = inr v ->
  exists t', walk parents leaf t p = inr t'.
Proof.
  revert t. induction p as [|n p IH]; intros t Hs Hl; simpl in *.
  - simplify_eq. eauto.
  - destruct t as [|es]; [done|]. destruct (assoc n es) as [c|] eqn:Hn; [|done].
    destruct (IH c) as [c' ->]; eauto.
Qed.

Lemma walk_create_ok parents leaf t p n es v :
  stat t p = Some (Dir es) -> stat t (p ++ [n]) = None -> leaf None = inr v ->
  exists t', walk parents leaf t (p ++ [n]) = inr t'.
Proof.
  revert t. induction p as [|m p IH]; intros t Hp Hn Hl; simpl in *.
  - simplify_eq. destruct (assoc n es) eqn:Ha; [done|].
    rewrite orb_true_r, Hl. eauto.
  - destruct t as [|es0]; [done|]. destruct (assoc m es0) as [c|] eqn:Hm; [|done].
    destruct (IH c) as [c' ->]; eauto.
Qed.

(** A modest action at a path whose parent exists changes the kind of
    nothing but the path. *)
Lemma walk_kinds parents leaf t p n t' q :
  modest leaf -> walk parents leaf t (p ++ [n]) = inr t' ->
  is_Some (stat t p) -> q <> p ++ [n] ->
  kind (stat t' q) = kind (stat t q).
Proof.
  intros Hl Hw [x Hp] Hne.
  destruct (path_cases (p ++ [n]) q) as [Hap|[[r ->]|(r & Hr & Heq)]].
  - by rewrite (walk_frame _ _ _ _ _ _ Hw Hap).
  - assert (r <> []) as Hr by (intros ->; by rewrite app_nil_r in Hne).
    destruct (walk_stat_target _ _ _ _ _ Hw) as (v & Hv & Ht').
    rewrite (stat_app t' (p ++ [n]) r), (stat_app t (p ++ [n]) r), Ht'.
    apply Hl in Hv. destruct (stat t (p ++ [n])) as [[d|es]|].
    + destruct Hv as [d' ->]. by rewrite !stat_File_below.
    + by subst.
    + by rewrite Hv.
  - assert (q `prefix_of` p) as [k ->].
    { destruct r as [|r0 r] using rev_ind; [done|].
      rewrite app_assoc in Heq. apply app_inj_tail in Heq as [-> _].
      by apply prefix_app_r. }
    pose proof Hw as Hw'. rewrite Heq in Hw'.
    destruct (walk_above _ _ _ _ _ _ Hw' Hr) as [es' ->].
    destruct (decide (k = [])) as [->|Hk].
    + rewrite app_nil_r in *. rewrite Hp. destruct x as [d|es]; [|done].
      by rewrite (walk_through_file _ _ _ _ [n] d Hp) in Hw.
    + destruct (stat_above_is_Dir _ _ _ _ Hp Hk) as [es ->]. done.
Qed.

Lemma type_collision_kind t from to rel :
  type_collision t from to rel =
  match kind (stat t (from ++ rel)), kind (stat t (to ++ rel)) with
  | Some true, Some false | Some false, Some true => true
  | _, _ => false
  end.
Proof.
  unfold type_collision.
  by destruct (stat t (from ++ rel)) as [[?|?]|],
              (stat t (to ++ rel)) as [[?|?]|].
Qed.

Section overlay_succeeds.
Variables from to : path.
Hypothesis Hap : apart from to.

(** An entry that exists in the source, whose parent directory exists in the
    destination and which does not collide in type, is copied. *)
Lemma overlay_entry_succeeds rel w :
  rel <> [] ->
  is_Some (stat (fs w) (from ++ rel)) ->
  kind (stat (fs w) (to ++ parent rel)) = Some true ->
  type_collision (fs w) from to rel = false ->
  exists w',
    overlay_entry from to (from ++ rel) w = (Ok tt, w') /\
    (forall q, q <> to ++ rel -> kind (stat (fs w') q) = kind (stat (fs w) q)) /\
    kind (stat (fs w') (to ++ rel)) = kind (stat (fs w) (from ++ rel)).
Proof.
  intros Hrel [x Hsrc] Hpar Hcol.
  assert (to ++ rel = (to ++ parent rel) ++ [List.last rel ""]) as Hsplit.
  { rewrite <- app_assoc. f_equal. unfold parent. by apply app_removelast_last. }
  destruct (stat (fs w) (to ++ parent rel)) as [[?|esp]|] eqn:Hp; try done.
  unfold type_collision in Hcol. rewrite Hsrc in Hcol.
  unfold overlay_entry. rewrite relative_to_app. prog_unfold. rewrite Hsrc.
  destruct x as [d|es].
  - (* a regular file *)
    destruct (stat (fs w) (to ++ rel)) as [[d'|es']|] eqn:Hdst; [|done|].
    + rewrite bool_decide_true by eauto. simpl.
      unfold fs_copyfile. rewrite Hsrc.
      rewrite decide_False by by apply apart_ne.
      destruct (walk_existing_ok false (write_leaf d) (fs w) (to ++ rel)
                  (File d') (File d)) as [t' Ht']; [done|done|].
      unfold fs_write. rewrite Ht'. eexists. split; [done|]. simpl. split.
      * intros q Hq. rewrite Hsplit in Ht', Hq.
        eapply walk_kinds; eauto using write_leaf_modest.
      * by rewrite (fs_write_target _ _ _ _ Ht').
    + rewrite bool_decide_false by (by intros []). simpl.
      rewrite parent_app by done. unfold fs_mkdir.
      erewrite walk_same by done. simpl.
      unfold fs_copyfile. rewrite Hsrc.
      rewrite decide_False by by apply apart_ne.
      destruct (walk_create_ok false (write_leaf d) (fs w) (to ++ parent rel)
                  (List.last rel "") esp (File d)) as [t' Ht'];
        [done|by rewrite <- Hsplit|done|].
      unfold fs_write. rewrite Hsplit, Ht'. eexists. split; [done|]. simpl.
      split.
      * intros q Hq. eapply walk_kinds; eauto using write_leaf_modest.
      * by rewrite (fs_write_target _ _ _ _ Ht').
  - (* a directory *)
    unfold fs_mkdir.
    destruct (stat (fs w) (to ++ rel)) as [[d'|es']|] eqn:Hdst; [done| |].
    + erewrite walk_same by done. exists w. destruct w. simpl in *.
      split; [done|]. split; [done|]. by rewrite Hdst.
    + destruct (walk_create_ok false (mkdir_leaf true) (fs w) (to ++ parent rel)
                  (List.last rel "") esp (Dir [])) as [t' Ht'];
        [done|by rewrite <- Hsplit|done|].
      rewrite Hsplit, Ht'. eexists. split; [done|]. simpl. split.
      * intros q Hq. eapply walk_kinds; eauto using mkdir_leaf_modest.
      * destruct (fs_mkdir_target _ _ _ _ _ Ht') as [es2 ->]. done.
Qed.

Lemma loop_succeeds l : forall seen w,
  below from l -> topdown from seen l -> walk_ready from to seen l (fs w) ->
  exists w', for_each l (overlay_entry from to) w = (Ok tt, w').
Proof.
  induction l as [|e l IH]; intros seen w Hl Htd (Hcol & Hto & Hseen & Hex).
  - simpl. unfold ret. eauto.
  - apply below_cons in Hl as [(rel & Hrel & ->) Hl].
    destruct Htd as [Hpar Htd].
    assert (is_Some (stat (fs w) (from ++ rel))) as Hsrc by (apply Hex; left).
    assert (kind (stat (fs w) (to ++ parent rel)) = Some true) as Hp.
    { rewrite parent_app in Hpar by done.
      destruct (decide (parent rel = [])) as [Hnil|Hnil].
      - by rewrite Hnil, app_nil_r.
      - destruct Hpar as [Hpar|Hpar].
        + rewrite <- (app_nil_r from) in Hpar at 2.
          by apply app_inv_head in Hpar.
        + apply Hseen; [done|]. destruct Hsrc as [x Hx].
          rewrite (app_removelast_last "" (l:=rel)) in Hx by done.
          rewrite app_assoc in Hx.
          apply stat_above_is_Dir in Hx as [es Hes]; [|done].
          unfold parent. by rewrite Hes. }
    destruct (overlay_entry_succeeds rel w Hrel Hsrc Hp (Hcol rel))
      as (w1 & Hstep & Hothers & Hnew).
    destruct (IH ((from ++ rel) :: seen) w1 Hl Htd) as [w' Hw'].
    { assert (forall q, kind (stat (fs w1) (from ++ q)) = kind (stat (fs w) (from ++ q)))
        as Hsrc1.
      { intros q. apply Hothers. by apply apart_ne. }
      assert (forall q, q <> rel ->
                kind (stat (fs w1) (to ++ q)) = kind (stat (fs w) (to ++ q)))
        as Hdst1.
      { intros q Hq. apply Hothers. intros Heq. by apply app_inv_head in Heq. }
      split_and!.
      - intros rel'. rewrite type_collision_kind, Hsrc1.
        destruct (decide (rel' = rel)) as [->|Hne].
        + rewrite Hnew. destruct (kind (stat (fs w) (from ++ rel))) as [[|]|]; reflexivity.
        + rewrite Hdst1 by done. rewrite <- type_collision_kind. apply Hcol.
      - rewrite <- (app_nil_r to). rewrite Hdst1 by done. by rewrite app_nil_r.
      - intros rel' Hin. rewrite Hsrc1.
        destruct (decide (rel' = rel)) as [->|Hne]; [by rewrite Hnew|].
        rewrite Hdst1 by done.
        apply elem_of_cons in Hin as [Heq|Hin]; [by apply app_inv_head in Heq|].
        by apply Hseen.
      - intros e He. destruct (Hl e He) as (rel' & _ & ->).
        assert (is_Some (stat (fs w) (from ++ rel'))) as [y Hy]
          by (apply Hex; by right).
        specialize (Hsrc1 rel'). rewrite Hy in Hsrc1.
        destruct (stat (fs w1) (from ++ rel')); [eauto|by destruct y]. }
    exists w'. simpl. unfold bind. by rewrite Hstep.
Qed.
End overlay_succeeds.

Lemma overlay_succeeds from to w es :
  wf (fs w) -> apart from to ->
  stat (fs w) to = Some (Dir es) ->
  (forall rel, type_collision (fs w) from to rel = false) ->
  exists w', overlay from to w = (Ok tt, w').
Proof.
  intros Hwf Hap Hto Hcol. rewrite overlay_unfold.
  eapply (loop_succeeds from to Hap _ []);
    [apply below_rglob | apply fs_rglob_topdown |].
  split_and!; [done|by rewrite Hto|by intros ? ?%elem_of_nil|].
  intros e He. destruct (fs_rglob_below _ _ _ He) as (rel & _ & ->).
  by apply fs_rglob_exists.
Qed.

(** ** The layered contributions *)

Lemma stable_exists to q : stable to (fun t => is_Some (stat t q)).
Proof.
  intros parents leaf x t t' Hl Hw [[d|es] Hq].
  - destruct (stable_is_file to q parents leaf x t t' Hl Hw) as [d' ->]; eauto.
  - destruct (stable_is_dir to q parents leaf x t t' Hl Hw) as [es' ->]; eauto.
Qed.

Lemma loop_notice_printed from to rel d l : forall w w',
  apart from to -> below from l ->
  for_each l (overlay_entry from to) w = (Ok tt, w') ->
  from ++ rel ∈ l ->
  stat (fs w) (from ++ rel) = Some (File d) ->
  is_Some (stat (fs w) (to ++ rel)) ->
  Warn_overwriting (to ++ rel) ∈ stdout w'.
Proof.
  induction l as [|x l IH]; intros w w' Hap Hl H Hin Hsrc Hdst.
  - by apply elem_of_nil in Hin.
  - apply below_cons in Hl as [(rel' & Hrel' & ->) Hl].
    apply for_each_cons_Ok in H as (w1 & H & Hrest).
    destruct (decide (rel' = rel)) as [->|Hne].
    + apply (overlay_entry_stdout _ _ _ Hrel') in H.
      destruct (loop_stdout from to l w1 _ w' Hl Hrest) as (out & -> & _).
      rewrite H. unfold entry_notice. rewrite Hsrc, bool_decide_true by done.
      apply elem_of_app. left. apply elem_of_app. right. left.
    + apply elem_of_cons in Hin as [Heq|Hin]; [by apply app_inv_head in Heq|].
      apply (IH w1); try done.
      * by eapply (overlay_entry_stable _ _ _ Hrel' _ _ _ _
                     (stable_source from to Hap rel _)).
      * by eapply (overlay_entry_stable _ _ _ Hrel'
                     (fun t => is_Some (stat t (to ++ rel))) _ _ _
                     (stable_exists to _)).
Qed.

Lemma overlay_notice_printed from to w w' rel d :
  apart from to -> overlay from to w = (Ok tt, w') -> rel <> [] ->
  stat (fs w) (from ++ rel) = Some (File d) ->
  is_Some (stat (fs w) (to ++ rel)) ->
  Warn_overwriting (to ++ rel) ∈ stdout w'.
Proof.
  intros Hap H Hrel Hsrc Hdst. rewrite overlay_unfold in H.
  eapply loop_notice_printed; eauto using below_rglob, fs_rglob_complete.
Qed.

(** C1 (as amended): of the layered contributions only the machine-generated
    code is applied with overlay semantics: its step returns when the
    destination subtree exists and nothing collides in type, and then every
    source file is at its destination, with a notice for each destination
    file that existed.  The protocol definitions, exception types, C-API
    bindings, framework extensions and array-library sources are applied
    with [replace_tree]: their step raises [FileExistsError], and changes
    nothing, when the destination subtree exists. *)
Theorem layered_contributions tensorflow_java_repo ndarray_repo merged_source :
  map m_mode (configured_mappings tensorflow_java_repo ndarray_repo merged_source) =
    [replace_tree; overlay_merge; replace_tree; replace_tree; replace_tree;
     replace_tree; replace_tree] /\
  forall mp,
    mp ∈ configured_mappings tensorflow_java_repo ndarray_repo merged_source ->
    match m_mode mp with
    | overlay_merge =>
        forall w,
          wf (fs w) -> apart (m_source mp) (m_dest mp) ->
          (forall es,
             stat (fs w) (m_dest mp) = Some (Dir es) ->
             (forall rel,
                type_collision (fs w) (m_source mp) (m_dest mp) rel = false) ->
             exists w', apply_mapping mp w = (Ok tt, w')) /\
          (forall w' rel d,
             apply_mapping mp w = (Ok tt, w') -> rel <> [] ->
             stat (fs w) (m_source mp ++ rel) = Some (File d) ->
             stat (fs w') (m_dest mp ++ rel) = Some (File d) /\
             (is_Some (stat (fs w) (m_dest mp ++ rel)) ->
              Warn_overwriting (m_dest mp ++ rel) ∈ stdout w'))
    | replace_tree =>
        forall w es,
          stat (fs w) (m_source mp) = Some (Dir es) ->
          is_Some (stat (fs w) (m_dest mp)) ->
          apply_mapping mp w = (Raise FileExistsError, w)
    end.
Proof.
  split; [reflexivity|]. intros mp _.
  destruct (m_mode mp) eqn:Hmode.
  - intros w es Hsrc Hdst.
    rewrite apply_mapping_present, Hmode by eauto.
    by eapply copytree_exists.
  - intros w Hwf Hap. split.
    + intros es Hdst Hcol.
      destruct (stat (fs w) (m_source mp)) as [x|] eqn:Hsrc.
      * rewrite apply_mapping_present, Hmode by eauto.
        by eapply overlay_succeeds.
      * rewrite apply_mapping_absent by done. eauto.
    + intros w' rel d Hrun Hrel Hfile.
      assert (is_Some (stat (fs w) (m_source mp))) as Hsrc.
      { rewrite stat_app in Hfile.
        destruct (stat (fs w) (m_source mp)); [eauto|done]. }
      rewrite apply_mapping_present, Hmode in Hrun by done.
      split; [by eapply overlay_file_copied|].
      intros Hdst. by eapply overlay_notice_printed.
Qed.

(** ** What the overlay leaves alone *)

(** X1: whether [overlay] returns or raises, what lies apart from the
    destination root is as it was, whatever existed still exists and is of the
    kind it was (no directory or regular file is removed, none replaced by
    the other kind), the supply of temporary names is untouched, and what was
    printed are overwrite notices for paths below the destination root. *)
Theorem overlay_stays_in_destination from_root to_root w r w' :
  overlay from_root to_root w = (r, w') ->
  (forall q, apart to_root q -> stat (fs w') q = stat (fs w) q) /\
  (forall q k, kind (stat (fs w) q) = Some k -> kind (stat (fs w') q) = Some k) /\
  temp_names w' = temp_names w /\
  exists out, stdout w' = stdout w ++ out /\
    forall m, m ∈ out -> exists rel, m = Warn_overwriting (to_root ++ rel).
Proof.
  intros H. split_and!.
  - intros q Hq. by eapply overlay_frame.
  - intros q k Hq. destruct (stat (fs w) q) as [[d|es]|] eqn:Hs; simplify_eq/=.
    + destruct (overlay_keeps_files _ _ _ _ _ _ _ H Hs) as [d' ->]. done.
    + rewrite overlay_unfold in H.
      destruct (loop_stable from_root to_root
                  (fun t => exists es, stat t q = Some (Dir es)) _ _ _ _
                  (stable_is_dir _ _) (below_rglob _ _) H) as [es' ->]; eauto.
  - rewrite overlay_unfold in H.
    by eapply (loop_temp_names from_root to_root); [apply below_rglob|].
  - rewrite overlay_unfold in H.
    destruct (loop_stdout from_root to_root _ _ _ _ (below_rglob _ _) H)
      as (out & Hout & Hms).
    exists out. split; [done|]. intros m Hm.
    destruct (Hms m Hm) as (rel & _ & ->). eauto.
Qed.

(** ** The overlay and the destination root *)

Lemma walk_missing_parent leaf t p n :
  stat t p = None ->
  (forall q d, q `prefix_of` p -> stat t q <> Some (File d)) ->
  walk false leaf t (p ++ [n]) = inl FileNotFoundError.
Proof.
  revert t. induction p as [|m p IH]; intros t Hp Hf; [done|].
  simpl in *. destruct t as [d|es].
  { by destruct (Hf [] d); [apply prefix_nil|]. }
  destruct (assoc m es) as [c|] eqn:Hm.
  - rewrite IH; [done|done|]. intros q d Hq Hs.
    apply (Hf (m :: q) d); [by apply prefix_cons|]. simpl. by rewrite Hm.
  - rewrite bool_decide_false; [done|]. by destruct p.
Qed.

Lemma fs_rglob_cons t root n c es :
  stat t root = Some (Dir ((n, c) :: es)) ->
  exists l, fs_rglob t root = (root ++ [n]) :: l.
Proof. intros H. unfold fs_rglob. rewrite H. simpl. eauto. Qed.

Lemma stat_first_entry t root n c es :
  stat t root = Some (Dir ((n, c) :: es)) -> stat t (root ++ [n]) = Some c.
Proof. intros H. rewrite stat_app, H. simpl. by rewrite decide_True. Qed.

Lemma overlay_and_the_destination_root from_root to_root w :
  ((forall e es, stat (fs w) from_root <> Some (Dir (e :: es))) ->
   overlay from_root to_root w = (Ok tt, w)) /\
  (forall n es rest,
     stat (fs w) from_root = Some (Dir ((n, Dir es) :: rest)) ->
     stat (fs w) to_root = None ->
     (forall q d, q `prefix_of` to_root -> stat (fs w) q <> Some (File d)) ->
     overlay from_root to_root w = (Raise FileNotFoundError, w)) /\
  (forall e es w',
     stat (fs w) from_root = Some (Dir (e :: es)) ->
     overlay from_root to_root w = (Ok tt, w') ->
     kind (stat (fs w') to_root) = Some true).
Proof.
  split_and!.
  - intros Hsrc. rewrite overlay_unfold. unfold fs_rglob.
    destruct (stat (fs w) from_root) as [[d|[|e es]]|] eqn:Hs; try done.
    by destruct (Hsrc e es).
  - intros n es rest Hsrc Hto Hfiles. rewrite overlay_unfold.
    destruct (fs_rglob_cons _ _ _ _ _ Hsrc) as [l ->].
    apply stat_first_entry in Hsrc.
    cbn [for_each]. unfold bind at 1.
    rewrite (overlay_entry_unfold from_root to_root [n]) by done.
    unfold bind, is_file. rewrite Hsrc. unfold mkdir, fs_op, fs_mkdir.
    by rewrite walk_missing_parent.
  - intros [n c] es w' Hsrc H. rewrite overlay_unfold in H.
    destruct (fs_rglob_cons _ _ _ _ _ Hsrc) as [l Hl]. rewrite Hl in H.
    assert (below from_root l) as Hbelow.
    { intros x Hx. apply (below_rglob (fs w) from_root). rewrite Hl. by right. }
    apply for_each_cons_Ok in H as (w1 & H1 & Hrest).
    assert (exists x, stat (fs w1) (to_root ++ [n]) = Some x) as [x Hx].
    { rewrite (overlay_entry_unfold from_root to_root [n]) in H1 by done.
      run_cases;
        repeat match goal with
        | H : fs_copyfile _ _ _ = inr _ |- _ =>
            apply fs_copyfile_inv in H as (? & _ & _ & H);
            apply fs_write_target in H
        | H : fs_mkdir false true _ _ = inr _ |- _ =>
            apply fs_mkdir_target in H as [? H]
        end; eauto. }
    destruct (stat_above_is_Dir _ _ _ _ Hx) as [es' Hes']; [done|].
    destruct (loop_stable from_root to_root
                (fun t => exists es, stat t to_root = Some (Dir es)) _ _ _ _
                (stable_is_dir _ _) Hbelow Hrest) as [es'' ->]; eauto.
Qed.

(** X2: with a source root that is missing, a regular file or an empty
    directory, [overlay] does nothing at all: it returns, and the destination
    root is not even made.  With a source root that has an entry, the
    destination root is a directory once [overlay] has returned. *)
Theorem overlay_nothing_to_copy from_root to_root w :
  ((forall e es, stat (fs w) from_root <> Some (Dir (e :: es))) ->
   overlay from_root to_root w = (Ok tt, w)) /\
  (forall e es w',
     stat (fs w) from_root = Some (Dir (e :: es)) ->
     overlay from_root to_root w = (Ok tt, w') ->
     kind (stat (fs w') to_root) = Some true).
Proof.
  destruct (overlay_and_the_destination_root from_root to_root w) as (H1 & _ & H3).
  by split.
Qed.

(** X3: [overlay] makes the destination root only on its way to a regular
    file.  When the destination root is missing and the listing of the source
    root starts with a directory, [to_path.mkdir(exist_ok=True)] has no
    parent to work in: [overlay] raises [FileNotFoundError] and changes
    nothing. *)
Theorem overlay_directory_first from_root to_root w n es rest :
  stat (fs w) from_root = Some (Dir ((n, Dir es) :: rest)) ->
  stat (fs w) to_root = None ->
  (forall q d, q `prefix_of` to_root -> stat (fs w) q <> Some (File d)) ->
  overlay from_root to_root w = (Raise FileNotFoundError, w).
Proof.
  destruct (overlay_and_the_destination_root from_root to_root w) as (_ & H2 & _).
  apply H2.
Qed.

Lemma no_file_above t p es q d :
  stat t p = Some (Dir es) -> q `prefix_of` p -> stat t q <> Some (File d).
Proof.
  intros Hp [r ->] Hq. rewrite stat_app, Hq in Hp.
  destruct r; [done|]. by rewrite stat_File_below in Hp.
Qed.

Lemma no_file_above_missing t p es m q d :
  stat t p = Some (Dir es) -> stat t (p ++ [m]) = None ->
  q `prefix_of` p ++ [m] -> stat t q <> Some (File d).
Proof.
  intros Hp Hm [r Hq]. destruct r as [|x r _] using rev_ind.
  - rewrite app_nil_r in Hq. subst q. by rewrite Hm.
  - rewrite app_assoc in Hq. apply app_inj_tail in Hq as [-> _].
    eapply no_file_above; [done|]. by apply prefix_app_r.
Qed.

(** X4: in the full composition, with no hand-written core API in the
    checkout (the first step is skipped) and generated sources whose listing
    starts with a package directory, the overlay of the generated sources
    finds no [java/org/tensorflow] in the merged tree, and the composition
    raises [FileNotFoundError] after the checkouts, with nothing copied. *)
Theorem generated_sources_without_core_api cfg ext merged_source w
    tensorflow_java_repo ndarray_repo w2 n es rest os :
  (print Msg_building_comprehensive ;;
   mkdir true true (merged_source ++ ["java"; "org"]) ;;
   t <- checkout_tensorflow_java cfg ext ;;
   d <- checkout_ndarray cfg ext ;;
   ret (t, d)) w = (Ok (tensorflow_java_repo, ndarray_repo), w2) ->
  stat (fs w2)
    (tensorflow_java_repo ++
     ["tensorflow-core"; "tensorflow-core-api"; "src"; "main"; "java"; "org"; "tensorflow"])
    = None ->
  stat (fs w2)
    (tensorflow_java_repo ++
     ["tensorflow-core"; "tensorflow-core-api"; "src"; "gen"; "java"; "org"; "tensorflow"])
    = Some (Dir ((n, Dir es) :: rest)) ->
  stat (fs w2) (merged_source ++ ["java"; "org"]) = Some (Dir os) ->
  assoc "tensorflow" os = None ->
  build_comprehensive_java_docs cfg ext merged_source w = (Raise FileNotFoundError, w2).
Proof.
  intros Hrun Hcore Hgen Horg Htf.
  rewrite build_comprehensive_as_mappings.
  unfold bind at 1 2 3 4 in Hrun. unfold bind at 1 2 3 4.
  destruct (print Msg_building_comprehensive w) as [[[]|?] wa]; [|done].
  destruct (mkdir true true (merged_source ++ ["java"; "org"]) wa) as [[[]|?] wb];
    [|done].
  destruct (checkout_tensorflow_java cfg ext wb) as [[t|?] wc]; [|done].
  destruct (checkout_ndarray cfg ext wc) as [[d|?] wd]; [|done].
  unfold ret in Hrun. simplify_eq.
  unfold run_mappings, configured_mappings. cbn [for_each]. unfold bind at 1.
  rewrite apply_mapping_absent by done. unfold bind at 1.
  rewrite apply_mapping_present by (cbn [m_source]; rewrite Hgen; eauto).
  cbn [m_mode m_source m_dest].
  destruct (overlay_and_the_destination_root
              (tensorflow_java_repo ++
               ["tensorflow-core"; "tensorflow-core-api"; "src"; "gen"; "java"; "org"; "tensorflow"])
              (merged_source ++ ["java"; "org"; "tensorflow"]) w2) as (_ & Hraise & _).
  assert (stat (fs w2) (merged_source ++ ["java"; "org"; "tensorflow"]) = None) as Hto.
  { rewrite (path_snoc merged_source "java"), (path_snoc _ "org").
    rewrite <- (app_assoc merged_source ["java"] ["org"]). simpl.
    rewrite stat_app, Horg. simpl. by rewrite Htf. }
  rewrite (Hraise n es rest); [done|done|done|].
  intros q d. rewrite (path_snoc merged_source "java"), (path_snoc _ "org").
  rewrite <- (app_assoc merged_source ["java"] ["org"]). simpl.
  apply (no_file_above_missing _ _ os); [done|].
  rewrite <- Hto. f_equal. by rewrite <- !app_assoc.
Qed.

(** ** The overlay into an empty directory *)

Section overlay_fresh.
Variables from to : path.
Hypothesis Hap : apart from to.

Local Abbreviation loop l := (for_each l (overlay_entry from to)).

(** What is not on the way to the destination of an entry does not come to
    exist. *)
Lemma loop_other_none rel l : forall w r w',
  below from l ->
  (forall rel', from ++ rel' ∈ l -> ~ rel `prefix_of` rel') ->
  loop l w = (r, w') ->
  stat (fs w) (to ++ rel) = None -> stat (fs w') (to ++ rel) = None.
Proof.
  induction l as [|x l IH]; intros w r w' Hl Hpre H Hn.
  - simpl in H. unfold ret in H. by simplify_eq.
  - apply below_cons in Hl as [(rel' & Hrel' & ->) Hl].
    assert (~ to ++ rel `prefix_of` to ++ rel') as Hnp.
    { intros Hp. apply prefix_app_inv in Hp. eapply Hpre; [left|done]. }
    apply for_each_cons_inv in H as [(e & H & _)|(w1 & H & Hrest)].
    + by eapply overlay_entry_other_none.
    + eapply IH; eauto.
      * intros rel'' Hin. apply Hpre. by right.
      * by eapply overlay_entry_other_none.
Qed.

(** No notice when no regular file of the walk has its destination. *)
Lemma loop_silent l : forall w r w',
  below from l -> NoDup l ->
  (forall rel d, from ++ rel ∈ l -> stat (fs w) (from ++ rel) = Some (File d) ->
     stat (fs w) (to ++ rel) = None /\
     forall rel', from ++ rel' ∈ l -> rel `prefix_of` rel' -> rel' = rel) ->
  loop l w = (r, w') -> stdout w' = stdout w.
Proof.
  induction l as [|x l IH]; intros w r w' Hl Hnd Hfiles H.
  - simpl in H. unfold ret in H. by simplify_eq.
  - apply below_cons in Hl as [(rel0 & Hrel0 & ->) Hl].
    apply NoDup_cons in Hnd as [Hnotin Hnd].
    assert (entry_notice (fs w) from to rel0 = []) as Hquiet.
    { unfold entry_notice.
      destruct (stat (fs w) (from ++ rel0)) as [[d|]|] eqn:Hs; try done.
      destruct (Hfiles rel0 d) as [-> _]; [left|done|].
      by rewrite bool_decide_false by (by intros []). }
    apply for_each_cons_inv in H as [(e & H & _)|(w1 & H & Hrest)].
    + apply (overlay_entry_stdout _ _ _ Hrel0) in H.
      by rewrite H, Hquiet, app_nil_r.
    + pose proof (overlay_entry_stdout _ _ _ Hrel0 _ _ _ H) as Hout.
      rewrite Hquiet, app_nil_r in Hout. rewrite <- Hout.
      eapply IH; eauto.
      intros rel d Hin Hs.
      assert (stat (fs w) (from ++ rel) = Some (File d)) as Hs0.
      { rewrite <- Hs. symmetry.
        by eapply (overlay_entry_stable _ _ _ Hrel0 _ _ _ _ (stable_source from to Hap rel _)). }
      destruct (Hfiles rel d) as [Hnone Hleaf]; [by right|done|].
      split.
      * eapply overlay_entry_other_none; eauto.
        intros Hp. apply prefix_app_inv in Hp.
        assert (rel0 = rel) as -> by (apply Hleaf; [left|done]). done.
      * intros rel' Hin'. apply Hleaf. by right.
Qed.
End overlay_fresh.

(** X5: into an empty directory [overlay] does what copying the tree does.
    In a well-formed tree, with the roots apart, it returns, prints no
    notice, and at every relative path the destination has what the source
    has: the same bytes for a regular file, a directory for a directory,
    nothing where the source has nothing. *)
Theorem overlay_into_empty_directory from to w es :
  wf (fs w) -> apart from to ->
  stat (fs w) from = Some (Dir es) ->
  stat (fs w) to = Some (Dir []) ->
  exists w',
    overlay from to w = (Ok tt, w') /\
    stdout w' = stdout w /\
    forall rel,
      content (stat (fs w') (to ++ rel)) = content (stat (fs w) (from ++ rel)).
Proof.
  intros Hwf Hap Hfrom Hto.
  assert (forall rel, rel <> [] -> stat (fs w) (to ++ rel) = None) as Hempty.
  { intros rel Hrel. rewrite stat_app, Hto. by apply stat_Dir_nil_below. }
  destruct (overlay_succeeds from to w []) as [w' Hrun]; [done|done|done| |].
  { intros rel. unfold type_collision.
    destruct (decide (rel = [])) as [->|Hrel].
    - by rewrite !app_nil_r, Hfrom, Hto.
    - rewrite (Hempty rel Hrel). by destruct (stat (fs w) (from ++ rel)) as [[|]|]. }
  exists w'. split; [done|].
  pose proof Hrun as Hloop. rewrite overlay_unfold in Hloop. split.
  - eapply (loop_silent from to Hap); [apply below_rglob|by apply fs_rglob_NoDup| |done].
    intros rel d Hin Hs. split.
    + apply Hempty. intros ->. rewrite app_nil_r in Hs. by rewrite Hs in Hfrom.
    + intros rel' Hin' Hp. by eapply fs_rglob_file_leaf.
  - intros rel. destruct (decide (rel = [])) as [->|Hrel].
    + rewrite !app_nil_r, Hfrom.
      destruct (loop_stable from to
                  (fun t => exists es, stat t to = Some (Dir es)) _ _ _ _
                  (stable_is_dir _ _) (below_rglob _ _) Hloop) as [es' ->]; eauto.
    + destruct (stat (fs w) (from ++ rel)) as [[d|es']|] eqn:Hs.
      * by rewrite (overlay_file_copied _ _ _ _ _ _ Hap Hrun Hrel Hs).
      * destruct (loop_makes_dir from to Hap rel _ _ _ (below_rglob _ _) Hloop)
          as [es'' ->]; [|by rewrite Hs|done].
        eapply fs_rglob_complete; eauto.
      * erewrite (loop_other_none from to rel (fs_rglob (fs w) from) w);
          [done|apply below_rglob| |exact Hloop|by apply Hempty].
        intros rel' Hin [r ->].
        apply fs_rglob_exists in Hin as [x Hx]; [|done].
        rewrite app_assoc, stat_app, Hs in Hx. done.
Qed.

(** ** The steps that replace a tree *)

Lemma apart_app_common (p a b : path) : apart a b -> apart (p ++ a) (p ++ b).
Proof.
  intros [H1 H2]. split; intros H; by apply prefix_app_inv in H.
Qed.

Lemma for_each_app {A} (body : A -> M unit) l1 l2 w :
  for_each (l1 ++ l2) body w = (for_each l1 body ;; for_each l2 body) w.
Proof.
  revert w. induction l1 as [|x l1 IH]; intros w; [done|].
  simpl. rewrite bind_assoc. apply bind_cong. intros _ w1. apply IH.
Qed.

Lemma replace_steps l : forall w,
  Forall (fun mp => m_mode mp = replace_tree) l ->
  ForallOrdPairs (fun mp mp' => apart (m_dest mp) (m_dest mp')) l ->
  (forall mp mp', mp ∈ l -> mp' ∈ l -> apart (m_dest mp) (m_source mp')) ->
  (forall mp, mp ∈ l -> kind (stat (fs w) (m_source mp)) <> Some false) ->
  (forall mp, mp ∈ l -> is_Some (stat (fs w) (m_source mp)) ->
     stat (fs w) (m_dest mp) = None) ->
  (forall mp q r, mp ∈ l -> m_dest mp = q ++ r -> r <> [] ->
     kind (stat (fs w) q) <> Some false) ->
  exists w',
    run_mappings l w = (Ok tt, w') /\
    stdout w' = stdout w /\
    (forall mp, mp ∈ l ->
       stat (fs w') (m_dest mp) =
       match stat (fs w) (m_source mp) with
       | Some s => Some s
       | None => stat (fs w) (m_dest mp)
       end) /\
    (forall q, (forall mp, mp ∈ l -> apart (m_dest mp) q) ->
       stat (fs w') q = stat (fs w) q).
Proof.
  induction l as [|mp l IH]; intros w Hmode Hdst Hsrc Hkind Hfresh Hway.
  { exists w. split_and!; try done. intros mp Hin. by apply elem_of_nil in Hin. }
  apply Forall_cons in Hmode as [Hmode Hmodes].
  inversion Hdst as [|? ? Hhead Htail]; subst.
  rewrite List.Forall_forall in Hhead.
  assert (forall mp', mp' ∈ l -> apart (m_dest mp) (m_dest mp')) as Hhead'.
  { intros mp' Hin. apply Hhead. by apply list_elem_of_In. }
  unfold run_mappings. cbn [for_each]. unfold bind at 1.
  destruct (stat (fs w) (m_source mp)) as [[d|es]|] eqn:Hs.
  - destruct (Hkind mp); [left|]. by rewrite Hs.
  - rewrite apply_mapping_present by (rewrite Hs; eauto). rewrite Hmode.
    destruct (copytree_succeeds (m_source mp) (m_dest mp) w es) as [w1 Hrun].
    { done. }
    { apply Hfresh; [left|]. rewrite Hs; eauto. }
    { intros q r d Heq Hq. destruct (decide (r = [])) as [->|Hr].
      - rewrite app_nil_r in Heq. subst q.
        rewrite Hfresh in Hq; [done|left|]. rewrite Hs; eauto.
      - apply (Hway mp q r); [left|done|done|]. by rewrite Hq. }
    rewrite Hrun.
    destruct (copytree_Ok_inv _ _ _ _ Hrun) as (es' & Hs' & Hw & Hnone & Hnew & Hout & _).
    rewrite Hs in Hs'. simplify_eq.
    assert (forall q, apart (m_dest mp) q -> stat (fs w1) q = stat (fs w) q) as Hframe.
    { intros q Hq. by eapply copytree_frame. }
    destruct (IH w1) as (w' & Hrest & Hout' & Hcopied & Hframe'); try done.
    { intros mp1 mp2 H1 H2. apply Hsrc; by right. }
    { intros mp' Hin. rewrite Hframe; [apply Hkind; by right|].
      apply Hsrc; [left|by right]. }
    { intros mp' Hin. rewrite !Hframe; auto.
      - apply Hfresh. by right.
      - apply Hsrc; [left|by right]. }
    { intros mp' q r Hin Heq Hr.
      destruct (path_cases (m_dest mp) q) as [Hap|[[x ->]|(x & Hx & Hq)]].
      - rewrite Hframe by done. eapply Hway; [by right|done|done].
      - destruct (Hhead' mp' Hin) as [[] _]. rewrite Heq, <- app_assoc.
        by apply prefix_app_r.
      - rewrite Hq in Hw.
        destruct (walk_above _ _ _ _ _ _ Hw Hx) as [ds ->]. done. }
    exists w'. split_and!.
    + done.
    + by rewrite Hout', Hout.
    + intros mp' [->|Hin]%elem_of_cons.
      * rewrite Hs, Hframe'; [done|]. intros mp' Hin. by apply apart_sym, Hhead'.
      * rewrite Hcopied by done. rewrite !Hframe; auto.
        apply Hsrc; [left|by right].
    + intros q Hq. rewrite Hframe'; [apply Hframe, Hq; left|].
      intros mp' Hin. apply Hq. by right.
  - rewrite apply_mapping_absent by done.
    destruct (IH w) as (w' & Hrest & Hout' & Hcopied & Hframe'); try done.
    { intros mp1 mp2 H1 H2. apply Hsrc; by right. }
    { intros mp' Hin. apply Hkind. by right. }
    { intros mp' Hin. apply Hfresh. by right. }
    { intros mp' q r Hin. apply Hway. by right. }
    exists w'. split_and!; try done.
    + intros mp' [->|Hin]%elem_of_cons.
      * rewrite Hs. apply Hframe'. intros mp' Hin. by apply apart_sym, Hhead'.
      * by apply Hcopied.
    + intros q Hq. apply Hframe'. intros mp' Hin. apply Hq. by right.
Qed.

Lemma proper_prefix_snoc (q r a : path) x :
  q ++ r = a ++ [x] -> r <> [] -> q `prefix_of` a.
Proof.
  intros Heq Hr. destruct r as [|y r _] using rev_ind; [done|].
  rewrite app_assoc in Heq. apply app_inj_tail in Heq as [<- _].
  by apply prefix_app_r.
Qed.

(** X6: the five steps that follow the overlay copy to destinations that lie
    apart, so none of them disturbs another.  When, after the first two
    steps, every source that exists is a directory, has no destination yet,
    and no regular file stands on the way to [java/org/tensorflow/internal],
    the full composition returns: every source that exists has its tree at
    its destination, a destination whose source is absent is as it was,
    nothing is printed and nothing changes apart from
    [java/org/tensorflow]. *)
Theorem later_steps_copy_side_by_side cfg ext merged_source w0
    tensorflow_java_repo ndarray_repo w :
  (print Msg_building_comprehensive ;;
   mkdir true true (merged_source ++ ["java"; "org"]) ;;
   t <- checkout_tensorflow_java cfg ext ;;
   d <- checkout_ndarray cfg ext ;;
   run_mappings (take 2 (configured_mappings t d merged_source)) ;;
   ret (t, d)) w0 = (Ok (tensorflow_java_repo, ndarray_repo), w) ->
  apart tensorflow_java_repo merged_source ->
  apart ndarray_repo merged_source ->
  let steps :=
    drop 2 (configured_mappings tensorflow_java_repo ndarray_repo merged_source) in
  (forall mp, mp ∈ steps -> kind (stat (fs w) (m_source mp)) <> Some false) ->
  (forall mp, mp ∈ steps -> is_Some (stat (fs w) (m_source mp)) ->
     stat (fs w) (m_dest mp) = None) ->
  (forall q, q `prefix_of` merged_source ++ ["java"; "org"; "tensorflow"; "internal"] ->
     kind (stat (fs w) q) <> Some false) ->
  exists w',
    build_comprehensive_java_docs cfg ext merged_source w0 = (Ok tt, w') /\
    stdout w' = stdout w /\
    (forall mp, mp ∈ steps ->
       stat (fs w') (m_dest mp) =
       match stat (fs w) (m_source mp) with
       | Some s => Some s
       | None => stat (fs w) (m_dest mp)
       end) /\
    (forall q, apart (merged_source ++ ["java"; "org"; "tensorflow"]) q ->
       stat (fs w') q = stat (fs w) q).
Proof.
  intros Hrun Htf Hnd steps Hkind Hfresh Hway.
  assert (forall mp, mp ∈ steps ->
            exists a x, m_dest mp = (merged_source ++ a) ++ [x] /\
                        a `prefix_of` ["java"; "org"; "tensorflow"; "internal"] /\
                        ["java"; "org"; "tensorflow"] `prefix_of` a ++ [x]) as Hshape.
  { intros mp Hin. unfold steps in Hin. cbn in Hin.
    repeat (apply elem_of_cons in Hin as [->|Hin]); [..|by apply elem_of_nil in Hin];
      cbn [m_dest].
    - exists ["java"; "org"; "tensorflow"], "proto".
      split; [by rewrite <- app_assoc|]. split; [by exists ["internal"]|by exists ["proto"]].
    - exists ["java"; "org"; "tensorflow"], "exceptions".
      split; [by rewrite <- app_assoc|]. split; [by exists ["internal"]|by exists ["exceptions"]].
    - exists ["java"; "org"; "tensorflow"; "internal"], "c_api".
      split; [by rewrite <- app_assoc|]. split; [done|by exists ["internal"; "c_api"]].
    - exists ["java"; "org"; "tensorflow"], "framework".
      split; [by rewrite <- app_assoc|]. split; [by exists ["internal"]|by exists ["framework"]].
    - exists ["java"; "org"; "tensorflow"], "ndarray".
      split; [by rewrite <- app_assoc|]. split; [by exists ["internal"]|by exists ["ndarray"]]. }
  destruct (replace_steps steps w) as (w' & Hsteps & Hout & Hcopied & Hframe).
  - unfold steps. cbn. by repeat constructor.
  - unfold steps. cbn.
    repeat (constructor; [repeat constructor; cbn [m_dest];
                          apply apart_app_common; apart_paths|]).
    constructor.
  - intros mp mp' Hin Hin'. apply apart_sym.
    destruct (Hshape mp Hin) as (a & x & -> & _ & _).
    rewrite <- app_assoc. unfold steps in Hin'. cbn in Hin'.
    repeat (apply elem_of_cons in Hin' as [->|Hin']); [..|by apply elem_of_nil in Hin'];
      cbn [m_source]; by apply apart_app_l, apart_app_r.
  - done.
  - done.
  - intros mp q r Hin Heq Hr. apply Hway.
    destruct (Hshape mp Hin) as (a & x & Hd & [b Hb] & _). rewrite Hd in Heq.
    etrans; [by eapply proper_prefix_snoc|]. rewrite Hb, app_assoc.
    by apply prefix_app_r.
  - exists w'. split_and!; try done.
    + rewrite build_comprehensive_as_mappings.
      unfold bind at 1 2 3 4 5 in Hrun. unfold bind at 1 2 3 4.
      destruct (print Msg_building_comprehensive w0) as [[[]|?] wa]; [|done].
      destruct (mkdir true true (merged_source ++ ["java"; "org"]) wa) as [[[]|?] wb];
        [|done].
      destruct (checkout_tensorflow_java cfg ext wb) as [[t|?] wc]; [|done].
      destruct (checkout_ndarray cfg ext wc) as [[d|?] wd]; [|done].
      destruct (run_mappings (take 2 (configured_mappings t d merged_source)) wd)
        as [[[]|?] we] eqn:Hfirst; [|done].
      unfold ret in Hrun. simplify_eq.
      rewrite <- (take_drop 2 (configured_mappings _ _ _)).
      unfold run_mappings in *. rewrite for_each_app. unfold bind.
      by rewrite Hfirst.
    + intros q Hq. apply Hframe. intros mp Hin.
      destruct (Hshape mp Hin) as (a & x & -> & _ & [b Hb]).
      rewrite <- (app_assoc merged_source), Hb, app_assoc. by apply apart_app_l.
Qed.

(** ** What is printed *)

Section prints_rules.
Variable P : message -> Prop.

Lemma prints_silent {A} (m : M A) :
  (forall w r w', m w = (r, w') -> stdout w' = stdout w) -> prints P m.
Proof.
  intros Hm w r w' H. exists []. rewrite app_nil_r. split; [by eapply Hm|done].
Qed.

Lemma prints_ret {A} (a : A) : prints P (ret a).
Proof. apply prints_silent. intros w r w' H. unfold ret in H. by simplify_eq. Qed.

Lemma prints_bind {A B} (m : M A) (k : A -> M B) :
  prints P m -> (forall a, prints P (k a)) -> prints P (bind m k).
Proof.
  intros Hm Hk w r w' H. unfold bind in H.
  destruct (m w) as [[a|e] w1] eqn:Hmw.
  - destruct (Hm _ _ _ Hmw) as (out1 & Ho1 & HP1).
    destruct (Hk a _ _ _ H) as (out2 & Ho2 & HP2).
    exists (out1 ++ out2). split; [by rewrite Ho2, Ho1, app_assoc|].
    by apply Forall_app.
  - simplify_eq. eauto.
Qed.

Lemma prints_try_except {A} (body : M A) catches handler :
  prints P body -> (forall e, prints P (handler e)) ->
  prints P (try_except body catches handler).
Proof.
  intros Hb Hh w r w' H. unfold try_except in H.
  destruct (body w) as [[a|e] w1] eqn:Hbw.
  - simplify_eq. eauto.
  - destruct (catches e).
    + destruct (Hb _ _ _ Hbw) as (out1 & Ho1 & HP1).
      destruct (Hh e _ _ _ H) as (out2 & Ho2 & HP2).
      exists (out1 ++ out2). split; [by rewrite Ho2, Ho1, app_assoc|].
      by apply Forall_app.
    + simplify_eq. eauto.
Qed.

Lemma prints_print m : P m -> prints P (print m).
Proof.
  intros Hm w r w' H. unfold print in H. simplify_eq. exists [m].
  split; [done|]. by apply Forall_singleton.
Qed.

Lemma prints_if {A} (b : bool) (m1 m2 : M A) :
  prints P m1 -> prints P m2 -> prints P (if b then m1 else m2).
Proof. by destruct b. Qed.

Lemma prints_path_exists p : prints P (path_exists p).
Proof. apply prints_silent. intros w r w' H. unfold path_exists in H. by simplify_eq. Qed.

Lemma prints_run x : prints P (run x).
Proof.
  apply prints_silent. intros w r w' H. unfold run in H.
  destruct (x (fs w)). by simplify_eq.
Qed.

Lemma prints_fs_op f : prints P (fs_op f).
Proof.
  apply prints_silent. intros w r w' H. unfold fs_op in H.
  destruct (f (fs w)); by simplify_eq.
Qed.

Lemma prints_mkdtemp cfg : prints P (mkdtemp cfg).
Proof.
  apply prints_silent. intros w r w' H. unfold mkdtemp in H.
  destruct (mkdtemp_loop _ _ _) as [[[? ?]|?] ?]; by simplify_eq.
Qed.

Lemma prints_overlay from to :
  (forall p, P (Warn_overwriting p)) -> prints P (overlay from to).
Proof.
  intros HP w r w' H. rewrite overlay_unfold in H.
  destruct (loop_stdout from to _ _ _ _ (below_rglob _ _) H) as (out & Hout & Hms).
  exists out. split; [done|]. apply Forall_forall. intros m Hm.
  destruct (Hms m Hm) as (rel & _ & ->). apply HP.
Qed.
End prints_rules.

Ltac prints_step :=
  lazymatch goal with
  | |- prints _ (bind _ _) => apply prints_bind; [|intros ?]
  | |- prints _ (try_except _ _ _) => apply prints_try_except; [|intros ?]
  | |- prints _ (if _ then _ else _) => apply prints_if
  | |- prints _ (ret _) => apply prints_ret
  | |- prints _ (print _) => apply prints_print; done
  | |- prints _ (path_exists _) => apply prints_path_exists
  | |- prints _ (run _) => apply prints_run
  | |- prints _ (mkdtemp _) => apply prints_mkdtemp
  | |- prints _ (mkdir _ _ _) => apply prints_fs_op
  | |- prints _ (copytree _ _) => apply prints_fs_op
  | |- prints _ (rmtree _) => apply prints_fs_op
  | |- prints _ (overlay _ _) => apply prints_overlay; done
  end.

Lemma prints_clone_or_update_repo cfg ext url p rev :
  prints (fun m => m <> Msg_completed) (clone_or_update_repo cfg ext url p rev).
Proof. unfold clone_or_update_repo. repeat prints_step. Qed.

Lemma prints_build_comprehensive cfg ext merged_source :
  prints (fun m => m <> Msg_completed)
    (build_comprehensive_java_docs cfg ext merged_source).
Proof.
  unfold build_comprehensive_java_docs, checkout_tensorflow_java, checkout_ndarray.
  repeat first [ apply prints_clone_or_update_repo | prints_step | case_match ].
Qed.

Lemma prints_build_traditional cfg ext merged_source :
  prints (fun m => m <> Msg_completed)
    (build_traditional_tensorflow_java_docs cfg ext merged_source).
Proof.
  unfold build_traditional_tensorflow_java_docs, generate_ops.
  repeat prints_step.
Qed.

Lemma prints_merged_tree_of_main cfg ext :
  prints (fun m => m <> Msg_completed) (merged_tree_of_main cfg ext).
Proof.
  unfold merged_tree_of_main, compose_or_fall_back.
  repeat first [ apply prints_build_comprehensive | apply prints_build_traditional
               | prints_step ].
Qed.

Lemma main_unfold cfg ext w :
  main cfg ext w =
  (merged_source <- merged_tree_of_main cfg ext ;;
   print (Msg_generating_to (output_dir (FLAGS cfg))) ;;
   run (gen_java_docs ext "org.tensorflow" (merged_source ++ ["java"])
          (output_dir (FLAGS cfg)) (site_path (FLAGS cfg))) ;;
   print Msg_completed) w.
Proof.
  unfold main, merged_tree_of_main.
  rewrite bind_assoc. apply bind_cong. intros _ w1.
  rewrite bind_assoc. apply bind_cong. intros m1 w2.
  rewrite bind_assoc. done.
Qed.

(** X7: [main] prints its last line, the one that announces completion,
    exactly when it returns: a run that raises never prints it, and a run
    that returns ends with it, also after the fallback to the degraded
    composition. *)
Theorem main_reports_completion cfg ext w r w' :
  main cfg ext w = (r, w') ->
  exists out,
    stdout w' = stdout w ++ out /\
    (Msg_completed ∈ out <-> r = Ok tt) /\
    (r = Ok tt -> last out = Some Msg_completed).
Proof.
  intros H. rewrite main_unfold in H. unfold bind at 1 in H.
  destruct (merged_tree_of_main cfg ext w) as [[m|e] w1] eqn:Hm.
  - destruct (prints_merged_tree_of_main _ _ _ _ _ Hm) as (out & Hout & HP).
    rewrite Forall_forall in HP.
    unfold bind, print, run in H. simpl in H.
    destruct (gen_java_docs ext _ _ _ _ (fs w1)) as [[[]|e] t]; simplify_eq; simpl.
    + exists (out ++ [Msg_generating_to (output_dir (FLAGS cfg)); Msg_completed]).
      split; [by rewrite Hout, <- !app_assoc|]. split.
      * split; [done|]. intros _. apply elem_of_app. right. by right; left.
      * intros _. by rewrite last_app.
    + exists (out ++ [Msg_generating_to (output_dir (FLAGS cfg))]).
      split; [by rewrite Hout, <- !app_assoc|]. split; [|done].
      split; [|done]. intros [Hin|Hin]%elem_of_app.
      * by destruct (HP _ Hin).
      * by apply list_elem_of_singleton in Hin.
  - simplify_eq. destruct (prints_merged_tree_of_main _ _ _ _ _ Hm) as (out & Hout & HP).
    rewrite Forall_forall in HP.
    exists out. split; [done|]. split; [|done]. split; [|done].
    intros Hin. by destruct (HP _ Hin).
Qed.

(** ** The merged tree outlives [main] *)

Lemma fs_inv_build_traditional J cfg ext merged_source :
  sturdy J -> ext_respects J ext ->
  fs_inv J (build_traditional_tensorflow_java_docs cfg ext merged_source).
Proof.
  intros HJ Hext. unfold build_traditional_tensorflow_java_docs.
  apply fs_inv_bind; [apply fs_inv_print|intros _].
  apply fs_inv_bind; [apply fs_inv_path_exists|intros present].
  apply fs_inv_if; [|apply fs_inv_ret].
  apply fs_inv_bind; [by apply fs_inv_copytree|intros _].
  apply fs_inv_build_traditional_after_copy; [done|by apply fs_inv_copytree].
Qed.

Lemma merged_tree_is_a_directory cfg ext w m w1 :
  (forall q, ext_respects (fun t => exists es, stat t q = Some (Dir es)) ext) ->
  merged_tree_of_main cfg ext w = (Ok m, w1) ->
  (exists n, m = TEMP_DIR cfg ++ [n]) /\
  exists es, stat (fs w1) m = Some (Dir es).
Proof.
  intros Hext H. unfold merged_tree_of_main in H.
  unfold bind at 1 2 3 in H. unfold print at 1 in H.
  destruct (mkdtemp cfg _) as [[m1|e] wa] eqn:Hmk; [|done].
  apply mkdtemp_Ok in Hmk as (Hn1 & _ & Hm1 & _).
  unfold print at 1 in H.
  unfold compose_or_fall_back, try_except in H. unfold bind at 1 in H.
  match type of H with
  | context [build_comprehensive_java_docs cfg ext m1 ?w0] =>
      destruct (build_comprehensive_java_docs cfg ext m1 w0)
        as [[[]|e] wb] eqn:Hbc
  end.
  - unfold ret in H. simplify_eq. split; [done|].
    eapply (fs_inv_build_comprehensive _ (sturdy_is_dir m)); eauto;
      simpl; eauto.
  - simpl in H. unfold bind at 1 2 3 4 in H. unfold print at 1 2 in H.
    destruct (rmtree m1 _) as [[[]|e1] wc]; [|done].
    destruct (mkdtemp cfg wc) as [[m2|e2] wd] eqn:Hmk2; [|done].
    apply mkdtemp_Ok in Hmk2 as (Hn2 & _ & Hm2 & _).
    unfold bind at 1 in H.
    destruct (build_traditional_tensorflow_java_docs cfg ext m2 wd)
      as [[[]|e3] we] eqn:Hbt; [|done].
    unfold ret in H. simplify_eq. split; [done|].
    eapply (fs_inv_build_traditional _ _ _ _ (sturdy_is_dir m)); eauto.
Qed.

(** X8: [main] never removes the merged tree it hands to the documentation
    generator.  When the external programs remove no directory and [main]
    returns, the tree that was composed, a directory made by [mkdtemp] in the
    temporary directory, is still there. *)
Theorem main_keeps_the_merged_tree cfg ext w w' :
  externals_keep_directories ext ->
  main cfg ext w = (Ok tt, w') ->
  exists merged_source w1,
    merged_tree_of_main cfg ext w = (Ok merged_source, w1) /\
    TEMP_DIR cfg `prefix_of` merged_source /\
    (exists es, stat (fs w1) merged_source = Some (Dir es)) /\
    (exists es, stat (fs w') merged_source = Some (Dir es)).
Proof.
  intros Hext H. rewrite main_unfold in H. unfold bind at 1 in H.
  destruct (merged_tree_of_main cfg ext w) as [[m|e] w1] eqn:Hm; [|done].
  exists m, w1. split; [done|].
  destruct (merged_tree_is_a_directory cfg ext w m w1) as [[n ->] Hdir];
    [intros q; apply Hext|done|].
  split_and!; [by apply prefix_app_r|done|].
  unfold bind, print, run in H. simpl in H.
  destruct (gen_java_docs ext _ _ _ _ (fs w1)) as [[[]|e] t] eqn:Hgen;
    simplify_eq; simpl.
  destruct (Hext (TEMP_DIR cfg ++ [n])) as [_ Hgen'].
  pose proof (Hgen' "org.tensorflow" ((TEMP_DIR cfg ++ [n]) ++ ["java"])
                (output_dir (FLAGS cfg)) (site_path (FLAGS cfg)) _ Hdir) as Hkept.
  by rewrite Hgen in Hkept.
Qed.

(** ** A git command that fails *)

(** X9: the first repository that needs git is [tensorflow-java], or
    [ndarray] when the flag names a local [tensorflow-java]: the array
    library is cloned or fetched in any case.  It is fetched when its path
    exists and cloned when it does not, and when that command raises, the
    revision is not checked out and the full composition raises the same
    exception, after one line about the repository and before any source is
    copied. *)
Theorem git_failure_ends_the_composition cfg ext merged_source w w1 e t :
  let repo_url :=
    match tensorflow_java_repo (FLAGS cfg) with
    | Some _ => "https://github.com/tensorflow/java-ndarray"
    | None => "https://github.com/tensorflow/java"
    end in
  let local_path :=
    match tensorflow_java_repo (FLAGS cfg) with
    | Some _ => REPO_ROOT cfg ++ ["ndarray"]
    | None => REPO_ROOT cfg ++ ["tensorflow-java"]
    end in
  let present := bool_decide (is_Some (stat (fs w1) local_path)) in
  (print Msg_building_comprehensive ;;
   mkdir true true (merged_source ++ ["java"; "org"])) w = (Ok tt, w1) ->
  (if present then git_fetch ext local_path
   else git_clone ext repo_url local_path) (fs w1) = (Raise e, t) ->
  build_comprehensive_java_docs cfg ext merged_source w =
  (Raise e,
   {| fs := t;
      stdout := stdout w1 ++
                [if present then Msg_using_existing local_path
                 else Msg_cloning repo_url local_path];
      temp_names := temp_names w1 |}).
Proof.
  intros repo_url local_path present Hrun Hgit.
  unfold build_comprehensive_java_docs.
  unfold bind at 1 in Hrun. unfold bind at 1 2.
  destruct (print Msg_building_comprehensive w) as [[[]|?] wa]; [|done].
  destruct (mkdir true true (merged_source ++ ["java"; "org"]) wa) as [[[]|?] wb];
    [|done].
  simplify_eq. unfold bind at 1.
  unfold checkout_tensorflow_java, checkout_ndarray.
  subst repo_url local_path present.
  destruct (tensorflow_java_repo (FLAGS cfg)) as [p|].
  - unfold ret at 1. unfold bind at 1 2. unfold clone_or_update_repo.
    unfold bind at 1 2. unfold path_exists at 1.
    destruct (bool_decide (is_Some (stat (fs w1) (REPO_ROOT cfg ++ ["ndarray"]))));
      simpl; unfold bind at 1, print at 1; destruct (HAS_GITPYTHON cfg);
      unfold bind at 1, run at 1; simpl; by rewrite Hgit.
  - unfold bind at 1 2. unfold clone_or_update_repo.
    unfold bind at 1 2. unfold path_exists at 1.
    destruct (bool_decide (is_Some (stat (fs w1) (REPO_ROOT cfg ++ ["tensorflow-java"]))));
      simpl; unfold bind at 1, print at 1; destruct (HAS_GITPYTHON cfg);
      unfold bind at 1, run at 1; simpl; by rewrite Hgit.
Qed.

(** ** The generated op sources in the degraded tree *)

(** X10: the augmentation step at work.  When the primary sources were
    copied, the configuration and the build returned and left the copy
    alone, the op sources were produced, and the primary sources have no
    [org/tensorflow/ops] (nor a regular file on the way), the degraded
    composition returns with the generated sources of [org/tensorflow/op] at
    [java/org/tensorflow/ops], beside the primary sources, which are all
    still there. *)
Theorem generated_ops_are_added cfg ext merged_source w w1 w2 es ops :
  gen_ops (FLAGS cfg) = true ->
  stat (fs w) (TF_JAVA_SOURCE_PATH cfg) = Some (Dir es) ->
  (print Msg_building_traditional ;;
   copytree (TF_JAVA_SOURCE_PATH cfg) (merged_source ++ ["java"]) ;;
   print Msg_generating_ops) w = (Ok tt, w1) ->
  (run (run_configure ext (REPO_ROOT cfg)) ;;
   run (bazel_build ext (REPO_ROOT cfg) "//tensorflow/java:java_op_gen_sources")) w1
    = (Ok tt, w2) ->
  stat (fs w2)
    (REPO_ROOT cfg ++
     ["bazel-bin"; "tensorflow"; "java"; "ops"; "src"; "main"; "java";
      "org"; "tensorflow"; "op"]) = Some (Dir ops) ->
  stat (fs w2) (merged_source ++ ["java"]) = Some (Dir es) ->
  stat (Dir es) ["org"; "tensorflow"; "ops"] = None ->
  kind (stat (Dir es) ["org"]) <> Some false ->
  kind (stat (Dir es) ["org"; "tensorflow"]) <> Some false ->
  exists w',
    build_traditional_tensorflow_java_docs cfg ext merged_source w = (Ok tt, w') /\
    stat (fs w') (merged_source ++ ["java"; "org"; "tensorflow"; "ops"])
      = Some (Dir ops) /\
    (forall rel d, stat (Dir es) rel = Some (File d) ->
       stat (fs w') (merged_source ++ "java" :: rel) = Some (File d)) /\
    stdout w' = stdout w ++ [Msg_building_traditional; Msg_generating_ops].
Proof.
  intros Hgen Hsrc Hcopy Htools Hops Hjava Hfresh Horg Htf.
  assert (merged_source ++ ["java"; "org"; "tensorflow"; "ops"] =
          (merged_source ++ ["java"]) ++ ["org"; "tensorflow"; "ops"]) as Hdst.
  { by rewrite <- app_assoc. }
  destruct (copytree_succeeds
              (REPO_ROOT cfg ++
               ["bazel-bin"; "tensorflow"; "java"; "ops"; "src"; "main"; "java";
                "org"; "tensorflow"; "op"])
              (merged_source ++ ["java"; "org"; "tensorflow"; "ops"]) w2 ops)
    as [w' Hrun].
  { done. }
  { by rewrite Hdst, stat_app, Hjava. }
  { intros q r d Heq Hq. rewrite Hdst in Heq.
    apply app_eq_inv in Heq as [(k & Hk & Hr)|(k & Hk & Hr)].
    - eapply (no_file_above (fs w2) (merged_source ++ ["java"])); [done| |done].
      exists k. done.
    - subst q. rewrite stat_app, Hjava in Hq.
      destruct k as [|k1 [|k2 [|k3 k]]]; simplify_eq/=.
      all: try (apply Horg; cbn; by rewrite Hq).
      all: try (apply Htf; cbn; by rewrite Hq).
      all: destruct k, r; simplify_eq/=; cbn in Hfresh; by rewrite Hfresh in Hq. }
  exists w'.
  destruct (copytree_Ok_inv _ _ _ _ Hrun) as (ops' & Hops' & _ & _ & Hnew & Hout & _).
  rewrite Hops in Hops'. simplify_eq.
  assert (stdout w1 = stdout w ++ [Msg_building_traditional; Msg_generating_ops]
          /\ stdout w2 = stdout w1) as [Hout1 Hout2].
  { clear -Hcopy Htools. run_cases; by rewrite <- ?app_assoc. }
  split_and!.
  - unfold build_traditional_tensorflow_java_docs.
    unfold bind at 1 2 in Hcopy. unfold bind at 1 2.
    destruct (print Msg_building_traditional w) as [[[]|?] wa] eqn:Hp; [|done].
    unfold path_exists at 1.
    assert (fs wa = fs w) as -> by (unfold print in Hp; by simplify_eq).
    rewrite bool_decide_true by (rewrite Hsrc; eauto).
    unfold bind at 1.
    destruct (copytree (TF_JAVA_SOURCE_PATH cfg) (merged_source ++ ["java"]) wa)
      as [[[]|?] wb]; [|done].
    rewrite Hgen. unfold bind at 1. rewrite Hcopy.
    unfold try_except, generate_ops. unfold bind at 1 in Htools.
    unfold bind at 1 2.
    destruct (run (run_configure ext (REPO_ROOT cfg)) w1) as [[[]|?] wc]; [|done].
    rewrite Htools. unfold bind at 1, path_exists at 1.
    rewrite bool_decide_true by (rewrite Hops; eauto).
    by rewrite Hrun.
  - done.
  - intros rel d Hrel. eapply copytree_keeps_file; [done|].
    by rewrite (path_snoc merged_source "java"), stat_app, Hjava.
  - by rewrite Hout, Hout2.
Qed.

(** * The version updater, verified *)

(** ** The matcher *)

Section matcher.
Variable U : re.unicode.
Variable ic : bool.

(** Every iteration of a repetition matches a text of the language. *)
Lemma star_sound (step : re.mstate -> list re.mstate) (P : re.text -> Prop) :
  (forall st st', st' ∈ step st -> exists u, re.m_rest st = u ++ re.m_rest st' /\ P u) ->
  forall fuel st st', st' ∈ re.star step fuel st ->
    exists us, re.m_rest st = concat us ++ re.m_rest st' /\ Forall P us.
Proof.
  intros Hstep. induction fuel as [|fuel IH]; intros st st' Hin; simpl in Hin.
  - apply list_elem_of_singleton in Hin as ->. by exists [].
  - apply elem_of_app in Hin as [Hin|Hin].
    + apply list_elem_of_In, in_flat_map in Hin as (st1 & H1 & Hin).
      apply list_elem_of_In in H1, Hin. case_decide; [|by apply elem_of_nil in Hin].
      destruct (Hstep _ _ H1) as (u & Hu & HP).
      destruct (IH _ _ Hin) as (us & Hus & HPs).
      exists (u :: us). split; [|by constructor].
      simpl. by rewrite Hu, Hus, app_assoc.
    + apply list_elem_of_singleton in Hin as ->. by exists [].
Qed.

(** A match consumes a text of the language of the pattern, and leaves the
    rest. *)
Lemma match_at_sound r : forall st st',
  st' ∈ re.match_at U ic r st ->
  exists u, re.m_rest st = u ++ re.m_rest st' /\ re.lang U ic r u.
Proof.
  induction r as [|c| | |r1 IH1 r2 IH2|r1 IH1 r2 IH2|r1 IH1|r1 IH1|n r1 IH1];
    intros st st' Hin; simpl in *.
  - apply list_elem_of_singleton in Hin as ->. by exists [].
  - destruct (re.m_rest st) as [|x s] eqn:Hs; [by apply elem_of_nil in Hin|].
    destruct (re.char_matches U ic x c) eqn:Hc; [|by apply elem_of_nil in Hin].
    apply list_elem_of_singleton in Hin as ->. exists [x]. eauto.
  - destruct (re.m_rest st) as [|x s] eqn:Hs; [by apply elem_of_nil in Hin|].
    destruct (re.isspace U x) eqn:Hc; [|by apply elem_of_nil in Hin].
    apply list_elem_of_singleton in Hin as ->. exists [x]. eauto.
  - destruct (re.at_boundary U _ _); [|by apply elem_of_nil in Hin].
    apply list_elem_of_singleton in Hin as ->. by exists [].
  - apply list_elem_of_In, in_flat_map in Hin as (st1 & H1 & Hin).
    apply list_elem_of_In in H1, Hin.
    destruct (IH1 _ _ H1) as (u1 & Hu1 & HP1).
    destruct (IH2 _ _ Hin) as (u2 & Hu2 & HP2).
    exists (u1 ++ u2). split; [by rewrite Hu1, Hu2, app_assoc|eauto].
  - apply elem_of_app in Hin as [Hin|Hin].
    + destruct (IH1 _ _ Hin) as (u & ? & ?). eauto.
    + destruct (IH2 _ _ Hin) as (u & ? & ?). eauto.
  - apply elem_of_app in Hin as [Hin|Hin].
    + destruct (IH1 _ _ Hin) as (u & ? & ?). eauto.
    + apply list_elem_of_singleton in Hin as ->. exists []. eauto.
  - destruct (star_sound _ _ IH1 _ _ _ Hin) as (us & Hus & HP). eauto.
  - apply list_elem_of_fmap in Hin as (st1 & -> & Hin). simpl.
    destruct (IH1 _ _ Hin) as (u & ? & ?). eauto.
Qed.
End matcher.

(** A literal word matches itself. *)
Lemma lang_lit U w u : re.lang U false (re.lit w) u -> u = w.
Proof.
  revert u. induction w as [|c w IH]; intros u; simpl; [done|].
  intros (u1 & u2 & -> & (x & -> & Hx) & Hw).
  unfold re.char_matches in Hx. simpl in Hx. apply bool_decide_eq_true in Hx as ->.
  by rewrite (IH _ Hw).
Qed.

Lemma match_lit U w : forall b s' g,
  re.match_at U false (re.lit w) (re.MState b (w ++ s') g) =
  [re.MState (match last w with Some c => Some c | None => b end) s' g].
Proof.
  induction w as [|c w IH]; intros b s' g; simpl; [done|].
  unfold re.char_matches. simpl. rewrite bool_decide_true by done. simpl.
  rewrite IH, app_nil_r. destruct w as [|x w']; [done|].
  change (last (c :: x :: w')) with (last (x :: w')).
  destruct (last (x :: w')) eqn:E; [done|]. by apply last_None in E.
Qed.

Lemma match_lit_inv U w : forall st st',
  st' ∈ re.match_at U false (re.lit w) st ->
  st = re.MState (re.m_before st) (w ++ re.m_rest st') (re.m_groups st) /\
  st' = re.MState (match last w with Some c => Some c | None => re.m_before st end)
          (re.m_rest st') (re.m_groups st).
Proof.
  intros [b s g] st' Hin.
  destruct (match_at_sound U false _ _ _ Hin) as (u & Hu & Hl).
  apply lang_lit in Hl as ->. simpl in *. subst s.
  rewrite match_lit in Hin. apply list_elem_of_singleton in Hin as ->. done.
Qed.

(** ** Occurrences *)

Lemma occurs_cons w c s :
  re.occurs w (c :: s) -> w `prefix_of` c :: s \/ re.occurs w s.
Proof.
  intros (l1 & l2 & Heq). destruct l1 as [|x l1]; simpl in Heq.
  - left. by exists l2.
  - right. simplify_eq. by exists l1, l2.
Qed.

Lemma occurs_app x w a b :
  re.occurs (x :: w) (a ++ b) -> x ∈ a \/ re.occurs (x :: w) b.
Proof.
  induction a as [|c a IH]; simpl; [by right|].
  intros [[l2 Heq]|H]%occurs_cons.
  - simpl in Heq. simplify_eq. left. by left.
  - destruct (IH H) as [?|?]; [left; by right|by right].
Qed.

(** An occurrence in [a ++ o] lies in [o], or starts in [a]. *)
Lemma occurs_app_starts (w a o : re.text) :
  re.occurs w (a ++ o) ->
  re.occurs w o \/
  exists a1 b, a = a1 ++ b /\ b <> [] /\ (b `prefix_of` w \/ w `prefix_of` b).
Proof.
  induction a as [|c a IH]; simpl; [by left|].
  intros [Hpre|H]%occurs_cons.
  - right. exists [], (c :: a). split; [done|]. split; [done|].
    apply (prefix_weak_total _ _ ((c :: a) ++ o)); [by apply prefix_app_r|done].
  - destruct (IH H) as [?|(a1 & b & -> & Hb & Hp)]; [by left|].
    right. by exists (c :: a1), b.
Qed.

Lemma occurs_suffix w u s : re.occurs w s -> re.occurs w (u ++ s).
Proof. intros (l1 & l2 & ->). exists (u ++ l1), l2. by rewrite <- app_assoc. Qed.

Lemma occurs_prefix w s u : re.occurs w s -> re.occurs w (s ++ u).
Proof. intros (l1 & l2 & ->). exists l1, (l2 ++ u). by rewrite <- !app_assoc. Qed.

(** ** The loop of [re.sub] *)

Section sub_loop.
Variable U : re.unicode.
Variable ic : bool.
Variable r : re.regex.
Variable repl : re.template.

Local Abbreviation loop := (re.sub_loop U ic r repl).

Local Abbreviation consuming := (re.consuming U ic r).

Lemma loop_step fuel b s :
  loop (S fuel) b s =
  match consuming b s with
  | Some st => re.expand repl st ++ loop fuel (re.m_before st) (re.m_rest st)
  | None =>
      match s with
      | [] => []
      | c :: s' => c :: loop fuel (Some c) s'
      end
  end.
Proof.
  unfold re.consuming. simpl.
  destruct (re.match_at U ic r (re.MState b s [])) as [|st l]; [done|].
  by case_decide.
Qed.

Lemma consuming_inv b s st :
  consuming b s = Some st ->
  length (re.m_rest st) < length s /\
  exists u, s = u ++ re.m_rest st /\ re.lang U ic r u.
Proof.
  unfold re.consuming.
  destruct (re.match_at U ic r (re.MState b s [])) as [|st0 l] eqn:Hm; [done|].
  case_decide; [|done]. intros ?; simplify_eq. split; [done|].
  destruct (match_at_sound U ic r (re.MState b s []) st) as (u & Hu & Hl).
  { rewrite Hm. left. }
  eauto.
Qed.

(** Where every match has a property that texts keep when they are extended,
    and the text does not have it, nothing changes. *)
Lemma loop_nothing_to_do (Q : re.text -> Prop) :
  (forall u l1 l2, Q u -> Q (l1 ++ u ++ l2)) ->
  (forall u, re.lang U ic r u -> Q u) ->
  forall fuel b s, ~ Q s -> loop fuel b s = s.
Proof.
  intros Hext Hneeds. induction fuel as [|fuel IH]; intros b s Hs; [done|].
  rewrite loop_step. destruct (consuming b s) as [st|] eqn:Hc.
  - apply consuming_inv in Hc as (_ & u & -> & Hu).
    destruct Hs. apply (Hext u [] (re.m_rest st)). by apply Hneeds.
  - destruct s as [|c s]; [done|]. f_equal. apply IH.
    intros H. apply Hs. specialize (Hext s [c] [] H).
    by rewrite app_nil_r in Hext.
Qed.
End sub_loop.

(** ** What a replacement cannot leave behind *)

Section sub_literal.
Variable U : re.unicode.
Variable ic : bool.
Variable r : re.regex.
Variable n0 : re.char.
Variable new' : re.text.

Local Abbreviation new := (n0 :: new').
Local Abbreviation loop := (re.sub_loop U ic r [re.Literal new]).
Local Abbreviation consuming := (re.consuming U ic r).

(** A character of the output that is not the first of the replacement was
    copied from the input, where nothing matched. *)
Lemma loop_out_head fuel b s d o :
  length s < fuel -> loop fuel b s = d :: o -> d <> n0 ->
  consuming b s = None /\
  exists s', s = d :: s' /\ o = loop (pred fuel) (Some d) s'.
Proof.
  intros Hf H Hd. destruct fuel as [|fuel]; [lia|].
  rewrite loop_step in H. destruct (consuming b s) as [st|].
  - simpl in H. by simplify_eq.
  - destruct s as [|c s]; [done|]. simplify_eq. eauto.
Qed.

Lemma loop_out_prefix w : Forall (fun d => d <> n0) w ->
  forall fuel b s o, length s < fuel -> loop fuel b s = w ++ o ->
    exists s', s = w ++ s'.
Proof.
  induction w as [|d w IH]; intros Hw fuel b s o Hf H; [by exists s|].
  apply Forall_cons in Hw as [Hd Hw]. simpl in H.
  apply loop_out_head in H as (_ & s1 & -> & Ho); [|done|done].
  destruct (IH Hw (pred fuel) (Some d) s1 o) as [s' ->]; [simpl in Hf; lia|done|].
  by exists s'.
Qed.

(** The word [x :: w] does not occur in the output when it cannot start in
    the replacement, no character of [w] is the first of the replacement,
    and the pattern matches right behind [x] wherever the word occurs in the
    input. *)
Lemma loop_avoids x w :
  (forall a b, new = a ++ b -> b <> [] ->
     ~ b `prefix_of` x :: w /\ ~ (x :: w) `prefix_of` b) ->
  w <> [] -> Forall (fun d => d <> n0) w ->
  forall fuel b s, length s < fuel ->
    (forall l1 l2, s = l1 ++ x :: w ++ l2 ->
       is_Some (consuming (Some x) (w ++ l2))) ->
    ~ re.occurs (x :: w) (loop fuel b s).
Proof.
  intros Hx Hne Hw. induction fuel as [|fuel IH]; intros b s Hf Hmatch; [lia|].
  rewrite loop_step. destruct (consuming b s) as [st|] eqn:Hc.
  - apply consuming_inv in Hc as (Hlt & u & Hs & _).
    intros [Hocc|(a1 & b1 & Heq & Hb1 & Hp)]%occurs_app_starts.
    + revert Hocc. apply IH; [lia|].
      intros l1 l2 Heq. apply (Hmatch (u ++ l1) l2).
      by rewrite Hs, Heq, <- app_assoc.
    + simpl in Heq. rewrite app_nil_r in Heq.
      destruct (Hx a1 b1 Heq Hb1) as [H1 H2]. by destruct Hp.
  - destruct s as [|c s]; [by intros ([|??] & ? & ?)|].
    intros [[o Hpre]|Hocc]%occurs_cons.
    + simpl in Hpre. injection Hpre as -> Hout.
      destruct (loop_out_prefix w Hw fuel (Some x) s o) as [s' ->];
        [simpl in Hf; lia|done|].
      destruct w as [|d w]; [done|]. apply Forall_cons in Hw as [Hd _].
      apply loop_out_head in Hout as [Hnone _];
        [|simpl in *; lia|done].
      destruct (Hmatch [] s' eq_refl) as [st Hst]. by rewrite Hnone in Hst.
    + revert Hocc. apply IH; [simpl in Hf; lia|].
      intros l1 l2 Heq. apply (Hmatch (c :: l1) l2). by rewrite Heq.
Qed.

(** What does not occur in the input and cannot start in the replacement
    does not occur in the output. *)
Lemma loop_keeps_out x w :
  (forall a b, new = a ++ b -> b <> [] ->
     ~ b `prefix_of` x :: w /\ ~ (x :: w) `prefix_of` b) ->
  w <> [] -> Forall (fun d => d <> n0) w ->
  forall fuel b s, length s < fuel ->
    ~ re.occurs (x :: w) s -> ~ re.occurs (x :: w) (loop fuel b s).
Proof.
  intros Hx Hne Hw fuel b s Hf Hs. apply loop_avoids; try done.
  intros l1 l2 Heq. destruct Hs. exists l1, l2. by rewrite Heq.
Qed.
End sub_literal.

(** ** Whole words *)

Lemma match_word U old b s' g c :
  last old = Some c ->
  re.match_at U false (re.Cat re.Boundary (re.Cat (re.lit old) re.Boundary))
    (re.MState b (old ++ s') g) =
  if re.at_boundary U b (old ++ s') && re.at_boundary U (Some c) s'
  then [re.MState (Some c) s' g] else [].
Proof.
  intros Hlast. simpl.
  destruct (re.at_boundary U b (old ++ s')); simpl; [|done].
  rewrite match_lit, Hlast. simpl.
  by destruct (re.at_boundary U (Some c) s').
Qed.

(** A version between two characters that are no word characters is
    matched as a whole word. *)
Lemma word_is_matched U old x y l c0 c :
  head old = Some c0 -> last old = Some c ->
  re.isword U x = false -> re.isword U y = false ->
  re.isword U c0 = true -> re.isword U c = true ->
  is_Some (re.consuming U false
             (re.Cat re.Boundary (re.Cat (re.lit old) re.Boundary))
             (Some x) ((old ++ [y]) ++ l)).
Proof.
  intros Hhead Hlast Hx Hy Hc0 Hc. unfold re.consuming.
  rewrite <- app_assoc. rewrite (match_word U old _ _ _ c Hlast).
  destruct old as [|o old']; [done|]. simpl in Hhead. simplify_eq.
  unfold re.at_boundary at 1 2. simpl. rewrite Hx, Hy, Hc0, Hc. simpl.
  rewrite decide_True; [eauto|]. rewrite length_app. simpl. lia.
Qed.

(** ** Nothing but the versions is edited *)

Lemma edits_trans rules s o p : edits rules s o -> edits rules o p -> edits rules s p.
Proof. induction 1; [done|]. intros. eapply edits_step; eauto. Qed.

Lemma edits_context rules l1 l2 s o :
  edits rules s o -> edits rules (l1 ++ s ++ l2) (l1 ++ o ++ l2).
Proof.
  induction 1 as [s|a old new b o Hin _ IH]; [constructor|].
  replace (l1 ++ (a ++ old ++ b) ++ l2) with ((l1 ++ a) ++ old ++ (b ++ l2))
    by (by rewrite <- !app_assoc).
  eapply edits_step; [done|].
  replace ((l1 ++ a) ++ new ++ b ++ l2) with (l1 ++ (a ++ new ++ b) ++ l2)
    by (by rewrite <- !app_assoc).
  done.
Qed.

Lemma edits_one rules l1 old new l2 :
  (old, new) ∈ rules -> edits rules (l1 ++ old ++ l2) (l1 ++ new ++ l2).
Proof. intros. eapply edits_step; [done|constructor]. Qed.

Lemma edits_at rules l1 old new l2 s o :
  (old, new) ∈ rules -> s = l1 ++ old ++ l2 -> o = l1 ++ new ++ l2 ->
  edits rules s o.
Proof. intros ? -> ->. by apply edits_one. Qed.

Lemma edits_length rules s o :
  Forall (fun rule => length (fst rule) = length (snd rule)) rules ->
  edits rules s o -> length s = length o.
Proof.
  intros Hrules. induction 1 as [s|a old new b o Hin _ IH]; [done|].
  rewrite <- IH, !length_app. rewrite Forall_forall in Hrules.
  pose proof (Hrules _ Hin) as Hlen. simpl in Hlen. lia.
Qed.

Section matcher_groups.
Variable U : re.unicode.
Variable ic : bool.

Lemma star_groups (step : re.mstate -> list re.mstate) :
  (forall st st', st' ∈ step st -> re.m_groups st' = re.m_groups st) ->
  forall fuel st st', st' ∈ re.star step fuel st -> re.m_groups st' = re.m_groups st.
Proof.
  intros Hstep. induction fuel as [|fuel IH]; intros st st' Hin; simpl in Hin.
  - by apply list_elem_of_singleton in Hin as ->.
  - apply elem_of_app in Hin as [Hin|Hin].
    + apply list_elem_of_In, in_flat_map in Hin as (st1 & H1 & Hin).
      apply list_elem_of_In in H1, Hin. case_decide; [|by apply elem_of_nil in Hin].
      by rewrite (IH _ _ Hin), (Hstep _ _ H1).
    + by apply list_elem_of_singleton in Hin as ->.
Qed.

(** A pattern without groups captures nothing. *)
Lemma match_at_groups r : re.group_free r = true ->
  forall st st', st' ∈ re.match_at U ic r st -> re.m_groups st' = re.m_groups st.
Proof.
  induction r as [|c| | |r1 IH1 r2 IH2|r1 IH1 r2 IH2|r1 IH1|r1 IH1|n r1 IH1];
    intros Hfree st st' Hin; simpl in *; try done.
  - by apply list_elem_of_singleton in Hin as ->.
  - destruct (re.m_rest st) as [|x s]; [by apply elem_of_nil in Hin|].
    destruct (re.char_matches U ic x c); [|by apply elem_of_nil in Hin].
    by apply list_elem_of_singleton in Hin as ->.
  - destruct (re.m_rest st) as [|x s]; [by apply elem_of_nil in Hin|].
    destruct (re.isspace U x); [|by apply elem_of_nil in Hin].
    by apply list_elem_of_singleton in Hin as ->.
  - destruct (re.at_boundary U _ _); [|by apply elem_of_nil in Hin].
    by apply list_elem_of_singleton in Hin as ->.
  - apply andb_true_iff in Hfree as [H1 H2].
    apply list_elem_of_In, in_flat_map in Hin as (st1 & Hst1 & Hin).
    apply list_elem_of_In in Hst1, Hin.
    by rewrite (IH2 H2 _ _ Hin), (IH1 H1 _ _ Hst1).
  - apply andb_true_iff in Hfree as [H1 H2].
    apply elem_of_app in Hin as [Hin|Hin]; eauto.
  - apply elem_of_app in Hin as [Hin|Hin]; [eauto|].
    by apply list_elem_of_singleton in Hin as ->.
  - eapply star_groups; [|done]. eauto.
Qed.

(** A group captures the text that its pattern consumed. *)
Lemma match_group n r st st' :
  re.group_free r = true ->
  st' ∈ re.match_at U ic (re.Group n r) st ->
  exists u, re.m_rest st = u ++ re.m_rest st' /\ re.lang U ic r u /\
            re.m_groups st' = (n, u) :: re.m_groups st.
Proof.
  intros Hfree Hin. simpl in Hin.
  apply list_elem_of_fmap in Hin as (st1 & -> & Hin). simpl.
  destruct (match_at_sound U ic r _ _ Hin) as (u & Hu & Hl).
  exists u. split; [done|]. split; [done|].
  rewrite (match_at_groups r Hfree _ _ Hin), Hu, length_app.
  replace (length u + length (re.m_rest st1) - length (re.m_rest st1))
    with (length u) by lia.
  by rewrite take_app_length.
Qed.

(** The patterns [(a)x(b)] of the script, replaced by [\1 new \2]: the
    groups are put back around the replacement of [x]. *)
Lemma match_between_groups a x b new st st' :
  re.group_free a = true -> re.group_free x = true -> re.group_free b = true ->
  st' ∈ re.match_at U ic (re.Cat (re.Group 1 a) (re.Cat x (re.Group 2 b))) st ->
  exists u1 ux u2,
    re.m_rest st = u1 ++ ux ++ u2 ++ re.m_rest st' /\
    re.lang U ic x ux /\
    re.expand [re.GroupRef 1; re.Literal new; re.GroupRef 2] st' = u1 ++ new ++ u2.
Proof.
  intros Ha Hx Hb Hin. cbn [re.match_at] in Hin.
  apply list_elem_of_In, in_flat_map in Hin as (st1 & H1 & Hin).
  apply in_flat_map in Hin as (st2 & H2 & Hin).
  apply list_elem_of_In in H1, H2, Hin.
  apply (match_group 1 a) in H1 as (u1 & Hu1 & _ & Hg1); [|done].
  destruct (match_at_sound U ic x _ _ H2) as (ux & Hux & Hlx).
  pose proof (match_at_groups x Hx _ _ H2) as Hg2.
  apply (match_group 2 b) in Hin as (u2 & Hu2 & _ & Hg3); [|done].
  exists u1, ux, u2. split; [by rewrite Hu1, Hux, Hu2|]. split; [done|].
  unfold re.expand. simpl. rewrite Hg3, Hg2, Hg1. simpl.
  by rewrite app_nil_r.
Qed.
End matcher_groups.

Section sub_edits.
Variable U : re.unicode.
Variable ic : bool.
Variable r : re.regex.
Variable repl : re.template.
Variable rules : list (re.text * re.text).

(** When every replacement is an edit of what was matched, the output of
    [re.sub] is an edit of the input. *)
Lemma loop_edits :
  (forall b s st, re.consuming U ic r b s = Some st ->
     exists u, s = u ++ re.m_rest st /\ edits rules u (re.expand repl st)) ->
  forall fuel b s, edits rules s (re.sub_loop U ic r repl fuel b s).
Proof.
  intros Hrepl. induction fuel as [|fuel IH]; intros b s; [constructor|].
  rewrite loop_step. destruct (re.consuming U ic r b s) as [st|] eqn:Hc.
  - destruct (Hrepl _ _ _ Hc) as (u & -> & Hu).
    eapply edits_trans.
    + apply (edits_context rules [] (re.m_rest st)), Hu.
    + simpl. specialize (IH (re.m_before st) (re.m_rest st)).
      apply (edits_context rules (re.expand repl st) []) in IH.
      by rewrite !app_nil_r in IH.
  - destruct s as [|c s]; [constructor|].
    specialize (IH (Some c) s). apply (edits_context rules [c] []) in IH.
    by rewrite !app_nil_r in IH.
Qed.
End sub_edits.

Lemma consuming_match U ic r b s st :
  re.consuming U ic r b s = Some st ->
  st ∈ re.match_at U ic r (re.MState b s []).
Proof.
  unfold re.consuming.
  destruct (re.match_at U ic r (re.MState b s [])) as [|st0 l]; [done|].
  case_decide; [|done]. intros ?; simplify_eq. left.
Qed.

Section version_updater.
Import update_java_version_docs.

(** ** The patterns of the version updater *)

Lemma occurs_trans v w u : re.occurs v w -> re.occurs w u -> re.occurs v u.
Proof.
  intros (a & b & ->) (l1 & l2 & ->). exists (l1 ++ a), (b ++ l2).
  by rewrite <- !app_assoc.
Qed.

Lemma occurs_ext w u l1 l2 : re.occurs w u -> re.occurs w (l1 ++ u ++ l2).
Proof. intros H. by apply occurs_suffix, occurs_prefix. Qed.

Lemma sub_nothing_to_do U (Q : re.text -> Prop) pattern repl string fl :
  (forall u l1 l2, Q u -> Q (l1 ++ u ++ l2)) ->
  (forall u, re.lang U (re.IGNORECASE fl) pattern u -> Q u) ->
  ~ Q string -> re.sub U pattern repl string fl = string.
Proof. intros. unfold re.sub. by eapply loop_nothing_to_do. Qed.

Lemma apply_pattern_fst U fl describe acc p :
  fst (apply_pattern U fl describe acc p) = re.sub U (fst p) (snd p) (fst acc) fl.
Proof.
  destruct acc, p. simpl. case_decide as H; [done|]. simpl.
  try apply dec_stable in H. congruence.
Qed.

Lemma apply_pattern_same U fl describe c ch pattern repl :
  re.sub U pattern repl c fl = c ->
  apply_pattern U fl describe (c, ch) (pattern, repl) = (c, ch).
Proof. intros H. simpl. by rewrite decide_False by (by intros []). Qed.

Lemma apply_pattern_changes U fl describe (P : change -> Prop) acc p :
  (forall pattern repl, P (describe pattern repl)) ->
  Forall P (snd acc) -> Forall P (snd (apply_pattern U fl describe acc p)).
Proof.
  intros Hd Hacc. destruct acc, p. simpl. case_decide; [|done].
  simpl. apply Forall_app. split; [done|]. by apply Forall_singleton.
Qed.

Lemma lang_word U old u :
  re.lang U false (re.Cat re.Boundary (re.Cat (re.lit old) re.Boundary)) u -> u = old.
Proof.
  simpl. intros (u1 & u2 & -> & -> & u3 & u4 & -> & Hl & ->).
  apply lang_lit in Hl as ->. by rewrite app_nil_r.
Qed.

(** Every version pattern needs the old version, or the old snapshot. *)
Lemma version_patterns_need_the_version U p u :
  p ∈ VERSION_PATTERNS -> re.lang U false (fst p) u ->
  re.occurs (re.chars OLD_VERSION) u \/ re.occurs (re.chars OLD_SNAPSHOT) u.
Proof.
  unfold VERSION_PATTERNS. intros Hp Hl.
  repeat (apply elem_of_cons in Hp as [->|Hp]); [..|by apply elem_of_nil in Hp];
    cbn [fst] in Hl.
  - apply lang_lit in Hl as ->. left.
    by exists (re.chars "<version>"), (re.chars "</version>").
  - apply lang_lit in Hl as ->. left.
    by exists (re.chars "version: '"), (re.chars "'").
  - apply lang_lit in Hl as ->. left.
    by exists (re.chars ("version: " ++ dquote)), (re.chars dquote).
  - apply lang_word in Hl as ->. left. by exists [], [].
  - apply lang_word in Hl as ->. right. by exists [], [].
Qed.

(** The Maven pattern needs a version between [>] and [<], the Gradle
    pattern a version between two quotes. *)
Lemma maven_pattern_needs U u :
  re.lang U false
    (re.Cat
       (re.Group 1
          (re.Cat (re.lit (re.chars "<dependency>"))
          (re.Cat (re.Star re.Space)
          (re.Cat (re.lit (re.chars "<groupId>org.tensorflow</groupId>"))
          (re.Cat (re.Star re.Space)
          (re.Cat (re.lit (re.chars "<artifactId>tensorflow-core-platform</artifactId>"))
          (re.Cat (re.Star re.Space)
                  (re.lit (re.chars "<version>")))))))))
       (re.Cat (re.lit (re.chars "0.3.3"))
               (re.Group 2 (re.lit (re.chars "</version>"))))) u ->
  re.occurs (re.chars ">0.3.3<") u.
Proof.
  cbn [re.lang].
  intros (u1 & u2 & -> & (a & u3 & -> & _ & s1 & u4 & -> & _ & b & u5 & -> & _ &
            s2 & u6 & -> & _ & c & u7 & -> & _ & s3 & d & -> & _ & Hd) &
          v & e & -> & Hv & He).
  apply lang_lit in Hd as ->. apply lang_lit in Hv as ->. apply lang_lit in He as ->.
  exists (a ++ s1 ++ b ++ s2 ++ c ++ s3 ++ re.chars "<version"), (re.chars "/version>").
  rewrite <- !app_assoc. do 6 f_equal.
Qed.

Lemma gradle_pattern_needs U u :
  re.lang U false
    (re.Cat
       (re.Group 1
          (re.lit (re.chars
             "compile group: 'org.tensorflow', name: 'tensorflow-core-platform', version: '")))
       (re.Cat (re.lit (re.chars "0.3.3"))
               (re.Group 2 (re.lit (re.chars "'"))))) u ->
  re.occurs (re.chars "'0.3.3'") u.
Proof.
  cbn [re.lang]. intros (u1 & u2 & -> & Hg & v & e & -> & Hv & He).
  apply lang_lit in Hg as ->. apply lang_lit in Hv as ->. apply lang_lit in He as ->.
  by exists (re.chars
    "compile group: 'org.tensorflow', name: 'tensorflow-core-platform', version: "), [].
Qed.

Lemma fold_patterns_same U fl describe pats c ch :
  (forall p, p ∈ pats -> re.sub U (fst p) (snd p) c fl = c) ->
  fold_left (apply_pattern U fl describe) pats (c, ch) = (c, ch).
Proof.
  induction pats as [|[pattern repl] pats IH]; intros H; [done|].
  cbn [fold_left]. rewrite apply_pattern_same by (apply (H (pattern, repl)); left).
  apply IH. intros p Hp. apply H. by right.
Qed.

Lemma fold_patterns_changes U fl describe (P : change -> Prop) pats : forall acc,
  (forall pattern repl, P (describe pattern repl)) ->
  Forall P (snd acc) -> Forall P (snd (fold_left (apply_pattern U fl describe) pats acc)).
Proof.
  induction pats as [|p pats IH]; intros acc Hd Hacc; [done|].
  cbn [fold_left]. apply IH; [done|]. by apply apply_pattern_changes.
Qed.

Lemma dependency_patterns_need_the_version U p u :
  p ∈ DEPENDENCY_PATTERNS -> re.lang U false (fst p) u ->
  re.occurs (re.chars OLD_VERSION) u.
Proof.
  unfold DEPENDENCY_PATTERNS. intros Hp Hl.
  repeat (apply elem_of_cons in Hp as [->|Hp]); [..|by apply elem_of_nil in Hp];
    cbn [fst] in Hl.
  - apply maven_pattern_needs in Hl. eapply occurs_trans; [|done].
    by exists (re.chars ">"), (re.chars "<").
  - apply gradle_pattern_needs in Hl. eapply occurs_trans; [|done].
    by exists (re.chars "'"), (re.chars "'").
Qed.

(** X11: content in which neither the old version nor the old snapshot
    version occurs is returned as it is, with no change reported. *)
Theorem nothing_to_update U content dry_run :
  ~ re.occurs (re.chars OLD_VERSION) content ->
  ~ re.occurs (re.chars OLD_SNAPSHOT) content ->
  update_file_content U content dry_run = (content, []).
Proof.
  intros Hv Hs. unfold update_file_content.
  set (Q := fun u => re.occurs (re.chars OLD_VERSION) u \/
                     re.occurs (re.chars OLD_SNAPSHOT) u).
  assert (forall u l1 l2, Q u -> Q (l1 ++ u ++ l2)) as Hext.
  { intros u l1 l2 [H|H]; [left|right]; by apply occurs_ext. }
  assert (~ Q content) as HQ by (by intros [?|?]).
  rewrite !fold_patterns_same; [done| |].
  - intros p Hp. apply (sub_nothing_to_do U Q); [done| |done].
    intros u Hu. left. by eapply dependency_patterns_need_the_version.
  - intros p Hp. apply (sub_nothing_to_do U Q); [done| |done].
    intros u Hu. by eapply version_patterns_need_the_version.
Qed.

(** ** The dependency patterns come too late *)

Section after_the_generic_pattern.
Variable U : re.unicode.
Hypothesis HU : extends_ascii U.
Variables x y : re.char.
Hypothesis Hxw : re.isword U x = false.
Hypothesis Hyw : re.isword U y = false.
Hypothesis Hxdot : x <> re.chr ".".

Local Lemma not_a_word_character c :
  (c < 128)%N -> re.isword U_ascii c = true -> x <> c /\ y <> c.
Proof.
  intros Hc Hw. destruct (HU c Hc) as (_ & Hword & _). rewrite Hw in Hword.
  split; intros <-; congruence.
Qed.

(** A suffix of the replacement is no start of the word: it starts with a
    word character, or goes on differently. *)
Local Ltac no_start :=
  intros a b Heq Hb; vm_compute in Heq;
  repeat (destruct a as [|? a];
          [simpl in Heq; subst b;
           first
             [ done
             | match goal with
               | |- context [?c :: _] =>
                   try (destruct (not_a_word_character c ltac:(done) eq_refl) as [? ?])
               end;
               split; intros [k Hk]; vm_compute in Hk; congruence ]
          |simpl in Heq; first [discriminate Heq|injection Heq as <- Heq]]).

(** After the generic pattern no old version stands between [x] and [y]. *)
Lemma generic_pattern_leaves_none s :
  ~ re.occurs (x :: re.chars "0.3.3" ++ [y])
      (re.sub U (re.Cat re.Boundary (re.Cat (re.lit (re.chars OLD_VERSION)) re.Boundary))
         [re.Literal (re.chars NEW_VERSION)] s re.no_flags).
Proof.
  unfold re.sub.
  pose proof Hxdot as Hdot. unfold not in Hdot. vm_compute in Hdot.
  apply (loop_avoids U false _ (re.chr "1") (re.chars ".1.0") x
           (re.chars "0.3.3" ++ [y])).
  - no_start.
  - done.
  - destruct (not_a_word_character (re.chr "1") ltac:(done) eq_refl) as [_ ?].
    repeat (constructor; [done|]). constructor.
  - lia.
  - intros l1 l2 _.
    apply (word_is_matched U (re.chars "0.3.3") x y l2 (re.chr "0") (re.chr "3"));
      try done.
    + by destruct (HU (re.chr "0")) as (_ & -> & _).
    + by destruct (HU (re.chr "3")) as (_ & -> & _).
Qed.

(** The snapshot pattern does not bring one back. *)
Lemma snapshot_pattern_keeps_none s :
  ~ re.occurs (x :: re.chars "0.3.3" ++ [y]) s ->
  ~ re.occurs (x :: re.chars "0.3.3" ++ [y])
      (re.sub U (re.Cat re.Boundary (re.Cat (re.lit (re.chars OLD_SNAPSHOT)) re.Boundary))
         [re.Literal (re.chars NEW_SNAPSHOT)] s re.no_flags).
Proof.
  intros Hs. unfold re.sub.
  pose proof Hxdot as Hdot. unfold not in Hdot. vm_compute in Hdot.
  apply (loop_keeps_out U false _ (re.chr "1") (re.chars ".2.0-SNAPSHOT") x
           (re.chars "0.3.3" ++ [y])); [| | |lia|done].
  - no_start.
  - done.
  - destruct (not_a_word_character (re.chr "1") ltac:(done) eq_refl) as [_ ?].
    repeat (constructor; [done|]). constructor.
Qed.

(** After the snapshot pattern no old snapshot stands between [x] and [y]. *)
Lemma snapshot_pattern_leaves_none s :
  ~ re.occurs (x :: re.chars "0.4.0-SNAPSHOT" ++ [y])
      (re.sub U (re.Cat re.Boundary (re.Cat (re.lit (re.chars OLD_SNAPSHOT)) re.Boundary))
         [re.Literal (re.chars NEW_SNAPSHOT)] s re.no_flags).
Proof.
  clear Hxdot. unfold re.sub.
  apply (loop_avoids U false _ (re.chr "1") (re.chars ".2.0-SNAPSHOT") x
           (re.chars "0.4.0-SNAPSHOT" ++ [y])).
  - no_start.
  - done.
  - destruct (not_a_word_character (re.chr "1") ltac:(done) eq_refl) as [_ ?].
    repeat (constructor; [done|]). constructor.
  - lia.
  - intros l1 l2 _.
    apply (word_is_matched U (re.chars "0.4.0-SNAPSHOT") x y l2 (re.chr "0") (re.chr "T"));
      try done.
    + by destruct (HU (re.chr "0")) as (_ & -> & _).
    + by destruct (HU (re.chr "T")) as (_ & -> & _).
Qed.

Lemma version_patterns_leave_none content :
  ~ re.occurs (x :: re.chars "0.3.3" ++ [y])
      (fst (fold_left (apply_pattern U re.no_flags Updated_version_reference)
              VERSION_PATTERNS (content, []))).
Proof.
  unfold VERSION_PATTERNS. cbn [fold_left].
  rewrite !apply_pattern_fst. cbn [fst snd].
  apply snapshot_pattern_keeps_none, generic_pattern_leaves_none.
Qed.

Lemma version_patterns_leave_no_snapshot content :
  ~ re.occurs (x :: re.chars "0.4.0-SNAPSHOT" ++ [y])
      (fst (fold_left (apply_pattern U re.no_flags Updated_version_reference)
              VERSION_PATTERNS (content, []))).
Proof.
  unfold VERSION_PATTERNS. cbn [fold_left].
  rewrite !apply_pattern_fst. cbn [fst snd].
  apply snapshot_pattern_leaves_none.
Qed.
End after_the_generic_pattern.

Lemma update_file_content_is_the_version_loop U content dry_run :
  extends_ascii U ->
  update_file_content U content dry_run =
    fold_left (apply_pattern U re.no_flags Updated_version_reference)
      VERSION_PATTERNS (content, []).
Proof.
  intros HU. unfold update_file_content.
  destruct (fold_left (apply_pattern U re.no_flags Updated_version_reference)
              VERSION_PATTERNS (content, [])) as [c ch] eqn:Hfold.
  assert (forall k, (k < 128)%N -> re.isword U_ascii k = false ->
                    re.isword U k = false) as Hnw.
  { intros k Hk Hw. by destruct (HU k Hk) as (_ & -> & _). }
  pose proof (version_patterns_leave_none U HU (re.chr ">") (re.chr "<")
                (Hnw (re.chr ">") eq_refl eq_refl) (Hnw (re.chr "<") eq_refl eq_refl)
                ltac:(done) content) as Hmaven.
  pose proof (version_patterns_leave_none U HU (re.chr "'") (re.chr "'")
                (Hnw (re.chr "'") eq_refl eq_refl) (Hnw (re.chr "'") eq_refl eq_refl)
                ltac:(done) content) as Hgradle.
  rewrite Hfold in Hmaven, Hgradle. cbn [fst] in Hmaven, Hgradle.
  unfold DEPENDENCY_PATTERNS. cbn [fold_left].
  rewrite apply_pattern_same.
  - rewrite apply_pattern_same; [done|].
    apply (sub_nothing_to_do U (re.occurs (re.chars "'0.3.3'")));
      [intros; by apply occurs_ext|apply gradle_pattern_needs|done].
  - apply (sub_nothing_to_do U (re.occurs (re.chars ">0.3.3<")));
      [intros; by apply occurs_ext|apply maven_pattern_needs|done].
Qed.

(** X12: the dependency patterns never apply.  Whatever the content, once
    the version patterns have run, no old version is left between [>] and
    [<] or between two quotes, where the Maven and the Gradle pattern need
    one: the second loop of [update_file_content] changes nothing, and
    "Updated dependency" is never reported. *)
Theorem dependency_patterns_never_apply U content dry_run :
  extends_ascii U ->
  update_file_content U content dry_run =
    fold_left (apply_pattern U re.no_flags Updated_version_reference)
      VERSION_PATTERNS (content, []) /\
  Updated_dependency ∉ snd (update_file_content U content dry_run).
Proof.
  intros HU. split; [by apply update_file_content_is_the_version_loop|].
  rewrite update_file_content_is_the_version_loop by done.
  assert (Forall (fun c => c <> Updated_dependency)
            (snd (fold_left (apply_pattern U re.no_flags Updated_version_reference)
                    VERSION_PATTERNS (content, [])))) as Hall.
  { by apply fold_patterns_changes. }
  rewrite Forall_forall in Hall. intros Hin. by apply (Hall _ Hin).
Qed.

(** X13: the old versions are gone.  In the content that
    [update_file_content] returns, the old snapshot version stands nowhere
    between two characters that are no word characters, and the old version
    stands nowhere between two such characters unless the first is a dot. *)
Theorem old_versions_are_gone U content dry_run x y :
  extends_ascii U ->
  re.isword U x = false -> re.isword U y = false ->
  ~ re.occurs (x :: re.chars OLD_SNAPSHOT ++ [y])
      (fst (update_file_content U content dry_run)) /\
  (x <> re.chr "." ->
   ~ re.occurs (x :: re.chars OLD_VERSION ++ [y])
       (fst (update_file_content U content dry_run))).
Proof.
  intros HU Hx Hy. rewrite update_file_content_is_the_version_loop by done.
  split.
  - exact (version_patterns_leave_no_snapshot U HU x y Hx Hy content).
  - intros Hdot. exact (version_patterns_leave_none U HU x y Hx Hy Hdot content).
Qed.

(** ** The Java requirement *)

Lemma lang_spaces U ic u :
  re.lang U ic (re.Plus re.Space) u ->
  exists v c, u = v ++ [c] /\ re.isspace U c = true.
Proof.
  cbn [re.Plus re.lang].
  intros (u1 & u2 & -> & (x & -> & Hx) & us & -> & Hus).
  induction us as [|w us IH] using rev_ind.
  - exists [], x. done.
  - apply Forall_app in Hus as [_ Hw]. apply Forall_singleton in Hw as (c & -> & Hc).
    exists ([x] ++ concat us), c. split; [|done].
    by rewrite concat_app, <- app_assoc.
Qed.

Lemma java_req_pattern_needs U u :
  re.iscased U (re.chr "8") = false ->
  re.lang U true java_req_pattern u -> space_then_8 U u.
Proof.
  intros H8. unfold java_req_pattern.
  cbn [re.lang].
  intros (u1 & u2 & -> & (j & sp & -> & _ & Hsp) & e & g & -> & (x & -> & Hx) & _).
  apply lang_spaces in Hsp as (v & c & -> & Hc).
  unfold re.char_matches in Hx. rewrite H8 in Hx. simpl in Hx.
  apply bool_decide_eq_true in Hx as ->.
  exists (j ++ v), c, g. split; [|done]. by rewrite <- !app_assoc.
Qed.

(** X14: the Java requirement is updated only where a white space stands
    before the digit 8; content without one is returned as it is, with no
    change reported. *)
Theorem java_requirement_needs_a_space_and_8 U content :
  extends_ascii U ->
  ~ space_then_8 U content ->
  update_java_requirements_section U content = (content, []).
Proof.
  intros HU Hc.
  assert (re.iscased U (re.chr "8") = false) as H8.
  { by destruct (HU (re.chr "8")) as (_ & _ & ->). }
  unfold update_java_requirements_section.
  rewrite (sub_nothing_to_do U (space_then_8 U)); [|..|done].
  - by rewrite decide_False by (by intros []).
  - intros u l1 l2 (a & c & b & -> & Hsp).
    exists (l1 ++ a), c, (b ++ l2). split; [|done]. by rewrite <- !app_assoc.
  - intros u. by apply java_req_pattern_needs.
Qed.

(** ** One file *)

Lemma open_read_stat t p b :
  open_read t p = inr b <-> stat t p = Some (File b).
Proof.
  revert t. induction p as [|n p IH]; intros t; simpl.
  - destruct t; split; intros; by simplify_eq.
  - destruct t as [|es]; [done|]. destruct (assoc n es); [apply IH|done].
Qed.


(** Writing over a regular file succeeds, and changes the kind of nothing. *)
Lemma fs_write_over_file data t p b :
  stat t p = Some (File b) ->
  exists t', fs_write data t p = inr t' /\
    stat t' p = Some (File data) /\
    (forall q, apart p q -> stat t' q = stat t q) /\
    (forall q, kind (stat t' q) = kind (stat t q)).
Proof.
  intros Hp. destruct (walk_existing_ok false (write_leaf data) t p (File b) (File data))
    as [t' Hw]; [done|done|].
  exists t'. split; [done|]. split; [by eapply fs_write_target|].
  split; [intros q Hq; by eapply walk_frame|].
  intros q. destruct (path_cases p q) as [Hap|[[r ->]|(r & Hr & ->)]].
  - by rewrite (walk_frame _ _ _ _ _ _ Hw Hap).
  - rewrite !stat_app, Hp, (fs_write_target _ _ _ _ Hw).
    destruct r; [done|]. by rewrite !stat_File_below.
  - destruct (walk_above _ _ _ _ _ _ Hw Hr) as [es ->].
    destruct (stat_above_is_Dir _ _ _ _ Hp Hr) as [es' ->]. done.
Qed.

(** The run of [process_file] on a file that can be read. *)
Lemma process_file_read io U file_path dry_run w b original :
  stat (fs w) file_path = Some (File b) ->
  decode io b = inr original ->
  process_file io U file_path dry_run w =
  let changes :=
    snd (update_file_content U original false) ++
    snd (update_java_requirements_section U
           (fst (update_file_content U original false))) in
  if decide (updated_text U original <> original) then
    (true,
     fold_left (fun w c => print (Change c) w) changes
       (if dry_run then print (Would_update file_path) w
        else print (Updated file_path)
               {| fs := match fs_write (encode io (updated_text U original))
                                (fs w) file_path with
                        | inr t => t
                        | inl _ => fs w
                        end;
                  stdout := stdout w |}))
  else (false, print (No_changes_needed file_path) w).
Proof.
  intros Hs Hd. unfold process_file, process_file_body, updated_text.
  apply open_read_stat in Hs as Hr. rewrite Hr, Hd.
  assert (update_file_content U original dry_run = update_file_content U original false)
    as -> by done.
  destruct (update_file_content U original false) as [c1 ch1]. cbn [fst snd].
  destruct (update_java_requirements_section U c1) as [c2 ch2]. cbn [fst snd].
  case_decide; [|done].
  destruct dry_run; simpl negb; cbv iota; [done|].
  destruct (fs_write_over_file (encode io c2) _ _ _ Hs) as (t' & -> & _). done.
Qed.

Lemma process_file_unreadable io U file_path dry_run w e :
  (open_read (fs w) file_path = inl e \/
   exists b, open_read (fs w) file_path = inr b /\ decode io b = inl e) ->
  process_file io U file_path dry_run w =
  (false, print (Error_processing file_path e) w).
Proof.
  unfold process_file, process_file_body.
  intros [->|(b & -> & ->)]; done.
Qed.

Lemma fold_print_changes changes : forall w,
  fs (fold_left (fun w c => print (Change c) w) changes w) = fs w /\
  stdout (fold_left (fun w c => print (Change c) w) changes w) =
    stdout w ++ map Change changes.
Proof.
  induction changes as [|c changes IH]; intros w; simpl.
  - by rewrite app_nil_r.
  - destruct (IH (print (Change c) w)) as [-> ->]. simpl.
    by rewrite <- app_assoc.
Qed.



(** ** All the files *)

Lemma process_file_facts io U file_path dry_run w :
  (dry_run = true -> fs (snd (process_file io U file_path dry_run w)) = fs w) /\
  (forall q, kind (stat (fs (snd (process_file io U file_path dry_run w))) q)
             = kind (stat (fs w) q)) /\
  (fst (process_file io U file_path dry_run w) = true ->
   is_Some (stat (fs w) file_path)) /\
  exists out, stdout (snd (process_file io U file_path dry_run w)) = stdout w ++ out.
Proof.
  destruct (open_read (fs w) file_path) as [e|b] eqn:Hr.
  { rewrite (process_file_unreadable io U file_path _ w e) by eauto.
    split_and!; try done. by exists [Error_processing file_path e]. }
  destruct (decode io b) as [e|original] eqn:Hd.
  { rewrite (process_file_unreadable io U file_path _ w e) by eauto.
    split_and!; try done. by exists [Error_processing file_path e]. }
  apply open_read_stat in Hr.
  rewrite (process_file_read io U file_path _ w b original) by done.
  cbv zeta. case_decide as Hne.
  - destruct (fs_write_over_file (encode io (updated_text U original)) _ _ _ Hr)
      as (t' & Hw & _ & _ & Hkind).
    rewrite Hw. cbn [fst snd].
    rewrite (proj1 (fold_print_changes _ _)), (proj2 (fold_print_changes _ _)).
    split_and!.
    + by intros ->.
    + by destruct dry_run.
    + intros _. rewrite Hr. eauto.
    + destruct dry_run; simpl; rewrite <- app_assoc; eauto.
  - split_and!; try done. by exists [No_changes_needed file_path].
Qed.

Lemma main_loop_facts io U a l : forall n w,
  let r := fold_left (main_loop io U a) l (n, w) in
  (dry_run a = true -> fs (snd r) = fs w) /\
  (forall q, kind (stat (fs (snd r)) q) = kind (stat (fs w) q)) /\
  fst r <= n + length (filter (fun p => is_Some (stat (fs w) p)) l) /\
  exists out, stdout (snd r) = stdout w ++ out /\
    forall p, p ∈ l -> stat (fs w) p = None -> File_not_found p ∈ out.
Proof.
  induction l as [|p l IH]; intros n w; cbn zeta.
  { simpl. split_and!; try done; [lia|]. exists []. rewrite app_nil_r.
    split; [done|]. intros p Hp. by apply elem_of_nil in Hp. }
  cbn [fold_left].
  assert (main_loop io U a (n, w) p =
          if bool_decide (is_Some (stat (fs w) p)) then
            (if fst (process_file io U p (dry_run a) w) then n + 1 else n,
             snd (process_file io U p (dry_run a) w))
          else (n, print (File_not_found p) w)) as ->.
  { unfold main_loop. destruct (bool_decide _); simpl; [|done].
    by destruct (process_file io U p (dry_run a) w). }
  destruct (process_file_facts io U p (dry_run a) w) as (Hdry & Hkind & Htrue & out1 & Hout1).
  assert (forall w1 : world,
            (forall q, kind (stat (fs w1) q) = kind (stat (fs w) q)) ->
            filter (fun p => is_Some (stat (fs w1) p)) l =
            filter (fun p => is_Some (stat (fs w) p)) l) as Hsame.
  { intros w1 Hk. apply list_filter_iff. intros q. specialize (Hk q).
    destruct (stat (fs w1) q) as [[|]|], (stat (fs w) q) as [[|]|];
      simplify_eq/=; split; intros [? ?]; by eauto. }
  rewrite filter_cons.
  destruct (bool_decide (is_Some (stat (fs w) p))) eqn:Hex.
  - apply bool_decide_eq_true in Hex. rewrite decide_True by done.
    set (updated := fst (process_file io U p (dry_run a) w)) in *.
    set (w1 := snd (process_file io U p (dry_run a) w)) in *.
    destruct (IH (if updated then n + 1 else n) w1)
      as (Hdry' & Hkind' & Hle & out & Hout & Hmiss).
    cbn zeta in *. split_and!.
    + intros Hd. by rewrite Hdry', Hdry.
    + intros q. by rewrite Hkind', Hkind.
    + rewrite (Hsame w1 Hkind) in Hle. simpl. destruct updated; lia.
    + exists (out1 ++ out). split; [by rewrite Hout, Hout1, app_assoc|].
      intros q [->|Hq]%elem_of_cons Hnone.
      * rewrite Hnone in Hex. by destruct Hex.
      * apply elem_of_app. right. apply Hmiss; [done|].
        specialize (Hkind q). rewrite Hnone in Hkind.
        by destruct (stat (fs w1) q) as [[|]|].
  - apply bool_decide_eq_false in Hex. rewrite decide_False by done.
    destruct (IH n (print (File_not_found p) w))
      as (Hdry' & Hkind' & Hle & out & Hout & Hmiss).
    cbn zeta in *. simpl in *. split_and!; try done.
    exists (File_not_found p :: out). split; [by rewrite Hout, <- app_assoc|].
    intros q [->|Hq]%elem_of_cons Hnone; [left|right; by apply Hmiss].
Qed.

(** X17: [main] counts the files it updated among the files that exist: the
    summary gives that number, which is at most the number of arguments that
    exist, and the number of all arguments; every argument that does not
    exist is reported as not found.  No run changes the kind of anything in
    the file system, and a dry run changes nothing at all. *)
Theorem main_counts_the_updated_files io U a w :
  (dry_run a = true -> fs (main io U a w) = fs w) /\
  (forall q, kind (stat (fs (main io U a w)) q) = kind (stat (fs w) q)) /\
  exists out files_updated,
    stdout (main io U a w) = stdout w ++ out /\
    Summary files_updated (length (files a)) ∈ out /\
    files_updated <= length (filter (fun p => is_Some (stat (fs w) p)) (files a)) /\
    forall p, p ∈ files a -> stat (fs w) p = None -> File_not_found p ∈ out.
Proof.
  unfold main.
  set (w0 := if dry_run a then _ else _).
  assert (fs w0 = fs w) as Hfs0 by (subst w0; by destruct (dry_run a)).
  assert (exists out0, stdout w0 = stdout w ++ out0) as [out0 Hout0].
  { subst w0. destruct (dry_run a); simpl; rewrite <- ?app_assoc; eauto. }
  destruct (main_loop_facts io U a (files a) 0 w0) as (Hdry & Hkind & Hle & out & Hout & Hmiss).
  cbn zeta in *.
  destruct (fold_left (main_loop io U a) (files a) (0, w0)) as [k w1].
  cbn [fst snd] in *. rewrite Hfs0 in *.
  assert (exists tail,
            stdout (if bool_decide (0 < k) then
                      print Addresses_issue
                        (print Blank
                           (print Updated_java_requirements
                              (print Updated_snapshot_version
                                 (print Updated_java_version
                                    (print Changes_made
                                       (print Blank
                                          (print (Summary k (length (files a)))
                                             (print Blank w1))))))))
                    else print (Summary k (length (files a))) (print Blank w1))
            = stdout w1 ++ Blank :: Summary k (length (files a)) :: tail /\
            fs (if bool_decide (0 < k) then
                  print Addresses_issue
                    (print Blank
                       (print Updated_java_requirements
                          (print Updated_snapshot_version
                             (print Updated_java_version
                                (print Changes_made
                                   (print Blank
                                      (print (Summary k (length (files a)))
                                         (print Blank w1))))))))
                else print (Summary k (length (files a))) (print Blank w1))
            = fs w1) as (tail & Hend & Hfs).
  { destruct (bool_decide (0 < k)); simpl; rewrite <- ?app_assoc; simpl; eauto. }
  rewrite Hfs. split_and!; try done.
  exists (out0 ++ out ++ Blank :: Summary k (length (files a)) :: tail), k.
  split_and!; try done.
  - by rewrite Hend, Hout, Hout0, <- !app_assoc.
  - rewrite !elem_of_app. right. right. right. left.
  - intros p Hp Hnone. rewrite !elem_of_app. right. left. by apply Hmiss.
Qed.

(** ** The edits of the two updates *)

Lemma sub_literal_edits U pattern old new rules s fl :
  re.IGNORECASE fl = false ->
  (forall u, re.lang U false pattern u -> u = old) ->
  edits rules old new ->
  edits rules s (re.sub U pattern [re.Literal new] s fl).
Proof.
  intros Hfl Hlang Hedit. unfold re.sub. rewrite Hfl. apply loop_edits.
  intros b t st Hc. apply consuming_inv in Hc as (_ & u & -> & Hu).
  exists u. split; [done|]. rewrite (Hlang u Hu).
  unfold re.expand. simpl. by rewrite app_nil_r.
Qed.

Lemma sub_between_groups_edits U ic a x b old new rules s fl :
  re.IGNORECASE fl = ic ->
  re.group_free a = true -> re.group_free x = true -> re.group_free b = true ->
  (forall u, re.lang U ic x u -> u = old) ->
  (old, new) ∈ rules ->
  edits rules s
    (re.sub U (re.Cat (re.Group 1 a) (re.Cat x (re.Group 2 b)))
       [re.GroupRef 1; re.Literal new; re.GroupRef 2] s fl).
Proof.
  intros Hfl Ha Hx Hb Hold Hin. unfold re.sub. rewrite Hfl. apply loop_edits.
  intros bf t st Hc. pose proof (consuming_match _ _ _ _ _ _ Hc) as Hm.
  apply (match_between_groups U ic a x b new) in Hm
    as (u1 & ux & u2 & Hrest & Hlx & ->); try done.
  simpl in Hrest. rewrite (Hold _ Hlx) in Hrest.
  exists (u1 ++ old ++ u2). split; [by rewrite Hrest, <- !app_assoc|].
  by apply edits_one.
Qed.

Lemma apply_pattern_edits U fl describe rules acc p s :
  edits rules s (fst acc) ->
  (forall c, edits rules c (re.sub U (fst p) (snd p) c fl)) ->
  edits rules s (fst (apply_pattern U fl describe acc p)).
Proof.
  intros Hacc Hp. rewrite apply_pattern_fst. eapply edits_trans; [done|apply Hp].
Qed.

Lemma fold_patterns_edits U fl describe rules pats : forall acc s,
  edits rules s (fst acc) ->
  (forall p c, p ∈ pats -> edits rules c (re.sub U (fst p) (snd p) c fl)) ->
  edits rules s (fst (fold_left (apply_pattern U fl describe) pats acc)).
Proof.
  induction pats as [|p pats IH]; intros acc s Hacc Hp; [done|].
  cbn [fold_left]. apply IH.
  - apply apply_pattern_edits; [done|]. intros c. apply Hp. left.
  - intros q c Hq. apply Hp. by right.
Qed.

(** X18: [update_file_content] edits nothing but the versions.  The content
    it returns is the content it was given after replacements, one after
    the other, of an occurrence of the old version by the new version or of
    the old snapshot version by the new one; the length of the content
    never changes. *)
Theorem only_the_versions_are_edited U content dry_run :
  edits version_rules content (fst (update_file_content U content dry_run)) /\
  length (fst (update_file_content U content dry_run)) = length content.
Proof.
  assert (edits version_rules content (fst (update_file_content U content dry_run)))
    as Hedits.
  { unfold update_file_content.
    apply fold_patterns_edits; [apply fold_patterns_edits; [constructor|]|].
    - unfold VERSION_PATTERNS. intros p c Hp.
      repeat (apply elem_of_cons in Hp as [->|Hp]); [..|by apply elem_of_nil in Hp];
        cbn [fst snd].
      + apply sub_literal_edits with (old := re.chars "<version>0.3.3</version>");
          [done|apply lang_lit|].
        by apply (edits_at version_rules (re.chars "<version>") (re.chars OLD_VERSION)
                    (re.chars NEW_VERSION) (re.chars "</version>")); [left|..].
      + apply sub_literal_edits with (old := re.chars "version: '0.3.3'");
          [done|apply lang_lit|].
        by apply (edits_at version_rules (re.chars "version: '") (re.chars OLD_VERSION)
                    (re.chars NEW_VERSION) (re.chars "'")); [left|..].
      + apply sub_literal_edits
          with (old := re.chars ("version: " ++ dquote ++ "0.3.3" ++ dquote));
          [done|apply lang_lit|].
        by apply (edits_at version_rules (re.chars ("version: " ++ dquote))
                    (re.chars OLD_VERSION) (re.chars NEW_VERSION) (re.chars dquote));
          [left|..].
      + apply sub_literal_edits with (old := re.chars OLD_VERSION);
          [done|apply lang_word|].
        by apply (edits_at version_rules [] (re.chars OLD_VERSION)
                    (re.chars NEW_VERSION) []); [left|..].
      + apply sub_literal_edits with (old := re.chars OLD_SNAPSHOT);
          [done|apply lang_word|].
        by apply (edits_at version_rules [] (re.chars OLD_SNAPSHOT)
                    (re.chars NEW_SNAPSHOT) []); [right; left|..].
    - unfold DEPENDENCY_PATTERNS. intros p c Hp.
      repeat (apply elem_of_cons in Hp as [->|Hp]); [..|by apply elem_of_nil in Hp];
        cbn [fst snd].
      + apply (sub_between_groups_edits U false) with (old := re.chars OLD_VERSION);
          try done; [apply lang_lit|left].
      + apply (sub_between_groups_edits U false) with (old := re.chars OLD_VERSION);
          try done; [apply lang_lit|left]. }
  split; [done|]. symmetry. eapply edits_length; [|done].
  by repeat constructor.
Qed.

(** X19: [update_java_requirements_section] edits nothing but the digit 8:
    the content it returns is the content it was given after replacements
    of an [8] by [11]. *)
Theorem only_the_8_is_edited U content :
  extends_ascii U ->
  edits java_rules content
    (fst (update_java_requirements_section U content)).
Proof.
  intros HU. unfold update_java_requirements_section. cbv zeta.
  case_decide; [|constructor]. cbn [fst]. unfold java_req_pattern.
  apply (sub_between_groups_edits U true) with (old := re.chars "8");
    try done; [|left].
  intros u (x & -> & Hx). unfold re.char_matches in Hx.
  destruct (HU (re.chr "8") eq_refl) as (_ & _ & Hcased).
  rewrite Hcased in Hx. simpl in Hx. by apply bool_decide_eq_true in Hx as ->.
Qed.

End version_updater.

(** * The theorems at work on the example worlds *)



(** C9 on [collision_world]: a source directory meets a regular file. *)
Lemma overlay_type_collision_witness :
  type_collision (fs collision_world) ["src"] ["dst"] ["d"] = true /\
  exists e w',
    overlay ["src"] ["dst"] collision_world = (Raise e, w') /\
    stat (fs w') ["dst"; "d"] = Some (File "not a directory").
Proof.
  split; [reflexivity|].
  apply (overlay_type_collision ["src"] ["dst"] collision_world ["d"]);
    [wf_tree | apart_paths | done | reflexivity].
Defined.

(** C6 on [layers_world]: [x.txt] ends with the bytes of [C], announced once. *)
Lemma last_writer_wins_witness :
  exists w1 w2 w3,
    copytree ["A"] ["ns"] layers_world = (Ok tt, w1) /\
    overlay ["B"] ["ns"; "sub"] w1 = (Ok tt, w2) /\
    overlay ["C"] ["ns"; "sub"] w2 = (Ok tt, w3) /\
    stat (fs w3) ["ns"; "sub"; "x.txt"] = Some (File "from C") /\
    exists outB outC,
      stdout w1 = stdout layers_world /\
      stdout w2 = stdout w1 ++ outB /\
      stdout w3 = stdout w2 ++ outC /\
      notices_for ["ns"; "sub"; "x.txt"] outB = 0 /\
      notices_for ["ns"; "sub"; "x.txt"] outC = 1.
Proof.
  do 3 eexists.
  split; [vm_compute; reflexivity|].
  split; [vm_compute; reflexivity|].
  split; [vm_compute; reflexivity|].
  eapply (last_writer_wins ["A"] ["B"] ["C"] ["ns"] "sub" "x.txt"
            "from B" "from C" layers_world);
    [wf_tree | apart_paths | apart_paths
    | vm_compute; reflexivity | vm_compute; reflexivity
    | vm_compute; reflexivity | reflexivity | reflexivity | reflexivity].
Defined.

(** C5 on [overlay_world]: an existing destination is refused, a fresh one
    receives the source tree. *)
Lemma replace_tree_spec_witness :
  copytree ["src"] ["dst"] overlay_world = (Raise FileExistsError, overlay_world) /\
  exists w' es,
    copytree ["src"] ["copy"; "of"; "src"] overlay_world = (Ok tt, w') /\
    stat (fs w') ["copy"; "of"; "src"] = Some (Dir es) /\
    stat (fs w') ["src"] = Some (Dir es).
Proof.
  destruct (replace_tree_spec ["src"] ["dst"] overlay_world _ eq_refl)
    as [Hexists _].
  split; [apply Hexists; by eexists|].
  destruct (replace_tree_spec ["src"] ["copy"; "of"; "src"] overlay_world _ eq_refl)
    as [_ Hfresh].
  destruct Hfresh as (w' & Hrun & Hdst & Hsrc).
  - reflexivity.
  - intros [? ?]; simplify_eq.
  - intros q r d Heq Hq.
    destruct q as [|q1 [|q2 [|q3 [|q4 q]]]]; simpl in Heq; simplify_eq;
      vm_compute in Hq; simplify_eq.
  - eauto.
Defined.

(** C8 on [proto_world]: the generated sources are absent, and their step is
    skipped. *)
Lemma absent_source_is_skipped_witness :
  let mps := configured_mappings ["tfj"] ["repo"; "ndarray"] ["tmp"; "m1"] in
  exists mp,
    mps !! 1 = Some mp /\
    stat (fs proto_world) (m_source mp) = None /\
    apply_mapping mp proto_world = (Ok tt, proto_world) /\
    run_mappings (mp :: drop 2 mps) proto_world =
    run_mappings (drop 2 mps) proto_world.
Proof.
  eexists. split; [reflexivity|]. split; [reflexivity|].
  eapply (absent_source_is_skipped (demo_cfg (Some ["tfj"])) ext_quiet
            ["tmp"; "m1"] ["tfj"] ["repo"; "ndarray"]).
  - right. left.
  - reflexivity.
Defined.

(** C10 on [bare_world]: no primary sources, nothing copied, no failure. *)
Lemma degraded_without_primary_source_witness :
  stat (fs bare_world) (TF_JAVA_SOURCE_PATH (demo_cfg None)) = None /\
  build_traditional_tensorflow_java_docs (demo_cfg None) ext_quiet
    ["tmp"; "m2"] bare_world =
  (Ok tt, {| fs := fs bare_world; stdout := [Msg_building_traditional];
             temp_names := [] |}).
Proof.
  split; [reflexivity|].
  apply (degraded_without_primary_source (demo_cfg None) ext_quiet
           ["tmp"; "m2"] bare_world).
  reflexivity.
Defined.




(** C1 on the third configured step, which replaces and does not merge. *)
Lemma layered_contributions_witness :
  exists mp,
    configured_mappings ["tfj"] ["repo"; "ndarray"] ["tmp"; "m1"] !! 2 = Some mp /\
    m_mode mp = replace_tree /\
    forall w es,
      stat (fs w) (m_source mp) = Some (Dir es) ->
      is_Some (stat (fs w) (m_dest mp)) ->
      apply_mapping mp w = (Raise FileExistsError, w).
Proof.
  eexists. split; [reflexivity|]. split; [reflexivity|].
  destruct (layered_contributions ["tfj"] ["repo"; "ndarray"] ["tmp"; "m1"])
    as [_ Hall].
  eapply (Hall (Mapping replace_tree _ _)). right. right. left.
Defined.

(** C1, counterexample: a checkout whose core API has a [proto] package.  The
    first two steps of the composition return; the protocol definitions come
    third, their destination exists by then, and the step raises
    [FileExistsError], which ends the full composition, where [overlay] on
    the same source and destination returns. *)
Lemma proto_contribution_raises :
  exists w2 mp w3,
    (print Msg_building_comprehensive ;;
     mkdir true true ["tmp"; "m1"; "java"; "org"] ;;
     checkout_tensorflow_java (demo_cfg (Some ["tfj"])) ext_quiet ;;
     checkout_ndarray (demo_cfg (Some ["tfj"])) ext_quiet ;;
     run_mappings
       (take 2 (configured_mappings ["tfj"] ["repo"; "ndarray"] ["tmp"; "m1"])))
      proto_world = (Ok tt, w2) /\
    configured_mappings ["tfj"] ["repo"; "ndarray"] ["tmp"; "m1"] !! 2 = Some mp /\
    is_Some (stat (fs w2) (m_dest mp)) /\
    apply_mapping mp w2 = (Raise FileExistsError, w2) /\
    overlay (m_source mp) (m_dest mp) w2 = (Ok tt, w3) /\
    fst (build_comprehensive_java_docs (demo_cfg (Some ["tfj"])) ext_quiet
           ["tmp"; "m1"] proto_world) = Raise FileExistsError.
Proof.
  eexists _, _, _. split_and!.
  - vm_compute. reflexivity.
  - reflexivity.
  - vm_compute. eauto.
  - vm_compute. reflexivity.
  - vm_compute. reflexivity.
  - vm_compute. reflexivity.
Qed.


(** C5, counterexample: the destination does not exist, but a regular file
    stands where its parent should be, and [copytree] raises
    [NotADirectoryError]. *)
Lemma replace_tree_blocked_by_file :
  stat (fs blocked_world) ["src"] = Some (Dir [("a.txt", File "A")]) /\
  stat (fs blocked_world) ["f"; "out"] = None /\
  copytree ["src"] ["f"; "out"] blocked_world =
  (Raise NotADirectoryError, blocked_world).
Proof. split_and!; reflexivity. Qed.

(** X1 on [collision_world], where the overlay raises: the source, the
    colliding file and the temporary names are as they were. *)
Lemma overlay_stays_in_destination_witness :
  exists e w',
    overlay ["src"] ["dst"] collision_world = (Raise e, w') /\
    stat (fs w') ["src"] = stat (fs collision_world) ["src"] /\
    kind (stat (fs w') ["dst"; "d"]) = Some false /\
    temp_names w' = [].
Proof.
  eexists _, _. split; [vm_compute; reflexivity|].
  destruct (overlay_stays_in_destination ["src"] ["dst"] collision_world _ _ eq_refl)
    as (Hframe & Hkind & Htemp & _).
  split; [apply Hframe; apart_paths|]. split; [by apply Hkind|exact Htemp].
Defined.

(** X2 on [overlay_world]: the empty directory [src/d/e] is overlaid on a
    path that does not exist, which still does not exist afterwards. *)
Lemma overlay_nothing_to_copy_witness :
  overlay ["src"; "d"; "e"] ["nowhere"] overlay_world = (Ok tt, overlay_world) /\
  stat (fs overlay_world) ["nowhere"] = None /\
  exists w',
    overlay ["src"; "d"] ["fresh"] overlay_world = (Ok tt, w') /\
    kind (stat (fs w') ["fresh"]) = Some true.
Proof.
  destruct (overlay_nothing_to_copy ["src"; "d"; "e"] ["nowhere"] overlay_world)
    as [Hnone _].
  destruct (overlay_nothing_to_copy ["src"; "d"] ["fresh"] overlay_world)
    as [_ Hroot].
  split; [by apply Hnone|]. split; [reflexivity|].
  eexists. split; [vm_compute; reflexivity|].
  eapply (Hroot ("b.txt", File "B")); [reflexivity|vm_compute; reflexivity].
Defined.

(** X3 on [gen_only_world]: the generated sources start with the package
    [op]; overlaid on a destination that does not exist they raise, where
    the package alone, which starts with a file, is copied. *)
Lemma overlay_directory_first_witness :
  let gen := ["tfj"; "tensorflow-core"; "tensorflow-core-api"; "src"; "gen";
              "java"; "org"; "tensorflow"] in
  overlay gen ["tmp"; "m1"; "java"] gen_only_world
    = (Raise FileNotFoundError, gen_only_world) /\
  exists w',
    overlay (gen ++ ["op"]) ["tmp"; "m1"; "java"] gen_only_world = (Ok tt, w') /\
    stat (fs w') ["tmp"; "m1"; "java"; "Ops.java"] = Some (File "class Ops").
Proof.
  split.
  - eapply (overlay_directory_first _ _ gen_only_world "op"); [reflexivity..|].
    intros q d [r Hq].
    repeat (destruct q as [|? q]; simplify_eq/=; try done).
  - eexists. split; vm_compute; reflexivity.
Defined.

(** X4 on [gen_only_world]. *)
Lemma generated_sources_without_core_api_witness :
  build_comprehensive_java_docs (demo_cfg (Some ["tfj"])) ext_quiet ["tmp"; "m1"]
    gen_only_world
  = (Raise FileNotFoundError,
     {| fs := Dir [("tmp", Dir [("m1", chain ["java"; "org"] (Dir []))]);
                   ("repo", Dir [("ndarray", Dir [])]);
                   ("tfj", gen_only_checkout)];
        stdout := [Msg_building_comprehensive;
                   Msg_using_existing ["repo"; "ndarray"];
                   Msg_checking_out "v1.0.0"];
        temp_names := ["m2"] |}).
Proof.
  eapply (generated_sources_without_core_api (demo_cfg (Some ["tfj"])) ext_quiet
            ["tmp"; "m1"] gen_only_world ["tfj"] ["repo"; "ndarray"] _ "op");
    [vm_compute; reflexivity | reflexivity | reflexivity | reflexivity | reflexivity].
Defined.

(** X5 on [primary_world]: the primary sources overlaid on the empty merged
    tree. *)
Lemma overlay_into_empty_directory_witness :
  exists w',
    overlay ["repo"; "tensorflow"] ["tmp"; "m1"] primary_world = (Ok tt, w') /\
    stdout w' = [] /\
    content (stat (fs w') ["tmp"; "m1"; "java"; "src"; "main"; "java";
                           "org"; "tensorflow"; "Tensor.java"])
      = Some (Some "class Tensor") /\
    content (stat (fs w') ["tmp"; "m1"; "java"; "src"]) = Some None /\
    content (stat (fs w') ["tmp"; "m1"; "python"]) = None.
Proof.
  destruct (overlay_into_empty_directory ["repo"; "tensorflow"] ["tmp"; "m1"]
              primary_world _ ltac:(wf_tree) ltac:(apart_paths) eq_refl eq_refl)
    as (w' & Hrun & Hout & Hsame).
  exists w'. split; [exact Hrun|]. split; [exact Hout|]. split_and!.
  - apply (Hsame ["java"; "src"; "main"; "java"; "org"; "tensorflow"; "Tensor.java"]).
  - apply (Hsame ["java"; "src"]).
  - apply (Hsame ["python"]).
Defined.

(** X6 on [side_by_side_world]: protocol definitions, framework and array
    library arrive; the exceptions and the C API bindings, which the checkout
    does not have, are passed over. *)
Lemma later_steps_copy_side_by_side_witness :
  exists w',
    build_comprehensive_java_docs (demo_cfg (Some ["tfj"])) ext_quiet ["tmp"; "m1"]
      side_by_side_world = (Ok tt, w') /\
    stat (fs w') ["tmp"; "m1"; "java"; "org"; "tensorflow"; "proto"]
      = Some (Dir [("GraphDef.java", File "class GraphDef")]) /\
    stat (fs w') ["tmp"; "m1"; "java"; "org"; "tensorflow"; "framework"]
      = Some (Dir [("Optimizer.java", File "class Optimizer")]) /\
    stat (fs w') ["tmp"; "m1"; "java"; "org"; "tensorflow"; "ndarray"]
      = Some (Dir [("NdArray.java", File "interface NdArray")]) /\
    stat (fs w') ["tmp"; "m1"; "java"; "org"; "tensorflow"; "exceptions"] = None.
Proof.
  pose (w := snd ((print Msg_building_comprehensive ;;
                   mkdir true true (["tmp"; "m1"] ++ ["java"; "org"]) ;;
                   t <- checkout_tensorflow_java (demo_cfg (Some ["tfj"])) ext_quiet ;;
                   d <- checkout_ndarray (demo_cfg (Some ["tfj"])) ext_quiet ;;
                   run_mappings (take 2 (configured_mappings t d ["tmp"; "m1"])) ;;
                   ret (t, d)) side_by_side_world)).
  destruct (later_steps_copy_side_by_side (demo_cfg (Some ["tfj"])) ext_quiet
              ["tmp"; "m1"] side_by_side_world ["tfj"] ["repo"; "ndarray"] w)
    as (w' & Hrun & _ & Hcopied & _).
  - vm_compute. reflexivity.
  - apart_paths.
  - apart_paths.
  - intros mp Hin. cbn in Hin.
    repeat (apply elem_of_cons in Hin as [->|Hin]); [..|by apply elem_of_nil in Hin];
      by vm_compute.
  - intros mp Hin. cbn in Hin.
    repeat (apply elem_of_cons in Hin as [->|Hin]); [..|by apply elem_of_nil in Hin];
      intros Hsome; try (vm_compute; reflexivity);
      vm_compute in Hsome; by destruct Hsome.
  - intros q [r Hq].
    repeat (destruct q as [|? q]; simplify_eq/=; try by vm_compute).
  - assert (forall k mp,
              drop 2 (configured_mappings ["tfj"] ["repo"; "ndarray"] ["tmp"; "m1"]) !! k
                = Some mp ->
              stat (fs w') (m_dest mp) =
              match stat (fs w) (m_source mp) with
              | Some s => Some s
              | None => stat (fs w) (m_dest mp)
              end) as Hk.
    { intros k mp Hmp. apply Hcopied. by eapply list_elem_of_lookup_2. }
    exists w'. split; [exact Hrun|]. split_and!.
    + etrans; [apply (Hk 0 _ eq_refl)|vm_compute; reflexivity].
    + etrans; [apply (Hk 3 _ eq_refl)|vm_compute; reflexivity].
    + etrans; [apply (Hk 4 _ eq_refl)|vm_compute; reflexivity].
    + etrans; [apply (Hk 1 _ eq_refl)|vm_compute; reflexivity].
Defined.

(** X7 on [start_world] without a network: [main] falls back, returns, and
    its last line announces completion. *)
Lemma main_reports_completion_witness :
  exists w' out,
    main (demo_cfg None) ext_offline start_world = (Ok tt, w') /\
    stdout w' = stdout start_world ++ out /\
    Msg_falling_back ∈ out /\
    last out = Some Msg_completed.
Proof.
  destruct (main_reports_completion (demo_cfg None) ext_offline start_world
              (Ok tt) (snd (main (demo_cfg None) ext_offline start_world)))
    as (out & Hout & _ & Hlast).
  - vm_compute. reflexivity.
  - eexists _, out. split; [vm_compute; reflexivity|].
    split; [exact Hout|]. split; [|by apply Hlast].
    simpl in Hout. rewrite <- Hout. vm_compute. do 5 right. left.
Defined.

(** X8 on [start_world] without a network: the tree of the degraded
    composition is still in the temporary directory when [main] has
    returned. *)
Lemma main_keeps_the_merged_tree_witness :
  exists w' merged_source es,
    main (demo_cfg None) ext_offline start_world = (Ok tt, w') /\
    ["tmp"] `prefix_of` merged_source /\
    stat (fs w') merged_source = Some (Dir es).
Proof.
  destruct (main_keeps_the_merged_tree (demo_cfg None) ext_offline start_world
              (snd (main (demo_cfg None) ext_offline start_world)))
    as (m & w1 & _ & Htmp & _ & [es Hes]).
  - intros q. split; [split_and!|]; intros; intros t Ht; exact Ht.
  - vm_compute. reflexivity.
  - eexists _, m, es. split; [vm_compute; reflexivity|]. split; [exact Htmp|exact Hes].
Defined.

(** X9 on [primary_world] without a network, first with the clone of
    [tensorflow-java], then with a local repository and the clone of
    [ndarray]. *)
Lemma git_failure_ends_the_composition_witness :
  (exists w',
     build_comprehensive_java_docs (demo_cfg None) ext_offline ["tmp"; "m1"]
       primary_world
     = (Raise (GitCommandError "unable to access the remote"), w') /\
     stdout w' = [Msg_building_comprehensive;
                  Msg_cloning "https://github.com/tensorflow/java"
                    ["repo"; "tensorflow-java"]]) /\
  (exists w',
     build_comprehensive_java_docs (demo_cfg (Some ["tfj"])) ext_offline ["tmp"; "m1"]
       primary_world
     = (Raise (GitCommandError "unable to access the remote"), w') /\
     stdout w' = [Msg_building_comprehensive;
                  Msg_cloning "https://github.com/tensorflow/java-ndarray"
                    ["repo"; "ndarray"]]).
Proof.
  split; eexists.
  - split.
    + eapply (git_failure_ends_the_composition (demo_cfg None) ext_offline
                ["tmp"; "m1"] primary_world);
        vm_compute; reflexivity.
    + reflexivity.
  - split.
    + eapply (git_failure_ends_the_composition (demo_cfg (Some ["tfj"])) ext_offline
                ["tmp"; "m1"] primary_world);
        vm_compute; reflexivity.
    + reflexivity.
Defined.

(** X10 on [ops_ready_world]: the op sources of the build arrive at
    [org/tensorflow/ops], beside [Tensor.java]. *)
Lemma generated_ops_are_added_witness :
  exists w',
    build_traditional_tensorflow_java_docs (demo_cfg None) ext_quiet ["tmp"; "m2"]
      ops_ready_world = (Ok tt, w') /\
    stat (fs w') ["tmp"; "m2"; "java"; "org"; "tensorflow"; "ops"]
      = Some (Dir [("Add.java", File "class Add")]) /\
    stat (fs w') ["tmp"; "m2"; "java"; "org"; "tensorflow"; "Tensor.java"]
      = Some (File "class Tensor").
Proof.
  pose (w1 := snd ((print Msg_building_traditional ;;
                    copytree (TF_JAVA_SOURCE_PATH (demo_cfg None))
                      (["tmp"; "m2"] ++ ["java"]) ;;
                    print Msg_generating_ops) ops_ready_world)).
  destruct (generated_ops_are_added (demo_cfg None) ext_quiet ["tmp"; "m2"]
              ops_ready_world w1 w1
              [("org", Dir [("tensorflow", Dir [("Tensor.java", File "class Tensor")])])]
              [("Add.java", File "class Add")])
    as (w' & Hrun & Hops & Hfiles & _);
    try (vm_compute; reflexivity); try by vm_compute.
  exists w'. split; [exact Hrun|]. split; [exact Hops|].
  apply (Hfiles ["org"; "tensorflow"; "Tensor.java"]). reflexivity.
Defined.

Section version_updater_at_work.
Import update_java_version_docs.

Lemma U_ascii_extends_ascii : extends_ascii U_ascii.
Proof. by intros c _. Qed.

(** A word does not occur in a text that is given. *)
Local Ltac no_occurrence :=
  intros (l1 & l2 & H); vm_compute in H;
  repeat (destruct l1 as [|? l1];
          [simpl in H; congruence
          |simpl in H; first [discriminate H|injection H as _ H]]).

(** X11 on a page that names the new version only. *)
Lemma nothing_to_update_witness :
  update_file_content U_ascii (re.chars "version 1.1.0, not 0.3") false =
  (re.chars "version 1.1.0, not 0.3", []).
Proof.
  apply (nothing_to_update U_ascii (re.chars "version 1.1.0, not 0.3") false);
    no_occurrence.
Defined.

(** X12 on a Maven dependency, which is updated by the first version
    pattern and reported as a version reference. *)
Lemma dependency_patterns_never_apply_witness :
  let content :=
    re.chars "<dependency> <groupId>org.tensorflow</groupId> <artifactId>tensorflow-core-platform</artifactId> <version>0.3.3</version>" in
  fst (update_file_content U_ascii content false) =
    re.chars "<dependency> <groupId>org.tensorflow</groupId> <artifactId>tensorflow-core-platform</artifactId> <version>1.1.0</version>" /\
  length (snd (update_file_content U_ascii content false)) = 1 /\
  Updated_dependency ∉ snd (update_file_content U_ascii content false).
Proof.
  intros content. split; [vm_compute; reflexivity|]. split; [vm_compute; reflexivity|].
  apply (dependency_patterns_never_apply U_ascii content false).
  apply U_ascii_extends_ascii.
Defined.

(** X13 between two blanks; behind a dot the old version can come back. *)
Lemma old_versions_are_gone_witness :
  ~ re.occurs (re.chars " 0.3.3 ")
      (fst (update_file_content U_ascii (re.chars "from 0.3.3 on") false)) /\
  fst (update_file_content U_ascii (re.chars "0.3.3.3.3 ") false) =
    re.chars "1.1.0.3.3 ".
Proof.
  split; [|vm_compute; reflexivity].
  destruct (old_versions_are_gone U_ascii (re.chars "from 0.3.3 on") false
              (re.chr " ") (re.chr " ") U_ascii_extends_ascii eq_refl eq_refl)
    as [_ Hgone].
  by apply Hgone.
Defined.

(** X14 on a requirement written without a blank, which stays. *)
Lemma java_requirement_needs_a_space_and_8_witness :
  update_java_requirements_section U_ascii (re.chars "Java8+") =
    (re.chars "Java8+", []) /\
  fst (update_java_requirements_section U_ascii (re.chars "Java 8+")) =
    re.chars "Java 11+".
Proof.
  split; [|vm_compute; reflexivity].
  apply (java_requirement_needs_a_space_and_8 U_ascii (re.chars "Java8+")
           U_ascii_extends_ascii).
  intros (l1 & c & l2 & H & Hsp). vm_compute in H.
  repeat (destruct l1 as [|? l1];
          [simpl in H; try congruence;
           injection H as <- _; vm_compute in Hsp; congruence
          |simpl in H; first [discriminate H|injection H as _ H]]).
Defined.

(** X19 on a requirement that is updated. *)
Lemma only_the_8_is_edited_witness :
  extends_ascii U_ascii /\
  edits java_rules (re.chars "Java 8 or higher")
    (fst (update_java_requirements_section U_ascii (re.chars "Java 8 or higher"))) /\
  fst (update_java_requirements_section U_ascii (re.chars "Java 8 or higher")) =
    re.chars "Java 11 or higher".
Proof.
  split; [apply U_ascii_extends_ascii|]. split; [|vm_compute; reflexivity].
  apply (only_the_8_is_edited U_ascii (re.chars "Java 8 or higher")
           U_ascii_extends_ascii).
Defined.



(** X17 on [docs_world], with a page that does not exist among the
    arguments: one file of three is updated. *)
Lemma main_counts_the_updated_files_witness :
  let a := {| files := [["docs"; "install.md"]; ["docs"; "missing.md"];
                        ["docs"; "index.md"]];
              dry_run := true |} in
  fs (main byte_io U_ascii a docs_world) = fs docs_world /\
  Summary 1 3 ∈ stdout (main byte_io U_ascii a docs_world) /\
  File_not_found ["docs"; "missing.md"] ∈ stdout (main byte_io U_ascii a docs_world).
Proof.
  intros a.
  destruct (main_counts_the_updated_files byte_io U_ascii a docs_world)
    as (Hdry & _ & _).
  split; [by apply Hdry|].
  split; vm_compute; repeat first [by left|right].
Defined.
End version_updater_at_work.
